(** * PromptFoundry store: license service and catalog scripts

    A shallow embedding of
    - [promptfoundry-api/server.js] and its longer sibling (the second
      [server.js] of the repository), the license service: the
      [/api/license/verify] route, [createOrUpdateLicense],
      [upsertCustomer], [emailSend] and the [/api/stripe/webhook] route;
    - the catalog validator and the catalog builder
      ([auto/build-library.mjs]), the latter also from file to file;
    - the script of the static site that locks the library until a
      license key verifies.

    Conventions.  The Supabase tables are lists of rows.  A Supabase call
    never throws: it returns [{data, error}], here [pg_result].  The
    asynchronous functions that [throw] live in the monad [M], a state
    monad over [world] with an exception.  Everything the handlers obtain
    from outside during one request (the outcome of each store call, the
    answer of [stripe.subscriptions.retrieve], the random token, the
    answer of the mail provider) is gathered in [env].  Console output is
    not modelled.  Timestamps are instants in milliseconds; the ISO-8601
    text [toISOString] prints is determined by the instant. *)

From stdpp Require Import base strings list gmap sorting pretty.
From Stdlib Require Import ZArith Lia Ascii.

Local Open Scope string_scope.
Local Open Scope list_scope.
Set Warnings "-register-all,-clear-no-such-hyp".

(** ** JavaScript values met by the license service *)

(** [req.query.<name>] as Express hands it over. *)
Inductive qparam :=
| QUndefined
| QString (s : string)
| QArray (l : list string)
| QObject.

(** Truthiness of a string, [!!s]. *)
Definition truthy_string (s : string) : bool :=
  negb (String.eqb s "").

(** [!!q] *)
Definition truthy_qparam (q : qparam) : bool :=
  match q with
  | QUndefined => false
  | QString s => truthy_string s
  | QArray _ => true
  | QObject => true
  end.

(** [String(q)] *)
Definition String_qparam (q : qparam) : string :=
  match q with
  | QUndefined => "undefined"
  | QString s => s
  | QArray l => String.concat "," l
  | QObject => "[object Object]"
  end.

(** [a || b] on two optional strings ([None] is [undefined]). *)
Definition or_string (a b : option string) : option string :=
  match a with
  | Some s => if truthy_string s then a else b
  | None => b
  end.

(** ** Rows of the external store *)

Record customer := {
  cust_id : nat;
  cust_email : option string;
  cust_stripe_customer_id : option string;
}.

Record license := {
  lic_id : nat;
  lic_customer_id : nat;
  lic_token : string;
  lic_status : string;
  lic_current_period_end : Z;
  lic_stripe_subscription_id : string;
  lic_tier : string;
  lic_session_id : string;
}.

(** A message handed to the mail provider: recipient, subject and the
    license key that [successEmailHtml] prints inside its markup.  The
    markup itself is no part of the record; its wording differs between
    the two server files. *)
Record email := {
  mail_to : option string;
  mail_subject : string;
  mail_license : string;
}.

Record world := {
  customers : list customer;
  licenses : list license;
  next_id : nat;
  outbox : list email;
}.

Definition set_licenses (ls : list license) (w : world) : world :=
  {| customers := customers w; licenses := ls;
     next_id := next_id w; outbox := outbox w |}.

Definition set_customers (cs : list customer) (w : world) : world :=
  {| customers := cs; licenses := licenses w;
     next_id := next_id w; outbox := outbox w |}.

Definition bump_id (w : world) : world :=
  {| customers := customers w; licenses := licenses w;
     next_id := S (next_id w); outbox := outbox w |}.

Definition push_mail (m : email) (w : world) : world :=
  {| customers := customers w; licenses := licenses w;
     next_id := next_id w; outbox := outbox w ++ [m] |}.

(** ** Stripe objects *)

Record subscription := {
  sub_id : string;
  sub_status : string;
  sub_current_period_end : Z;
  sub_customer_email : option string;
}.

(** [session.customer]: an id, an expanded object, or null. *)
Inductive customer_ref :=
| CustomerId (s : string)
| CustomerObject (id : option string)
| CustomerNull.

Record checkout_session := {
  cs_id : string;
  cs_mode : string;
  cs_subscription : option string;
  cs_customer : customer_ref;
  cs_customer_details_email : option string;
}.

Record invoice := {
  inv_subscription : option string;
}.

Inductive subscription_event :=
| Updated | Deleted | Paused | Resumed.

Inductive event :=
| CheckoutSessionCompleted (session : checkout_session)
| CustomerSubscription (kind : subscription_event) (sub : subscription)
| InvoicePaymentFailed (inv : invoice)
| OtherEvent (type : string).

(** [event.type] *)
Definition event_type (ev : event) : string :=
  match ev with
  | CheckoutSessionCompleted _ => "checkout.session.completed"
  | CustomerSubscription Updated _ => "customer.subscription.updated"
  | CustomerSubscription Deleted _ => "customer.subscription.deleted"
  | CustomerSubscription Paused _ => "customer.subscription.paused"
  | CustomerSubscription Resumed _ => "customer.subscription.resumed"
  | InvoicePaymentFailed _ => "invoice.payment_failed"
  | OtherEvent t => t
  end.

(** ** The environment of one request *)

Record env := {
  (** outcome of the n-th store call of the request: [Some msg] makes the
      call answer [{data: null, error: {message: msg}}] *)
  store_fault : nat → option string;
  (** [stripe.subscriptions.retrieve(id)] *)
  stripe_retrieve : option string → string + subscription;
  (** the value [licenseToken()] draws *)
  fresh_token : string;
  (** [None]: the mail provider answers ok; [Some msg]: [emailSend] throws *)
  email_failure : option string;
}.

Record config := {
  STRIPE_WEBHOOK_SECRET : option string;
  RESEND_API_KEY : option string;
  BRAND_NAME : string;
}.

(** ** HTTP responses *)

Inductive body :=
| BError (error : string)        (* { ok: false, error } *)
| BNotOk                         (* { ok: false } *)
| BVerify (ok : bool) (tier : string) (current_period_end : Z)
| BReceived                      (* { received: true } *)
| BText (text : string).

Record response := {
  res_status : nat;
  res_body : body;
}.

Definition json (b : body) : response := {| res_status := 200; res_body := b |}.
Definition status_json (code : nat) (b : body) : response :=
  {| res_status := code; res_body := b |}.
Definition status_send (code : nat) (text : string) : response :=
  {| res_status := code; res_body := BText text |}.

(** ** The Supabase client *)

Inductive pg_result (A : Type) :=
| PgError (message : string)
| PgData (data : A).
Arguments PgError {A} message.
Arguments PgData {A} data.

Definition multiple_rows : string :=
  "JSON object requested, multiple (or no) rows returned".

(** [.maybeSingle()]: no row is [null], one row is that row, more is an error. *)
Definition maybeSingle {A} (rows : list A) : pg_result (option A) :=
  match rows with
  | [] => PgData None
  | [r] => PgData (Some r)
  | _ => PgError multiple_rows
  end.

(** [from("licenses").select(..).eq(col, v).maybeSingle()] *)
Definition select_license_maybeSingle (fault : option string)
    (P : license → Prop) `{∀ l, Decision (P l)} (w : world)
  : pg_result (option license) :=
  match fault with
  | Some msg => PgError msg
  | None => maybeSingle (filter P (licenses w))
  end.

(** The rows of an [update] statement: those matching are rewritten in place. *)
Definition update_rows (P : license → Prop) `{∀ l, Decision (P l)}
    (f : license → license) (rows : list license) : list license :=
  (λ l, if decide (P l) then f l else l) <$> rows.

(** [from("licenses").update(..).eq(col, v)] *)
Definition update_licenses (fault : option string)
    (P : license → Prop) `{∀ l, Decision (P l)}
    (f : license → license) (w : world) : pg_result unit * world :=
  match fault with
  | Some msg => (PgError msg, w)
  | None => (PgData (), set_licenses (update_rows P f (licenses w)) w)
  end.

(** [from("licenses").update(..).eq(col, v).select("*").single()]:
    [.single()] wants exactly one row; a statement that touches none or
    several is answered by an error and rolled back. *)
Definition update_license_single (fault : option string)
    (P : license → Prop) `{∀ l, Decision (P l)}
    (f : license → license) (w : world) : pg_result license * world :=
  match fault with
  | Some msg => (PgError msg, w)
  | None =>
      match f <$> filter P (licenses w) with
      | [r] => (PgData r, set_licenses (update_rows P f (licenses w)) w)
      | _ => (PgError multiple_rows, w)
      end
  end.

(** [from("licenses").insert(row).select("*").single()]: the store
    numbers the row. *)
Definition insert_license_single (fault : option string)
    (row : nat → license) (w : world) : pg_result license * world :=
  match fault with
  | Some msg => (PgError msg, w)
  | None =>
      let r := row (next_id w) in
      (PgData r, bump_id (set_licenses (licenses w ++ [r]) w))
  end.

(** [from("customers").upsert({email, stripe_customer_id},
    {onConflict: "email"}).select("*").single()].  A null email
    conflicts with no row. *)
Definition upsert_customer_single (fault : option string)
    (email stripe_customer_id : option string) (w : world)
  : pg_result customer * world :=
  match fault with
  | Some msg => (PgError msg, w)
  | None =>
      let hit (c : customer) : Prop :=
        is_Some email ∧ cust_email c = email in
      let put (c : customer) : customer :=
        {| cust_id := cust_id c; cust_email := email;
           cust_stripe_customer_id := stripe_customer_id |} in
      match put <$> filter hit (customers w) with
      | [] =>
          let c := {| cust_id := next_id w; cust_email := email;
                      cust_stripe_customer_id := stripe_customer_id |} in
          (PgData c, bump_id (set_customers (customers w ++ [c]) w))
      | [c] =>
          (PgData c,
           set_customers
             ((λ c, if decide (hit c) then put c else c) <$> customers w) w)
      | _ => (PgError multiple_rows, w)
      end
  end.

(** ** Asynchronous functions that may throw *)

Inductive outcome (A : Type) :=
| Return (a : A)
| Throw (message : string).
Arguments Return {A} a.
Arguments Throw {A} message.

Definition M (A : Type) : Type := world → outcome A * world.

Definition throw {A} (msg : string) : M A := λ w, (Throw msg, w).

#[global] Instance M_ret : MRet M := λ A (a : A) w, (Return a, w).
#[global] Instance M_bind : MBind M := λ A B (k : A → M B) (m : M A) w,
  match m w with
  | (Return a, w') => k a w'
  | (Throw msg, w') => (Throw msg, w')
  end.

(** [const { data, error } = await call; if (error) throw error; data] *)
Definition data_or_throw {A} (call : world → pg_result A * world) : M A :=
  λ w, match call w with
       | (PgData a, w') => (Return a, w')
       | (PgError msg, w') => (Throw msg, w')
       end.

(** A read-only call in [M]. *)
Definition query {A} (call : world → pg_result A) : world → pg_result A * world :=
  λ w, (call w, w).

(** The largest instant of a [Date], in milliseconds from the epoch. *)
Definition max_time_ms : Z := 8640000000000000.

(** [new Date(seconds * 1000).toISOString()]: a [RangeError] outside the
    range of [Date], else the instant. *)
Definition toISOString (seconds : Z) : M Z :=
  let ms := (seconds * 1000)%Z in
  if decide (- max_time_ms ≤ ms ≤ max_time_ms)%Z then mret ms
  else throw "Invalid time value".

(** ** The license service, [promptfoundry-api/server.js] *)

Section Service.
Variable cfg : config.
(** [stripe.webhooks.constructEvent(body, sig, secret)]: the parsed event,
    or the message of the error it throws. *)
Variable constructEvent : string → option string → option string → string + event.

Definition upsertCustomer (e : env) (email stripe_customer_id : option string)
  : M customer :=
  data_or_throw (upsert_customer_single (store_fault e 0) email stripe_customer_id).

Definition createOrUpdateLicense (e : env) (customer_id : nat)
    (stripe_subscription_id status : string) (current_period_end : Z)
    (session_id : string) : M license :=
  existing ← data_or_throw (query (select_license_maybeSingle (store_fault e 1)
               (λ l, lic_stripe_subscription_id l = stripe_subscription_id)));
  match existing with
  | Some ex =>
      data_or_throw (update_license_single (store_fault e 2)
        (λ l, lic_id l = lic_id ex)
        (λ l, {| lic_id := lic_id l; lic_customer_id := lic_customer_id l;
                 lic_token := lic_token l; lic_status := status;
                 lic_current_period_end := current_period_end;
                 lic_stripe_subscription_id := lic_stripe_subscription_id l;
                 lic_tier := lic_tier l; lic_session_id := session_id |}))
  | None =>
      let token := fresh_token e in
      data_or_throw (insert_license_single (store_fault e 2)
        (λ id, {| lic_id := id; lic_customer_id := customer_id;
                  lic_token := token; lic_status := status;
                  lic_current_period_end := current_period_end;
                  lic_stripe_subscription_id := stripe_subscription_id;
                  lic_tier := "all-access"; lic_session_id := session_id |}))
  end.

Definition emailSend (e : env) (m : email) : M unit :=
  match or_string (RESEND_API_KEY cfg) None with
  | None => mret ()                       (* the stub branch: nothing is sent *)
  | Some _ =>
      match email_failure e with
      | Some text => throw ("Email failed: " +:+ text)
      | None => λ w, (Return (), push_mail m w)
      end
  end.

(** [GET /api/license/verify] *)
Definition entitled (status : string) : bool :=
  bool_decide (status ∈ ["active"; "trialing"; "past_due"]).

Definition verify (token : qparam) (e : env) (w : world) : response :=
  if negb (truthy_qparam token) then status_json 400 (BError "token required")
  else
    match select_license_maybeSingle (store_fault e 0)
            (λ l, lic_token l = String_qparam token) w with
    | PgError msg => status_json 500 (BError msg)
    | PgData None => json BNotOk
    | PgData (Some data) =>
        let active := entitled (lic_status data) in
        json (BVerify active (lic_tier data) (lic_current_period_end data))
    end.

(** [typeof session.customer === "string" ? session.customer : session.customer?.id] *)
Definition customer_id_of (c : customer_ref) : option string :=
  match c with
  | CustomerId s => Some s
  | CustomerObject id => id
  | CustomerNull => None
  end.

(** The [switch (event.type)] of the webhook route. *)
Definition handle_event (ev : event) (e : env) : M unit :=
  match ev with
  | CheckoutSessionCompleted session =>
      if negb (String.eqb (cs_mode session) "subscription") then mret ()
      else
        subscription ← (λ w, match stripe_retrieve e (cs_subscription session) with
                             | inl msg => (Throw msg, w)
                             | inr s => (Return s, w)
                             end);
        let customerId := customer_id_of (cs_customer session) in
        let email := or_string (cs_customer_details_email session)
                               (sub_customer_email subscription) in
        customer ← upsertCustomer e email customerId;
        period_end ← toISOString (sub_current_period_end subscription);
        license ← createOrUpdateLicense e (cust_id customer) (sub_id subscription)
                    (sub_status subscription) period_end (cs_id session);
        emailSend e {| mail_to := email;
                       mail_subject := BRAND_NAME cfg +:+ " — Your All-Access license key";
                       mail_license := lic_token license |}
  | CustomerSubscription _ sub =>
      period_end ← toISOString (sub_current_period_end sub);
      data_or_throw (update_licenses (store_fault e 0)
        (λ l, lic_stripe_subscription_id l = sub_id sub)
        (λ l, {| lic_id := lic_id l; lic_customer_id := lic_customer_id l;
                 lic_token := lic_token l; lic_status := sub_status sub;
                 lic_current_period_end := period_end;
                 lic_stripe_subscription_id := lic_stripe_subscription_id l;
                 lic_tier := lic_tier l; lic_session_id := lic_session_id l |}))
  | InvoicePaymentFailed inv =>
      match or_string (inv_subscription inv) None with
      | Some subscription =>
          (* the answer of the store is not looked at *)
          λ w, (Return (),
                snd (update_licenses (store_fault e 0)
                  (λ l, lic_stripe_subscription_id l = subscription)
                  (λ l, {| lic_id := lic_id l; lic_customer_id := lic_customer_id l;
                           lic_token := lic_token l; lic_status := "past_due";
                           lic_current_period_end := lic_current_period_end l;
                           lic_stripe_subscription_id := lic_stripe_subscription_id l;
                           lic_tier := lic_tier l; lic_session_id := lic_session_id l |})
                  w))
      | None => mret ()
      end
  | OtherEvent _ => mret ()
  end.

(** [POST /api/stripe/webhook] *)
Definition webhook (raw_body : string) (sig : option string) (e : env) (w : world)
  : response * world :=
  match constructEvent raw_body sig (STRIPE_WEBHOOK_SECRET cfg) with
  | inl message => (status_send 400 ("Webhook Error: " +:+ message), w)
  | inr ev =>
      match handle_event ev e w with
      | (Return _, w') => (json BReceived, w')
      | (Throw _, w') => (status_send 500 "Webhook failed", w')
      end
  end.

(** ** The sibling [server.js]: its verify route *)

Definition verify' (token : qparam) (e : env) (w : world) : response :=
  if negb (truthy_qparam token) then status_json 400 (BError "token required")
  else
    match select_license_maybeSingle (store_fault e 0)
            (λ l, lic_token l = String_qparam token) w with
    | PgError msg => status_json 500 (BError msg)
    | PgData None => json BNotOk
    | PgData (Some data) =>
        let active :=
          String.eqb (lic_status data) "active"
          || String.eqb (lic_status data) "trialing"
          || String.eqb (lic_status data) "past_due" in
        json (BVerify active (lic_tier data) (lic_current_period_end data))
    end.

End Service.

(** * The catalog scripts *)

(** ** JSON values as [JSON.parse] returns them

    Numbers are the integers among the doubles; [VUndefined] is what
    reading an absent property gives. *)
Inductive value :=
| VUndefined
| VNull
| VBool (b : bool)
| VNumber (n : Z)
| VString (s : string)
| VArray (elements : list value)
| VObject (fields : list (string * value)).

(** The value of key [k] in an object literal; a later duplicate wins. *)
Fixpoint field (fields : list (string * value)) (k : string) : value :=
  match fields with
  | [] => VUndefined
  | (k', v) :: rest =>
      match field rest k with
      | VUndefined => if decide (k' = k) then v else VUndefined
      | found => found
      end
  end.

(** [it.k], where [it] is neither null nor undefined.  None of the keys
    read here is a property of a prototype. *)
Definition get (it : value) (k : string) : value :=
  match it with
  | VObject fields => field fields k
  | _ => VUndefined
  end.

(** [!!v] *)
Definition truthy (v : value) : bool :=
  match v with
  | VUndefined | VNull => false
  | VBool b => b
  | VNumber n => negb (n =? 0)%Z
  | VString s => truthy_string s
  | VArray _ | VObject _ => true
  end.

(** [a || b] *)
Definition or_value (a b : value) : value :=
  if truthy a then a else b.

(** [String(v)], or [None] where it throws a [TypeError].  An array
    joins the texts of its elements with commas, null and undefined
    elements printing as nothing, and throws where an element does.  An
    object prints as [[object Object]] unless it has a property
    [toString] of its own: read from JSON that is no function, and the
    object cannot be converted.  A number prints its digits, as the
    engine does for integers below 10^21 in size. *)
Fixpoint String_value (v : value) : option string :=
  match v with
  | VUndefined => Some "undefined"
  | VNull => Some "null"
  | VBool true => Some "true"
  | VBool false => Some "false"
  | VNumber n => Some (pretty n)
  | VString s => Some s
  | VArray elements =>
      String.concat "," <$>
        (fix each (l : list value) : option (list string) :=
           match l with
           | [] => Some []
           | (VUndefined | VNull) :: rest => cons "" <$> each rest
           | x :: rest => s ← String_value x; ss ← each rest; Some (s :: ss)
           end) elements
  | VObject fields =>
      if bool_decide ("toString" ∈ fields.*1) then None
      else Some "[object Object]"
  end.

(** [a || b] on numbers. *)
Definition or_number (a b : Z) : Z :=
  if decide (a = 0%Z) then b else a.

(** [s || ""] on a string. *)
Definition or_empty (s : string) : string :=
  if truthy_string s then s else "".

(** The string primitives of the engine that depend on Unicode tables. *)
Class JsString := {
  trim : string → string;
  toLowerCase : string → string;
  localeCompare : string → string → Z;
}.

(** What the scripts rely on: trimming is a projection, and the collation
    is a total preorder (a negative, zero or positive number, the sign
    flipping with the arguments). *)
Class JsStringLaws `{JsString} : Prop := {
  trim_empty : trim "" = "";
  trim_idemp : ∀ s, trim (trim s) = trim s;
  localeCompare_flip : ∀ a b, Z.sgn (localeCompare b a) = (- Z.sgn (localeCompare a b))%Z;
  localeCompare_trans : ∀ a b c,
    (localeCompare a b ≤ 0)%Z → (localeCompare b c ≤ 0)%Z → (localeCompare a c ≤ 0)%Z;
}.

(** A content item with every field of its type and finite numbers, as
    the validator writes them and as the builder seeds and generates
    them.  What the builder reads from a snapshot is an [entry] of
    [Library]. *)
Record item := {
  id : string;
  category : string;
  title : string;
  tags : list string;
  rating : Z;
  price : Z;
  buyUrl : string;
  prompt : string;
}.

(** The object [JSON.stringify] writes for an item and [JSON.parse] reads back. *)
Definition item_to_value (x : item) : value :=
  VObject [("id", VString (id x)); ("category", VString (category x));
           ("title", VString (title x)); ("tags", VArray (VString <$> tags x));
           ("rating", VNumber (rating x)); ("price", VNumber (price x));
           ("buyUrl", VString (buyUrl x)); ("prompt", VString (prompt x))].

(** [Array.prototype.sort(compare)]: the stable sort, by insertion. *)
Section Sort.
Context {A : Type} (compare : A → A → Z).

Fixpoint insert_sorted (x : A) (l : list A) : list A :=
  match l with
  | [] => [x]
  | y :: rest =>
      if decide (compare x y ≤ 0)%Z then x :: l else y :: insert_sorted x rest
  end.

Definition sort (l : list A) : list A := foldr insert_sorted [] l.
End Sort.

(** ** The catalog validator *)
Module Validator.
Section Validator.
Context `{JsString}.

Definition uniqBy {A} (arr : list A) (keyFn : A → string) : list A :=
  snd (foldl (λ (st : gset string * list A) x,
                let k := keyFn x in
                if decide (k ∈ st.1) then st
                else ({[k]} ∪ st.1, st.2 ++ [x]))
             (∅, []) arr).

(** The object built for [it] at index [i]; [None] when reading a
    property of [it] or converting one to a string throws. *)
Definition clean (i : nat) (it : value) : option item :=
  match it with
  | VUndefined | VNull => None
  | _ =>
      id_text ← String_value (or_value (get it "id") (VString ("id-" +:+ pretty i)));
      category_text ← String_value (or_value (get it "category") (VString "General"));
      title_text ← String_value (or_value (get it "title") (VString "Untitled"));
      tag_texts ← match get it "tags" with
                  | VArray l => mapM String_value l
                  | _ => Some []
                  end;
      buyUrl_text ← String_value (or_value (get it "buyUrl") (VString ""));
      prompt_text ← String_value (or_value (get it "prompt") (VString ""));
      Some {| id := id_text;
              category := category_text;
              title := title_text;
              tags := tag_texts;
              rating := match get it "rating" with VNumber n => n | _ => 5%Z end;
              price := match get it "price" with VNumber n => n | _ => 99%Z end;
              buyUrl := trim buyUrl_text;
              prompt := trim prompt_text |}
  end.

(** [data.map(clean)], index by index. *)
Fixpoint clean_from (i : nat) (data : list value) : option (list item) :=
  match data with
  | [] => Some []
  | it :: rest =>
      x ← clean i it; xs ← clean_from (S i) rest; Some (x :: xs)
  end.

Definition nonEmpty (x : item) : bool :=
  truthy_string (title x) && truthy_string (prompt x).

Definition key (x : item) : string :=
  toLowerCase (title x +:+ "::" +:+ prompt x).

Definition compare (a b : item) : Z :=
  or_number (localeCompare (category a) (category b))
            (localeCompare (title a) (title b)).

(** The array taken from the parsed file; [None] when [data.items] throws. *)
Definition items_of (data : value) : option (list value) :=
  match data with
  | VArray l => Some l
  | VUndefined | VNull => None
  | _ => match get data "items" with
         | VArray l => Some l
         | _ => Some []
         end
  end.

(** From the parsed file to the array that is written back. *)
Definition pipeline (data : list value) : option (list item) :=
  cleaned ← clean_from 0 data;
  let nonEmpty := filter (λ x, nonEmpty x = true) cleaned in
  let deduped := uniqBy nonEmpty key in
  Some (sort compare deduped).

Definition main (data : value) : option (list item) :=
  data ← items_of data; pipeline data.
End Validator.
End Validator.

(** ** The catalog builder *)
Module Builder.
Section Builder.
Context `{JsString}.
(** The flagship items made from [STARTER] and the packs generated from
    [OVERLAYS], [TEMPLATES] and their channels: two constant arrays. *)
Variables seeded generated : list item.

Definition key (it : item) : string :=
  or_empty (title it) +:+ "::" +:+ or_empty (prompt it).

(** [arr.filter(it => { ... seen ... })] with the set [seen] it closes over. *)
Fixpoint merge_filter (seen : gset string) (arr : list item) : list item :=
  match arr with
  | [] => []
  | it :: rest =>
      if decide (key it ∈ seen) then merge_filter seen rest
      else it :: merge_filter ({[key it]} ∪ seen) rest
  end.

Definition compare (a b : item) : Z :=
  or_number (or_number (rating b) 0 - or_number (rating a) 0)%Z
            (localeCompare (title a) (title b)).

(** Steps 3 and 4 of [main]: the array written to [library.json]. *)
Definition main (prev : list item) : list item :=
  let merged := merge_filter ∅ (seeded ++ generated ++ prev) in
  sort compare merged.
End Builder.
End Builder.

(** ** The builder from file to file

    [library.json] as the builder reads it, and as it writes it for its
    next run. *)
Module Library.

(** A number in memory.  [Finite n] is a finite double; [JSON.parse]
    returns an infinity where the literal is beyond the doubles
    ([1e400]); [NaN] comes from arithmetic only.  The builder copies
    numbers and looks at ratings through the sign of a difference and
    through being zero, so integers stand for the finite doubles without
    loss: each of them is an integer multiple of 2^-1074. *)
Inductive double :=
| Finite (n : Z)
| Infinity
| NegInfinity
| NaN.

(** An item of the parsed snapshot.  A number field holds a number, or
    [None] where the file says [null]. *)
Record entry := {
  id : string;
  category : string;
  title : string;
  tags : list string;
  rating : option double;
  price : option double;
  buyUrl : string;
  prompt : string;
}.

(** A seeded or generated item, as the object it is in memory. *)
Definition of_item (x : item) : entry :=
  let '(Build_item i c t g r p u b) := x in
  {| id := i; category := c; title := t; tags := g;
     rating := Some (Finite r); price := Some (Finite p);
     buyUrl := u; prompt := b |}.

(** [r || 0]: null, zero and NaN are falsy. *)
Definition or_0 (r : option double) : double :=
  match r with
  | None | Some (Finite 0) | Some NaN => Finite 0
  | Some d => d
  end.

(** [x - y].  The difference of two finite doubles is zero only where
    they are equal and has the sign of their exact difference, which is
    all the comparator and [sort] look at. *)
Definition minus (x y : double) : double :=
  match x, y with
  | NaN, _ | _, NaN => NaN
  | Finite a, Finite b => Finite (a - b)
  | Infinity, Infinity | NegInfinity, NegInfinity => NaN
  | Infinity, _ | _, NegInfinity => Infinity
  | NegInfinity, _ | _, Infinity => NegInfinity
  end.

(** What [sort] makes of the number its comparator returns: it asks
    whether the number is below or above zero, and takes NaN for zero. *)
Definition sign (d : double) : Z :=
  match d with
  | Finite n => n
  | Infinity => 1
  | NegInfinity => -1
  | NaN => 0
  end.

(** What [JSON.stringify] writes for a number field and [JSON.parse]
    reads back: a finite number as it is, [null] for every other. *)
Definition JSON_number (r : option double) : option double :=
  match r with
  | Some (Finite n) => Some (Finite n)
  | _ => None
  end.

(** [JSON.parse(JSON.stringify(it))] *)
Definition reread (it : entry) : entry :=
  {| id := id it; category := category it; title := title it; tags := tags it;
     rating := JSON_number (rating it); price := JSON_number (price it);
     buyUrl := buyUrl it; prompt := prompt it |}.

(** The array that [JSON.parse] reads from the text [JSON.stringify]
    writes for [arr].  Two arrays are written as the same text exactly
    when they are read back as the same array. *)
Definition written (arr : list entry) : list entry := reread <$> arr.

Section Library.
Context `{JsString}.
Variables seeded generated : list item.

Definition key (it : entry) : string :=
  or_empty (title it) +:+ "::" +:+ or_empty (prompt it).

Fixpoint merge_filter (seen : gset string) (arr : list entry) : list entry :=
  match arr with
  | [] => []
  | it :: rest =>
      if decide (key it ∈ seen) then merge_filter seen rest
      else it :: merge_filter ({[key it]} ∪ seen) rest
  end.

(** [(b.rating||0)-(a.rating||0) || String(a.title).localeCompare(String(b.title))] *)
Definition compare (a b : entry) : double :=
  match minus (or_0 (rating b)) (or_0 (rating a)) with
  | Finite 0 | NaN => Finite (localeCompare (title a) (title b))
  | difference => difference
  end.

(** Steps 3 and 4 of [main] on the array [prev] read from the file: the
    array handed to [JSON.stringify]. *)
Definition main (prev : list entry) : list entry :=
  let merged :=
    merge_filter ∅ ((of_item <$> seeded) ++ (of_item <$> generated) ++ prev) in
  sort (λ a b, sign (compare a b)) merged.
End Library.
End Library.

(** ** [apply] and [esc] of the builder *)

(** The text after [{{] at the head of [s]. *)
Definition opens (s : string) : option string :=
  match s with
  | String "{"%char (String "{"%char rest) => Some rest
  | _ => None
  end.

(** [s] starts with [}}]. *)
Definition closes (s : string) : bool :=
  match s with
  | String "}"%char (String "}"%char _) => true
  | _ => false
  end.

(** [s] starts with a character that [.] does not match: line feed,
    carriage return, U+2028 or U+2029 (in UTF-8, E2 80 A8 and E2 80 A9). *)
Definition line_terminator (s : string) : bool :=
  match s with
  | String c rest =>
      Ascii.eqb c "010" || Ascii.eqb c "013"
      || (Ascii.eqb c "226"
          && match rest with
             | String d (String e _) =>
                 Ascii.eqb d "128" && (Ascii.eqb e "168" || Ascii.eqb e "169")
             | _ => false
             end)
  | "" => false
  end.

(** [(.*?)\}\}] at the head of [s]: the shortest text without a line
    terminator that is followed by [}}]. *)
Fixpoint close (s : string) : option string :=
  match s with
  | "" => None
  | String c rest =>
      if closes s then Some ""
      else if line_terminator s then None
      else String c <$> close rest
  end.

(** [s.replace(/\{\{(.*?)\}\}/g, (_, k) => repl(k))], from left to
    right; [skip] counts the characters of the last match that the
    search has still to pass. *)
Fixpoint replace_placeholders (repl : string → string) (skip : nat) (s : string)
  : string :=
  match s with
  | "" => ""
  | String c rest =>
      match skip with
      | S n => replace_placeholders repl n rest
      | O =>
          match opens s ≫= close with
          | Some k => repl k +:+ replace_placeholders repl (String.length k + 3) rest
          | None => String c (replace_placeholders repl 0 rest)
          end
      end
  end.

Module Template.
Section Template.
Context `{JsString}.

(** [vars k] is the text of [vars[k]], or [None] where [vars[k]] is null
    or undefined. *)
Definition apply (tpl : string) (vars : string → option string) : string :=
  replace_placeholders
    (λ k, default ("{{" +:+ trim k +:+ "}}") (vars (trim k))) 0 tpl.
End Template.
End Template.

(** [s.replaceAll(c, by)] for a pattern of one character. *)
Fixpoint replaceAll (c : ascii) (replacement : string) (s : string) : string :=
  match s with
  | "" => ""
  | String a rest =>
      (if Ascii.eqb a c then replacement else String a "")
      +:+ replaceAll c replacement rest
  end.

Definition esc (s : string) : string :=
  replaceAll "<" "&lt;" (replaceAll "&" "&amp;" s).

(** * The rest of the license service *)

(** ** [GET /api/license/from-session], the same in both server files *)

(** An HTTP answer with a JSON body of type [B]. *)
Record reply (B : Type) := {
  reply_status : nat;
  reply_body : B;
}.
Arguments reply_status {B} r.
Arguments reply_body {B} r.

Inductive session_body :=
| SError (error : string)            (* { ok: false, error } *)
| SNotOk                             (* { ok: false } *)
| SFound (token status : string).    (* { ok: true, token, status } *)

Definition from_session (session_id : qparam) (e : env) (w : world)
  : reply session_body :=
  if negb (truthy_qparam session_id)
  then {| reply_status := 400; reply_body := SError "session_id required" |}
  else
    match select_license_maybeSingle (store_fault e 0)
            (λ l, lic_session_id l = String_qparam session_id) w with
    | PgError msg => {| reply_status := 500; reply_body := SError msg |}
    | PgData None => {| reply_status := 200; reply_body := SNotOk |}
    | PgData (Some data) =>
        {| reply_status := 200;
           reply_body := SFound (lic_token data) (lic_status data) |}
    end.

(** ** The webhook of the sibling [server.js] *)

(** [from("licenses").update(..).eq(col, v).select("*").maybeSingle()]: no
    row touched is [null], one row is that row; a statement that touches
    several is answered by an error and rolled back. *)
Definition update_license_maybeSingle (fault : option string)
    (P : license → Prop) `{∀ l, Decision (P l)}
    (f : license → license) (w : world) : pg_result (option license) * world :=
  match fault with
  | Some msg => (PgError msg, w)
  | None =>
      match f <$> filter P (licenses w) with
      | [] => (PgData None, w)
      | [r] => (PgData (Some r), set_licenses (update_rows P f (licenses w)) w)
      | _ => (PgError multiple_rows, w)
      end
  end.

Section Sibling.
Variable cfg : config.
Variable constructEvent : string → option string → option string → string + event.

Definition emailSend' (e : env) (m : email) : M unit :=
  match or_string (RESEND_API_KEY cfg) None with
  | None => mret ()
  | Some _ =>
      match email_failure e with
      | Some _ => throw "Email send failed"
      | None => λ w, (Return (), push_mail m w)
      end
  end.

Definition handle_event' (ev : event) (e : env) : M unit :=
  match ev with
  | CheckoutSessionCompleted session =>
      if negb (String.eqb (cs_mode session) "subscription") then mret ()
      else
        subscription ← (λ w, match stripe_retrieve e (cs_subscription session) with
                             | inl msg => (Throw msg, w)
                             | inr s => (Return s, w)
                             end);
        let customerId := customer_id_of (cs_customer session) in
        let email := or_string (cs_customer_details_email session)
                               (sub_customer_email subscription) in
        customer ← upsertCustomer e email customerId;
        period_end ← toISOString (sub_current_period_end subscription);
        license ← createOrUpdateLicense e (cust_id customer) (sub_id subscription)
                    (sub_status subscription) period_end (cs_id session);
        emailSend' e {| mail_to := email;
                        mail_subject := BRAND_NAME cfg +:+ " — Your All-Access license key";
                        mail_license := lic_token license |}
  | CustomerSubscription _ sub =>
      let status := sub_status sub in
      current_period_end ← toISOString (sub_current_period_end sub);
      (* a missing row is only written to the console *)
      lic ← data_or_throw (update_license_maybeSingle (store_fault e 0)
        (λ l, lic_stripe_subscription_id l = sub_id sub)
        (λ l, {| lic_id := lic_id l; lic_customer_id := lic_customer_id l;
                 lic_token := lic_token l; lic_status := status;
                 lic_current_period_end := current_period_end;
                 lic_stripe_subscription_id := lic_stripe_subscription_id l;
                 lic_tier := lic_tier l; lic_session_id := lic_session_id l |}));
      mret ()
  | InvoicePaymentFailed inv =>
      match or_string (inv_subscription inv) None with
      | Some subscription =>
          λ w, (Return (),
                snd (update_licenses (store_fault e 0)
                  (λ l, lic_stripe_subscription_id l = subscription)
                  (λ l, {| lic_id := lic_id l; lic_customer_id := lic_customer_id l;
                           lic_token := lic_token l; lic_status := "past_due";
                           lic_current_period_end := lic_current_period_end l;
                           lic_stripe_subscription_id := lic_stripe_subscription_id l;
                           lic_tier := lic_tier l; lic_session_id := lic_session_id l |})
                  w))
      | None => mret ()
      end
  | OtherEvent _ => mret ()
  end.

Definition webhook' (raw_body : string) (sig : option string) (e : env) (w : world)
  : response * world :=
  let checked :=
    match or_string sig None, or_string (STRIPE_WEBHOOK_SECRET cfg) None with
    | Some _, Some _ => constructEvent raw_body sig (STRIPE_WEBHOOK_SECRET cfg)
    | _, _ => inl "Missing webhook secret"
    end in
  match checked with
  | inl message => (status_send 400 ("Webhook Error: " +:+ message), w)
  | inr ev =>
      match handle_event' ev e w with
      | (Return _, w') => (json BReceived, w')
      | (Throw _, w') => (status_send 500 "Webhook handler failed", w')
      end
  end.

End Sibling.

(** * The client-side gate

    The page as the script sees it: the children of the grid with the
    three style properties the script writes, the text of the status
    pill, the one key of local storage, and the message and visibility
    of the unlock dialog.  [fetch] is given the token that the URL of
    the verify route carries; [None] is a rejected request. *)

Record card := {
  display : string;           (* el.style.display *)
  body_filter : string;       (* body.style.filter *)
  body_userSelect : string;   (* body.style.userSelect *)
}.

Record page := {
  grid : option (list card);  (* #grid or .grid, when the page has one *)
  pill : option string;       (* #statusPill or #lockPill, its text *)
  stored : option string;     (* localStorage["pf_license"] *)
  keyMsg : string;
  modal_display : string;
}.

(** [!!j.ok] for the body of an answer; a body that is no JSON makes
    [r.json()] throw. *)
Definition body_ok (b : body) : bool :=
  match b with
  | BVerify ok _ _ => ok
  | BError _ | BNotOk | BReceived | BText _ => false
  end.

Module Gate.
Section Gate.
Context `{JsString}.
Variable fetch : string → option response.

Definition PREVIEW_LIMIT : nat := 3.

Definition verify (token : option string) : bool :=
  match or_string token None with
  | None => false
  | Some t =>
      match fetch t with
      | Some r => body_ok (res_body r)
      | None => false
      end
  end.

Definition lockUI (p : page) : page :=
  match grid p with
  | Some items =>
      {| grid := Some (imap (λ i el,
                   if decide (PREVIEW_LIMIT ≤ i)%nat
                   then {| display := "none"; body_filter := body_filter el;
                           body_userSelect := body_userSelect el |}
                   else {| display := display el; body_filter := "blur(5px)";
                           body_userSelect := "none" |}) items);
         pill := (λ _, "Locked") <$> pill p;
         stored := stored p; keyMsg := keyMsg p;
         modal_display := modal_display p |}
  | None => p
  end.

Definition unlockUI (p : page) : page :=
  match grid p with
  | Some items =>
      {| grid := Some ((λ _, {| display := ""; body_filter := "";
                                body_userSelect := "" |}) <$> items);
         pill := (λ _, "Unlocked") <$> pill p;
         stored := stored p; keyMsg := keyMsg p;
         modal_display := modal_display p |}
  | None => p
  end.

(** [applyKey], with the text of the key field. *)
Definition applyKey (input : string) (p : page) : page :=
  let key := trim input in
  if verify (Some key) then
    unlockUI {| grid := grid p; pill := pill p; stored := Some key;
                keyMsg := "Unlocked!"; modal_display := "none" |}
  else
    {| grid := grid p; pill := pill p; stored := stored p;
       keyMsg := "Invalid or inactive key."; modal_display := modal_display p |}.

(** [boot], after the buttons are in place. *)
Definition boot (p : page) : page :=
  let saved := stored p in
  if verify saved then unlockUI p else lockUI p.

End Gate.
End Gate.

(** The verify route behind [fetch]: the token of the URL reaches the
    route as the text of its query parameter; [up] says whether the
    request gets through. *)
Definition server_fetch (e : env) (w : world) (up : bool) (token : string)
  : option response :=
  if up then Some (verify (QString token) e w) else None.

(** * Vocabulary of the properties *)

(** The fields of a License that no billing event may touch. *)
Definition lic_frame (l : license) : nat * nat * string * string * string :=
  (lic_id l, lic_customer_id l, lic_token l, lic_stripe_subscription_id l, lic_tier l).

(** At most one License row per external subscription reference. *)
Definition sub_unique (w : world) : Prop :=
  NoDup (lic_stripe_subscription_id <$> licenses w).


(** One request either rewrites rows in place, keeping every frame, or
    appends the row of a subscription that had none, with the token drawn
    for this request. *)
Definition licenses_step (e : env) (ev : event) (ls ls' : list license) : Prop :=
  lic_frame <$> ls' = lic_frame <$> ls
  ∨ ∃ session sub r,
      ev = CheckoutSessionCompleted session
      ∧ stripe_retrieve e (cs_subscription session) = inr sub
      ∧ filter (λ l, lic_stripe_subscription_id l = sub_id sub) ls = []
      ∧ ls' = ls ++ [r]
      ∧ lic_token r = fresh_token e
      ∧ lic_stripe_subscription_id r = sub_id sub.

(** The row a replayed checkout leaves in place of [l]: status, period end
    and session are those of the event, the rest is kept. *)
Definition renew (status : string) (period_end : Z) (session_id : string)
    (l : license) : license :=
  {| lic_id := lic_id l; lic_customer_id := lic_customer_id l;
     lic_token := lic_token l; lic_status := status;
     lic_current_period_end := period_end;
     lic_stripe_subscription_id := lic_stripe_subscription_id l;
     lic_tier := lic_tier l; lic_session_id := session_id |}.

(** The row a subscription event leaves in place of [l]. *)
Definition restate (status : string) (period_end : Z) (l : license) : license :=
  {| lic_id := lic_id l; lic_customer_id := lic_customer_id l;
     lic_token := lic_token l; lic_status := status;
     lic_current_period_end := period_end;
     lic_stripe_subscription_id := lic_stripe_subscription_id l;
     lic_tier := lic_tier l; lic_session_id := lic_session_id l |}.

(** The row a failed payment leaves in place of [l]. *)
Definition mark_past_due (l : license) : license :=
  {| lic_id := lic_id l; lic_customer_id := lic_customer_id l;
     lic_token := lic_token l; lic_status := "past_due";
     lic_current_period_end := lic_current_period_end l;
     lic_stripe_subscription_id := lic_stripe_subscription_id l;
     lic_tier := lic_tier l; lic_session_id := lic_session_id l |}.

(** The mail of a completed checkout for the License row [r]. *)
Definition checkout_mail (cfg : config) (session : checkout_session)
    (sub : subscription) (r : license) : email :=
  {| mail_to := or_string (cs_customer_details_email session) (sub_customer_email sub);
     mail_subject := BRAND_NAME cfg +:+ " — Your All-Access license key";
     mail_license := lic_token r |}.

(** What [emailSend] appends to the outbox when it returns. *)
Definition sent (cfg : config) (m : email) : list email :=
  match or_string (RESEND_API_KEY cfg) None with
  | Some _ => [m]
  | None => []
  end.

(** Tokens in the store are all different and none is empty. *)
Definition tokens_distinct (w : world) : Prop :=
  NoDup (lic_token <$> licenses w) ∧ ∀ l, l ∈ licenses w → lic_token l ≠ "".

(** The same request with a mail provider that answers ok. *)
Definition mail_ok (e : env) : env :=
  {| store_fault := store_fault e; stripe_retrieve := stripe_retrieve e;
     fresh_token := fresh_token e; email_failure := None |}.

(** At most one Customer row per email address. *)
Definition email_unique (w : world) : Prop :=
  NoDup (omap cust_email (customers w)).

(** [{{] occurs in [s]; [}}] occurs in [s]. *)
Fixpoint has_open (s : string) : bool :=
  match s with
  | "" => false
  | String _ rest => bool_decide (is_Some (opens s)) || has_open rest
  end.

Fixpoint has_close (s : string) : bool :=
  match s with
  | "" => false
  | String _ rest => closes s || has_close rest
  end.

(** The character [c] does not occur in [s]. *)
Fixpoint free_of (c : ascii) (s : string) : bool :=
  match s with
  | "" => true
  | String a rest => negb (Ascii.eqb a c) && free_of c rest
  end.

(** No line terminator occurs in [s]. *)
Fixpoint one_line (s : string) : bool :=
  match s with
  | "" => true
  | String _ rest => negb (line_terminator s) && one_line rest
  end.

(** [String(v)] throws: [v] is an object with a property [toString] of
    its own, or an array that holds such an object at any depth. *)
Fixpoint unprintable (v : value) : bool :=
  match v with
  | VObject fields => bool_decide ("toString" ∈ fields.*1)
  | VArray elements =>
      (fix any (l : list value) : bool :=
         match l with
         | [] => false
         | x :: rest => unprintable x || any rest
         end) elements
  | _ => false
  end.

(** The validator cannot clean the record [it]: it is null, or one of
    the fields it converts to a string cannot be converted. *)
Definition uncleanable (it : value) : Prop :=
  it = VNull ∨ it = VUndefined
  ∨ (∃ k, k ∈ ["id"; "category"; "title"; "buyUrl"; "prompt"]
          ∧ unprintable (get it k) = true)
  ∨ (∃ l, get it "tags" = VArray l ∧ unprintable (VArray l) = true).

(** No infinite rating: the number is written as it is, or is no number
    to begin with. *)
Definition rating_written (it : Library.entry) : Prop :=
  Library.rating it ≠ Some Library.Infinity
  ∧ Library.rating it ≠ Some Library.NegInfinity.

(** The comparator handed to [sort] by the builder, as [sort] reads it. *)
Definition library_order `{JsString} (a b : Library.entry) : Z :=
  Library.sign (Library.compare a b).

(** [a] may stand before [b] in an array sorted with [compare]. *)
Definition before {A} (compare : A → A → Z) (a b : A) : Prop :=
  (compare a b ≤ 0)%Z.

(** Keep the first item of every key that is not in [seen]: the loop of
    [uniqBy] and the filter of the builder, as a recursion. *)
Fixpoint dedupe {A} (key : A → string) (seen : gset string) (l : list A) : list A :=
  match l with
  | [] => []
  | x :: rest =>
      if decide (key x ∈ seen) then dedupe key seen rest
      else x :: dedupe key ({[key x]} ∪ seen) rest
  end.

(** The keys of an array, as a set. *)
Definition keys {A} (key : A → string) (l : list A) : gset string :=
  list_to_set (key <$> l).

(** * The string primitives on ASCII text

    An instance of [JsString] for running the scripts on examples: [trim]
    strips tab, line feed, vertical tab, form feed, carriage return and
    space, [toLowerCase] maps A-Z, and [localeCompare] orders by code unit
    (a collation among others; the examples compare no two strings that a
    locale would order differently). *)

Definition is_space (c : ascii) : bool :=
  let n := nat_of_ascii c in
  ((9 <=? n)%nat && (n <=? 13)%nat) || (n =? 32)%nat.

Fixpoint trim_start (s : string) : string :=
  match s with
  | EmptyString => EmptyString
  | String c rest => if is_space c then trim_start rest else s
  end.

Fixpoint trim_end (s : string) : string :=
  match s with
  | EmptyString => EmptyString
  | String c rest =>
      match trim_end rest with
      | EmptyString => if is_space c then EmptyString else String c EmptyString
      | kept => String c kept
      end
  end.

Definition ascii_trim (s : string) : string := trim_end (trim_start s).

Definition lower_ascii (c : ascii) : ascii :=
  let n := nat_of_ascii c in
  if ((65 <=? n)%nat && (n <=? 90)%nat) then ascii_of_nat (n + 32) else c.

Fixpoint ascii_toLowerCase (s : string) : string :=
  match s with
  | EmptyString => EmptyString
  | String c rest => String (lower_ascii c) (ascii_toLowerCase rest)
  end.

Fixpoint code_unit_compare (a b : string) : Z :=
  match a, b with
  | EmptyString, EmptyString => 0
  | EmptyString, String _ _ => -1
  | String _ _, EmptyString => 1
  | String x a', String y b' =>
      if (nat_of_ascii x <? nat_of_ascii y)%nat then -1
      else if (nat_of_ascii y <? nat_of_ascii x)%nat then 1
      else code_unit_compare a' b'
  end%Z.

#[global] Instance ascii_strings : JsString :=
  {| trim := ascii_trim;
     toLowerCase := ascii_toLowerCase;
     localeCompare := code_unit_compare |}.

(** * [licenseToken]

    [uuidv4()] and [crypto.randomBytes(4)] are what the token is drawn
    from; the function takes them as arguments. *)

(** [String.prototype.toUpperCase], an engine primitive. *)
Class JsUpperCase := {
  toUpperCase : string → string;
}.

Definition upper_ascii (c : ascii) : ascii :=
  let n := nat_of_ascii c in
  if ((97 <=? n)%nat && (n <=? 122)%nat) then ascii_of_nat (n - 32) else c.

Fixpoint ascii_toUpperCase (s : string) : string :=
  match s with
  | EmptyString => EmptyString
  | String c rest => String (upper_ascii c) (ascii_toUpperCase rest)
  end.

Fixpoint is_ascii_text (s : string) : bool :=
  match s with
  | EmptyString => true
  | String c rest => (nat_of_ascii c <? 128)%nat && is_ascii_text rest
  end.

(** On ASCII text the engine maps a-z to A-Z and nothing else. *)
Class JsUpperCaseLaws `{JsUpperCase} : Prop := {
  toUpperCase_ascii : ∀ s, is_ascii_text s = true → toUpperCase s = ascii_toUpperCase s;
}.

#[global] Instance ascii_upper_case : JsUpperCase :=
  {| toUpperCase := ascii_toUpperCase |}.

(** [s.replace(/-/g, "")] *)
Fixpoint remove_dashes (s : string) : string :=
  match s with
  | EmptyString => EmptyString
  | String c rest =>
      if Ascii.eqb c "-" then remove_dashes rest else String c (remove_dashes rest)
  end.

(** [s.slice(0, n)] *)
Fixpoint slice_to (n : nat) (s : string) : string :=
  match n, s with
  | S n', String c rest => String c (slice_to n' rest)
  | _, _ => EmptyString
  end.

Definition hex_digit (n : nat) : ascii :=
  match n with
  | 0 => "0" | 1 => "1" | 2 => "2" | 3 => "3" | 4 => "4" | 5 => "5"
  | 6 => "6" | 7 => "7" | 8 => "8" | 9 => "9" | 10 => "a" | 11 => "b"
  | 12 => "c" | 13 => "d" | 14 => "e" | _ => "f"
  end%char.

(** [buffer.toString("hex")]: two digits for every byte. *)
Fixpoint toString_hex (bytes : list ascii) : string :=
  match bytes with
  | [] => EmptyString
  | b :: rest =>
      String (hex_digit (nat_of_ascii b / 16))
        (String (hex_digit (nat_of_ascii b mod 16)) (toString_hex rest))
  end.

Definition licenseToken `{JsUpperCase} (uuid : string) (random : list ascii) : string :=
  let a := toUpperCase (slice_to 12 (remove_dashes uuid)) in
  let b := toUpperCase (toString_hex random) in
  a +:+ "-" +:+ b.

Definition is_lower_hex (c : ascii) : bool :=
  let n := nat_of_ascii c in
  ((48 <=? n)%nat && (n <=? 57)%nat) || ((97 <=? n)%nat && (n <=? 102)%nat).

Definition is_upper_hex (c : ascii) : bool :=
  let n := nat_of_ascii c in
  ((48 <=? n)%nat && (n <=? 57)%nat) || ((65 <=? n)%nat && (n <=? 70)%nat).

(** The text of a UUID: 36 characters, lower-case hexadecimal digits in
    groups of 8, 4, 4, 4 and 12 with dashes between. *)
Fixpoint uuid_from (i : nat) (s : string) : bool :=
  match s with
  | EmptyString => (i =? 36)%nat
  | String c rest =>
      (if bool_decide (i ∈ [8; 13; 18; 23]) then Ascii.eqb c "-" else is_lower_hex c)
      && uuid_from (S i) rest
  end.

Definition is_uuid (s : string) : bool := uuid_from 0 s.

(** The shape printed in the unlock dialog, [XXXXXXXXXXXX-XXXXXXXX]:
    twelve upper-case hexadecimal digits, a dash, eight more. *)
Fixpoint token_from (i : nat) (s : string) : bool :=
  match s with
  | EmptyString => (i =? 21)%nat
  | String c rest =>
      (if (i =? 12)%nat then Ascii.eqb c "-" else is_upper_hex c)
      && token_from (S i) rest
  end.

Definition is_license_token (s : string) : bool := token_from 0 s.

(** * Test data *)

(** ** One subscriber, one checkout *)
Definition demo_config : config :=
  {| STRIPE_WEBHOOK_SECRET := Some "whsec_demo";
     RESEND_API_KEY := Some "re_demo";
     BRAND_NAME := "PromptFoundry" |}.

Definition demo_subscription : subscription :=
  {| sub_id := "sub_1"; sub_status := "active";
     sub_current_period_end := 1700000000;
     sub_customer_email := None |}.

Definition demo_session : checkout_session :=
  {| cs_id := "cs_1"; cs_mode := "subscription";
     cs_subscription := Some "sub_1";
     cs_customer := CustomerId "cus_1";
     cs_customer_details_email := Some "ada@example.com" |}.

(** A signature checker for the tests: the header [good] opens the
    checkout event, anything else is refused. *)
Definition demo_constructEvent (raw_body : string) (sig secret : option string)
  : string + event :=
  if decide (sig = Some "good") then inr (CheckoutSessionCompleted demo_session)
  else inl "No signatures found matching the expected signature for payload".

Definition demo_env : env :=
  {| store_fault := λ _, None;
     stripe_retrieve := λ _, inr demo_subscription;
     fresh_token := "0123456789AB-DEADBEEF";
     email_failure := None |}.

Definition empty_world : world :=
  {| customers := []; licenses := []; next_id := 1; outbox := [] |}.

Definition demo_license : license :=
  {| lic_id := 2; lic_customer_id := 1; lic_token := "0123456789AB-DEADBEEF";
     lic_status := "active"; lic_current_period_end := 1700000000000;
     lic_stripe_subscription_id := "sub_1"; lic_tier := "all-access";
     lic_session_id := "cs_1" |}.

Definition demo_world : world :=
  {| customers := [ {| cust_id := 1; cust_email := Some "ada@example.com";
                       cust_stripe_customer_id := Some "cus_1" |} ];
     licenses := [demo_license]; next_id := 3; outbox := [] |}.

(** A checker that opens a subscription-updated event with status
    [canceled] for the subscriber above. *)
Definition demo_cancel_constructEvent (raw_body : string) (sig secret : option string)
  : string + event :=
  inr (CustomerSubscription Updated
         {| sub_id := "sub_1"; sub_status := "canceled";
            sub_current_period_end := 1700000000;
            sub_customer_email := None |}).

(** ** Catalog items *)

Definition STRIPE : string := "https://buy.stripe.com/fZudR89pEfa68sDgSs5Ne00".

(** Two of the flagship items, as step 1 of the builder seeds them. *)
Definition starter_nudge : item :=
  {| id := "069c1405d0"; category := "ClientReach";
     title := "ClientReach — Overdue Invoice Nudge";
     tags := ["ClientReach"; "Cold Email"]; rating := 5; price := 49;
     buyUrl := STRIPE;
     prompt := "Follow-up for Invoice {{invoice_number}} ({{amount}}) sent {{sent_date}}. Include {{pay_url}} and two call slots. Tone: confident, respectful, direct. Keep to {{word_limit}} words." |}.

Definition starter_sop : item :=
  {| id := "35cd7cbcda"; category := "Ops"; title := "Ops — SOP Writer";
     tags := ["Operations"]; rating := 5; price := 59; buyUrl := STRIPE;
     prompt := "Turn a process description into an SOP with Roles, Tools, Steps, QA checks, and Risks. Output Markdown. Ask for missing inputs before drafting." |}.

(** An item of an older snapshot, and the same item in capitals. *)
Definition old_item : item :=
  {| id := "id-0"; category := "General"; title := "hello";
     tags := []; rating := 4; price := 99; buyUrl := ""; prompt := "write a poem" |}.

Definition old_item_capitals : item :=
  {| id := "id-1"; category := "General"; title := "HELLO";
     tags := []; rating := 4; price := 99; buyUrl := ""; prompt := "WRITE A POEM" |}.

(** An item of an older snapshot whose rating stands as [1e400] in the
    file, which [JSON.parse] reads as [Infinity]; and one whose rating
    is [null] and whose price stands as [1e400]. *)
Definition overrated_item : Library.entry :=
  {| Library.id := "id-9"; Library.category := "General";
     Library.title := "hello"; Library.tags := [];
     Library.rating := Some Library.Infinity;
     Library.price := Some (Library.Finite 99);
     Library.buyUrl := ""; Library.prompt := "write a poem" |}.

Definition unrated_item : Library.entry :=
  {| Library.id := "id-8"; Library.category := "General";
     Library.title := "goodbye"; Library.tags := [];
     Library.rating := None; Library.price := Some Library.Infinity;
     Library.buyUrl := ""; Library.prompt := "write a letter" |}.

(** * Properties of the license service *)

Example checkout_creates_demo_license :
  licenses (webhook demo_config demo_constructEvent "{}" (Some "good")
              demo_env empty_world).2 = [demo_license].
Proof. vm_compute. reflexivity. Qed.

Example verify_demo_token :
  verify (QString "0123456789AB-DEADBEEF") demo_env demo_world
  = json (BVerify true "all-access" 1700000000000).
Proof. vm_compute. reflexivity. Qed.

Example verify_unknown_token :
  verify (QString "ABC123-DEADBEEF") demo_env demo_world = json BNotOk.
Proof. vm_compute. reflexivity. Qed.

(** ** Entitlement *)

Lemma entitled_spec (status : string) :
  entitled status = true ↔
  status = "active" ∨ status = "trialing" ∨ status = "past_due".
Proof.
  unfold entitled. rewrite bool_decide_eq_true.
  rewrite !elem_of_cons, elem_of_nil. tauto.
Qed.

Lemma entitled_eqb (status : string) :
  entitled status =
  String.eqb status "active" || String.eqb status "trialing"
  || String.eqb status "past_due".
Proof.
  apply eq_true_iff_eq. rewrite entitled_spec, !orb_true_iff, !String.eqb_eq.
  tauto.
Qed.

(** C1.  Whenever the lookup finds the License record [r] for the queried
    token, both verify routes answer 200 with [ok] set exactly when the
    status of [r] is active, trialing or past_due, together with the tier
    and the period end of [r]. *)
Theorem verify_entitled_iff_status (token : qparam) (e : env) (w : world) (r : license) :
  truthy_qparam token = true →
  store_fault e 0 = None →
  filter (λ l, lic_token l = String_qparam token) (licenses w) = [r] →
  verify token e w
    = json (BVerify (entitled (lic_status r)) (lic_tier r) (lic_current_period_end r))
  ∧ verify' token e w = verify token e w
  ∧ (entitled (lic_status r) = true ↔
     lic_status r = "active" ∨ lic_status r = "trialing" ∨ lic_status r = "past_due").
Proof.
  intros Htok Hfault Hrow. unfold verify, verify', select_license_maybeSingle.
  rewrite Htok, Hfault, Hrow. simpl.
  split; [reflexivity|]. split; [|apply entitled_spec].
  by rewrite entitled_eqb.
Qed.

Lemma verify_entitled_iff_status_witness :
  verify (QString "0123456789AB-DEADBEEF") demo_env demo_world
    = json (BVerify (entitled "active") "all-access" 1700000000000)
  ∧ verify' (QString "0123456789AB-DEADBEEF") demo_env demo_world
    = verify (QString "0123456789AB-DEADBEEF") demo_env demo_world
  ∧ (entitled "active" = true ↔
     "active" = "active" ∨ "active" = "trialing" ∨ "active" = "past_due").
Proof.
  exact (verify_entitled_iff_status (QString "0123456789AB-DEADBEEF")
           demo_env demo_world demo_license eq_refl eq_refl eq_refl).
Defined.

(** ** Unknown tokens *)

Lemma filter_none_iff {A} (P : A → Prop) `{∀ x, Decision (P x)} (l : list A) :
  filter P l = [] ↔ ∀ x, x ∈ l → ¬ P x.
Proof.
  induction l as [|a l IH]; simpl.
  - split; [intros _ x Hx; by apply elem_of_nil in Hx | done].
  - rewrite filter_cons. destruct (decide (P a)) as [Ha|Ha].
    + split; [done|]. intros Hall. exfalso. apply (Hall a); [left | done].
    + rewrite IH. split.
      * intros Hall x Hx. apply elem_of_cons in Hx as [->|Hx]; auto.
      * intros Hall x Hx. apply Hall. by right.
Qed.

(** The empty token is a token string absent from the (empty) store, and
    the route answers it with the 400 error. *)
Lemma verify_empty_token_is_an_error :
  licenses empty_world = []
  ∧ verify (QString "") demo_env empty_world
    = status_json 400 (BError "token required").
Proof. split; reflexivity. Qed.

(** C2, amended.  A token that is not empty and not in the store is
    answered [{ok: false}] with status 200 whenever the store answers;
    the route answers 400 exactly when the token parameter is missing or
    empty, 500 exactly when the lookup itself fails, and 200 otherwise. *)
Theorem verify_unknown_token_not_entitled (token : qparam) (e : env) (w : world) :
  (truthy_qparam token = true →
   store_fault e 0 = None →
   (∀ l, l ∈ licenses w → lic_token l ≠ String_qparam token) →
   verify token e w = json BNotOk)
  ∧ (res_status (verify token e w) = 400 ↔ truthy_qparam token = false)
  ∧ (res_status (verify token e w) = 500 ↔
     truthy_qparam token = true ∧
     ∃ msg, select_license_maybeSingle (store_fault e 0)
              (λ l, lic_token l = String_qparam token) w = PgError msg)
  ∧ (res_status (verify token e w) = 400
     ∨ res_status (verify token e w) = 500
     ∨ res_status (verify token e w) = 200).
Proof.
  unfold verify. repeat split.
  - intros Htok Hfault Hnone. rewrite Htok. simpl.
    unfold select_license_maybeSingle. rewrite Hfault.
    by rewrite (proj2 (filter_none_iff _ _) Hnone).
  - destruct (truthy_qparam token); simpl; [|done].
    destruct (select_license_maybeSingle _ _ _) as [?|[?|]]; simpl; discriminate.
  - intros ->. reflexivity.
  - destruct (truthy_qparam token); simpl; [|discriminate]. done.
  - destruct (truthy_qparam token); simpl; [|discriminate].
    destruct (select_license_maybeSingle _ _ _) as [msg|[?|]]; simpl;
      try discriminate. eauto.
  - intros [-> [msg ->]]. reflexivity.
  - destruct (truthy_qparam token); simpl; [|by left].
    destruct (select_license_maybeSingle _ _ _) as [?|[?|]]; simpl; auto.
Qed.

Lemma verify_unknown_token_not_entitled_witness :
  verify (QString "ABC123-DEADBEEF") demo_env demo_world = json BNotOk.
Proof.
  refine (proj1 (verify_unknown_token_not_entitled (QString "ABC123-DEADBEEF")
                   demo_env demo_world) eq_refl eq_refl _).
  intros l Hl. apply list_elem_of_singleton in Hl as ->. discriminate.
Defined.

(** C9.  The two verify routes answer every query alike in every store. *)
Theorem verify_routes_agree (token : qparam) (e : env) (w : world) :
  verify' token e w = verify token e w.
Proof.
  unfold verify, verify'. destruct (negb (truthy_qparam token)); [reflexivity|].
  destruct (select_license_maybeSingle _ _ _) as [?|[data|]]; try reflexivity.
  by rewrite entitled_eqb.
Qed.

(** ** Rejected signatures *)

(** C8.  When the signature check throws, the webhook route answers 400
    with the message of the error, and the store and the outbox are as
    they were. *)
Theorem webhook_bad_signature_no_effect
    (cfg : config) (constructEvent : string → option string → option string → string + event)
    (raw_body : string) (sig : option string) (e : env) (w : world) (message : string) :
  constructEvent raw_body sig (STRIPE_WEBHOOK_SECRET cfg) = inl message →
  webhook cfg constructEvent raw_body sig e w
  = (status_send 400 ("Webhook Error: " +:+ message), w).
Proof. intros Hsig. unfold webhook. by rewrite Hsig. Qed.

Lemma webhook_bad_signature_no_effect_witness :
  webhook demo_config demo_constructEvent "{}" (Some "forged") demo_env demo_world
  = (status_send 400
       ("Webhook Error: " +:+
        "No signatures found matching the expected signature for payload"),
     demo_world).
Proof.
  exact (webhook_bad_signature_no_effect demo_config demo_constructEvent
           "{}" (Some "forged") demo_env demo_world _ eq_refl).
Defined.

(** ** What a webhook can do to the licenses table *)

Lemma update_rows_frame (P : license → Prop) `{∀ l, Decision (P l)}
    (f : license → license) (ls : list license) :
  (∀ l, lic_frame (f l) = lic_frame l) →
  lic_frame <$> update_rows P f ls = lic_frame <$> ls.
Proof.
  intros Hf. unfold update_rows. rewrite <- list_fmap_compose.
  apply list_fmap_ext. intros i l _. simpl. by destruct (decide (P l)).
Qed.

Lemma upsert_customer_single_licenses fault email cid w :
  licenses (upsert_customer_single fault email cid w).2 = licenses w
  ∧ outbox (upsert_customer_single fault email cid w).2 = outbox w.
Proof.
  unfold upsert_customer_single. destruct fault; [done|].
  destruct (_ <$> filter _ (customers w)) as [|c [|c' rest]]; done.
Qed.

Lemma upsertCustomer_licenses e email cid w :
  licenses (upsertCustomer e email cid w).2 = licenses w
  ∧ outbox (upsertCustomer e email cid w).2 = outbox w.
Proof.
  unfold upsertCustomer, data_or_throw.
  pose proof (upsert_customer_single_licenses (store_fault e 0) email cid w) as Hw.
  destruct (upsert_customer_single _ _ _ _) as [[msg|c] w']; exact Hw.
Qed.

Lemma toISOString_world seconds w : (toISOString seconds w).2 = w.
Proof. unfold toISOString. by destruct (decide _). Qed.

Lemma emailSend_licenses cfg e m w :
  licenses (emailSend cfg e m w).2 = licenses w.
Proof.
  unfold emailSend. destruct (or_string _ _); [|done].
  by destruct (email_failure e).
Qed.

Lemma filter_singleton_elem {A} (P : A → Prop) `{∀ x, Decision (P x)} (l : list A) x :
  filter P l = [x] → x ∈ l ∧ P x.
Proof.
  intros Hf. assert (x ∈ filter P l) as Hx by (rewrite Hf; by left).
  apply list_elem_of_filter in Hx. tauto.
Qed.

(** [createOrUpdateLicense]: either every frame stays (and a row it
    returns then belongs to a subscription that was already there), or it
    returns the one row it appended for a subscription that had none. *)
Lemma createOrUpdateLicense_spec e cid s st pe sess w :
  let o := (createOrUpdateLicense e cid s st pe sess w).1 in
  let w' := (createOrUpdateLicense e cid s st pe sess w).2 in
  customers w' = customers w ∧ outbox w' = outbox w ∧
  ((lic_frame <$> licenses w' = lic_frame <$> licenses w
    ∧ ∀ r, o = Return r →
        s ∈ lic_stripe_subscription_id <$> licenses w
        ∧ ∃ old, old ∈ licenses w ∧ lic_frame r = lic_frame old
                 ∧ lic_stripe_subscription_id old = s)
   ∨ ∃ r, o = Return r
        ∧ filter (λ l, lic_stripe_subscription_id l = s) (licenses w) = []
        ∧ licenses w' = licenses w ++ [r]
        ∧ lic_token r = fresh_token e
        ∧ lic_stripe_subscription_id r = s).
Proof.
  unfold createOrUpdateLicense, mbind, M_bind, data_or_throw, query,
    select_license_maybeSingle.
  destruct (store_fault e 1) as [msg|]; simpl.
  { repeat split; try done. left. split; [done|]. intros r Hr; discriminate. }
  destruct (filter _ (licenses w)) as [|ex [|ex' rest]] eqn:Hfind; simpl.
  - unfold insert_license_single.
    destruct (store_fault e 2) as [msg|]; simpl.
    { repeat split; try done. left. split; [done|]. intros r Hr; discriminate. }
    repeat split; try done. right. eexists. repeat split; try done.
  - unfold update_license_single.
    destruct (store_fault e 2) as [msg|]; simpl.
    { repeat split; try done. left. split; [done|]. intros r Hr; discriminate. }
    apply filter_singleton_elem in Hfind as [Hex Hsub].
    destruct (_ <$> filter _ (licenses w)) as [|r [|r' rest]] eqn:Hupd; simpl.
    + repeat split; try done. left. split; [done|]. intros r Hr; discriminate.
    + repeat split; try done. left. split.
      * by apply update_rows_frame.
      * intros r0 [= <-]. split.
        { apply list_elem_of_fmap. by exists ex. }
        apply fmap_cons_inv in Hupd as (old & olds & -> & Hnil & Hold).
        symmetry in Hnil. apply fmap_nil_inv in Hnil as ->.
        assert (old ∈ filter (λ l, lic_id l = lic_id ex) (licenses w)) as Hin
          by (rewrite Hold; by left).
        assert (ex ∈ filter (λ l, lic_id l = lic_id ex) (licenses w)) as Hin'
          by (by apply list_elem_of_filter).
        apply list_elem_of_filter in Hin as [_ Hin].
        exists old. repeat split; try done.
        rewrite Hold in Hin'. by apply list_elem_of_singleton in Hin' as ->.
    + repeat split; try done. left. split; [done|]. intros r0 Hr; discriminate.
  - repeat split; try done. left. split; [done|]. intros r Hr; discriminate.
Qed.

(** The row [createOrUpdateLicense] returns is in the table afterwards and
    carries the status, period end and session it was called with. *)
Lemma createOrUpdateLicense_returned e cid s st pe sess w r :
  (createOrUpdateLicense e cid s st pe sess w).1 = Return r →
  r ∈ licenses (createOrUpdateLicense e cid s st pe sess w).2
  ∧ lic_stripe_subscription_id r = s
  ∧ lic_status r = st
  ∧ lic_current_period_end r = pe
  ∧ lic_session_id r = sess.
Proof.
  unfold createOrUpdateLicense, mbind, M_bind, data_or_throw, query,
    select_license_maybeSingle.
  destruct (store_fault e 1) as [msg|]; simpl; [done|].
  destruct (filter _ (licenses w)) as [|ex [|ex' rest]] eqn:Hfind; simpl; [| |done].
  - unfold insert_license_single.
    destruct (store_fault e 2) as [msg|]; simpl; [done|].
    intros [= <-]. split; [|done]. apply elem_of_app. right. by left.
  - unfold update_license_single.
    destruct (store_fault e 2) as [msg|]; simpl; [done|].
    apply filter_singleton_elem in Hfind as [Hex Hsub].
    destruct (_ <$> filter _ (licenses w)) as [|r' [|r'' rest]] eqn:Hupd;
      simpl; [done| |done].
    intros [= <-].
    apply fmap_cons_inv in Hupd as (old & olds & -> & Hnil & Hold).
    symmetry in Hnil. apply fmap_nil_inv in Hnil as ->.
    assert (ex ∈ filter (λ l, lic_id l = lic_id ex) (licenses w)) as Hin
      by (by apply list_elem_of_filter).
    rewrite Hold in Hin. apply list_elem_of_singleton in Hin as ->.
    split; [|done]. unfold update_rows.
    apply list_elem_of_fmap. exists old. split; [|done].
    by rewrite decide_True.
Qed.


Lemma frame_length (ls ls' : list license) :
  lic_frame <$> ls' = lic_frame <$> ls → length ls' = length ls.
Proof. intros Hf. apply (f_equal length) in Hf. by rewrite !length_fmap in Hf. Qed.

Lemma frame_lookup (ls ls' : list license) (i : nat) (l : license) :
  lic_frame <$> ls' = lic_frame <$> ls →
  ls !! i = Some l →
  ∃ l', ls' !! i = Some l' ∧ lic_frame l' = lic_frame l.
Proof.
  intros Hf Hl.
  assert ((lic_frame <$> ls') !! i = Some (lic_frame l)) as Hi
    by (by rewrite Hf, list_lookup_fmap, Hl).
  rewrite list_lookup_fmap in Hi.
  destruct (ls' !! i) as [l'|]; [|discriminate].
  exists l'. split; [done|]. simpl in Hi. congruence.
Qed.

(** The checkout branch of the webhook, once the session is a subscription
    and Stripe has answered: frames stay, or exactly one row is appended
    for a subscription without a row; on success the subscription has a
    row afterwards. *)
Lemma checkout_completed_spec cfg session e w sub :
  cs_mode session = "subscription" →
  stripe_retrieve e (cs_subscription session) = inr sub →
  let o := (handle_event cfg (CheckoutSessionCompleted session) e w).1 in
  let w' := (handle_event cfg (CheckoutSessionCompleted session) e w).2 in
  (lic_frame <$> licenses w' = lic_frame <$> licenses w
   ∧ (o = Return () → sub_id sub ∈ lic_stripe_subscription_id <$> licenses w))
  ∨ ∃ r, filter (λ l, lic_stripe_subscription_id l = sub_id sub) (licenses w) = []
       ∧ licenses w' = licenses w ++ [r]
       ∧ lic_token r = fresh_token e
       ∧ lic_stripe_subscription_id r = sub_id sub.
Proof.
  intros Hmode Hsub. unfold handle_event. rewrite Hmode, Hsub. simpl.
  unfold mbind, M_bind.
  pose proof (upsertCustomer_licenses e
    (or_string (cs_customer_details_email session) (sub_customer_email sub))
    (customer_id_of (cs_customer session)) w) as [Hw1 _].
  destruct (upsertCustomer _ _ _ w) as [[c|msg] w1]; simpl in *;
    [|left; split; [by rewrite Hw1 | discriminate]].
  pose proof (toISOString_world (sub_current_period_end sub) w1) as Hw1'.
  destruct (toISOString _ w1) as [[pe|msg] w1']; simpl in Hw1'; subst w1'; simpl;
    [|left; split; [by rewrite Hw1 | discriminate]].
  pose proof (createOrUpdateLicense_spec e (cust_id c) (sub_id sub)
    (sub_status sub) pe (cs_id session) w1) as (_ & _ & Hstep).
  destruct (createOrUpdateLicense _ _ _ _ _ _ w1) as [[lic|msg] w2]; simpl in *.
  - rewrite emailSend_licenses. rewrite Hw1 in Hstep.
    destruct Hstep as [[Hframe Hret]|(r & _ & Hnone & Happ & Htok & Hs)].
    + left. split; [done|]. intros _. by destruct (Hret lic eq_refl).
    + right. by exists r.
  - rewrite Hw1 in Hstep.
    destruct Hstep as [[Hframe _]|(r & Hr & _)]; [|discriminate].
    left. split; [done | discriminate].
Qed.

Lemma handle_event_step cfg ev e w :
  licenses_step e ev (licenses w) (licenses (handle_event cfg ev e w).2).
Proof.
  destruct ev as [session|kind sub|inv|type].
  - destruct (decide (cs_mode session = "subscription")) as [Hmode|Hmode].
    + destruct (stripe_retrieve e (cs_subscription session)) as [msg|sub] eqn:Hsub.
      * left. unfold handle_event. rewrite Hmode, Hsub. reflexivity.
      * destruct (checkout_completed_spec cfg session e w sub Hmode Hsub)
          as [[Hframe _]|(r & Hnone & Happ & Htok & Hs)]; [by left|].
        right. by exists session, sub, r.
    + left. unfold handle_event.
      apply String.eqb_neq in Hmode. by rewrite Hmode.
  - left. unfold handle_event, mbind, M_bind.
    pose proof (toISOString_world (sub_current_period_end sub) w) as Hw.
    destruct (toISOString _ w) as [[pe|msg] w1]; simpl in Hw; subst w1; [|done].
    unfold data_or_throw, update_licenses.
    destruct (store_fault e 0); simpl; [done|]. by apply update_rows_frame.
  - left. unfold handle_event.
    destruct (or_string _ _); [|done]. simpl. unfold update_licenses.
    destruct (store_fault e 0); simpl; [done|]. by apply update_rows_frame.
  - by left.
Qed.

Lemma webhook_step cfg constructEvent raw_body sig e w :
  lic_frame <$> licenses (webhook cfg constructEvent raw_body sig e w).2
    = lic_frame <$> licenses w
  ∨ ∃ ev, constructEvent raw_body sig (STRIPE_WEBHOOK_SECRET cfg) = inr ev
        ∧ licenses_step e ev (licenses w)
            (licenses (webhook cfg constructEvent raw_body sig e w).2).
Proof.
  unfold webhook.
  destruct (constructEvent _ _ _) as [msg|ev]; [by left|].
  right. exists ev. split; [done|].
  pose proof (handle_event_step cfg ev e w) as Hstep.
  by destruct (handle_event cfg ev e w) as [[[]|msg] w'].
Qed.





(** ** One License per subscription *)



(** ** Tokens are issued once *)

(** C4.  Whatever billing event a webhook request carries, every License
    row that was in the table is still at its place with the same
    identifier, owner, token, subscription reference and tier: only status,
    period end and session may differ.  The table grows only by the one
    row of a completed checkout whose subscription had no row, and that
    row carries the token drawn for the request. *)
Theorem webhook_keeps_tokens
    (cfg : config) (constructEvent : string → option string → option string → string + event)
    (raw_body : string) (sig : option string) (e : env) (w : world) :
  let w' := (webhook cfg constructEvent raw_body sig e w).2 in
  (∀ i l, licenses w !! i = Some l →
     ∃ l', licenses w' !! i = Some l'
           ∧ lic_token l' = lic_token l
           ∧ lic_id l' = lic_id l
           ∧ lic_customer_id l' = lic_customer_id l
           ∧ lic_stripe_subscription_id l' = lic_stripe_subscription_id l
           ∧ lic_tier l' = lic_tier l)
  ∧ (length (licenses w') = length (licenses w)
     ∨ ∃ session sub r,
         constructEvent raw_body sig (STRIPE_WEBHOOK_SECRET cfg)
           = inr (CheckoutSessionCompleted session)
         ∧ stripe_retrieve e (cs_subscription session) = inr sub
         ∧ (∀ l, l ∈ licenses w → lic_stripe_subscription_id l ≠ sub_id sub)
         ∧ licenses w' = licenses w ++ [r]
         ∧ lic_token r = fresh_token e
         ∧ lic_stripe_subscription_id r = sub_id sub).
Proof.
  intros w'.
  assert (∀ l l' : license, lic_frame l' = lic_frame l →
            lic_token l' = lic_token l ∧ lic_id l' = lic_id l
            ∧ lic_customer_id l' = lic_customer_id l
            ∧ lic_stripe_subscription_id l' = lic_stripe_subscription_id l
            ∧ lic_tier l' = lic_tier l) as Hfields.
  { intros l l' Hf. unfold lic_frame in Hf. by injection Hf as -> -> -> -> ->. }
  destruct (webhook_step cfg constructEvent raw_body sig e w)
    as [Hframe|(ev & Hev & [Hframe|Hins])]; fold w' in Hframe || fold w' in Hins.
  - split; [|left; by apply frame_length].
    intros i l Hl. destruct (frame_lookup _ _ i l Hframe Hl) as (l' & Hl' & Hf).
    exists l'. split; [done|]. by apply Hfields.
  - split; [|left; by apply frame_length].
    intros i l Hl. destruct (frame_lookup _ _ i l Hframe Hl) as (l' & Hl' & Hf).
    exists l'. split; [done|]. by apply Hfields.
  - destruct Hins as (session & sub & r & -> & Hsub & Hnone & Happ & Htok & Hs).
    split.
    + intros i l Hl. exists l. rewrite Happ. split; [|done].
      by apply lookup_app_l_Some.
    + right. exists session, sub, r. repeat split; try done.
      intros l Hl. by apply (proj1 (filter_none_iff _ _) Hnone).
Qed.

(** A subscription-updated event with status [canceled] flips the status
    of the License of that subscription and leaves its token alone. *)
Example canceled_event_keeps_token :
  licenses (webhook demo_config demo_cancel_constructEvent "{}" (Some "t=1,v1=00")
              demo_env demo_world).2
  = [ {| lic_id := 2; lic_customer_id := 1; lic_token := "0123456789AB-DEADBEEF";
         lic_status := "canceled"; lic_current_period_end := 1700000000000;
         lic_stripe_subscription_id := "sub_1"; lic_tier := "all-access";
         lic_session_id := "cs_1" |} ].
Proof. vm_compute. reflexivity. Qed.

Lemma webhook_keeps_tokens_witness :
  ∃ l', licenses (webhook demo_config demo_cancel_constructEvent "{}" (Some "t=1,v1=00")
                    demo_env demo_world).2 !! 0 = Some l'
        ∧ lic_token l' = "0123456789AB-DEADBEEF".
Proof.
  destruct (proj1 (webhook_keeps_tokens demo_config demo_cancel_constructEvent
                     "{}" (Some "t=1,v1=00") demo_env demo_world)
              0 demo_license eq_refl) as (l' & Hl' & Htok & _).
  exists l'. split; [exact Hl' | exact Htok].
Defined.

(** * Sorting and deduplication *)

Section SortFacts.
Context {A : Type} (compare : A → A → Z).

Hypothesis before_total : ∀ a b, ¬ before compare a b → before compare b a.
Hypothesis before_trans : ∀ a b c, before compare a b → before compare b c → before compare a c.

Lemma insert_sorted_perm (x : A) (l : list A) :
  insert_sorted compare x l ≡ₚ x :: l.
Proof.
  induction l as [|y l IH]; simpl; [done|].
  destruct (decide _); [done|]. rewrite IH. apply Permutation_swap.
Qed.

Lemma sort_perm (l : list A) : sort compare l ≡ₚ l.
Proof.
  induction l as [|x l IH]; simpl; [done|].
  by rewrite insert_sorted_perm, IH.
Qed.

Lemma insert_sorted_Sorted (x : A) (l : list A) :
  Sorted (before compare) l → Sorted (before compare) (insert_sorted compare x l).
Proof.
  induction l as [|y l IH]; simpl; intros Hl.
  - by repeat constructor.
  - destruct (decide (compare x y ≤ 0)%Z) as [Hxy|Hxy].
    + constructor; [done|]. by constructor.
    + apply Sorted_inv in Hl as [Hl Hhd]. constructor; [by apply IH|].
      destruct l as [|z l]; simpl.
      * constructor. by apply before_total.
      * destruct (decide _); constructor; [by apply before_total|].
        by apply HdRel_inv in Hhd.
Qed.

Lemma sort_Sorted (l : list A) : Sorted (before compare) (sort compare l).
Proof.
  induction l as [|x l IH]; simpl; [constructor|].
  by apply insert_sorted_Sorted.
Qed.

Lemma sort_StronglySorted (l : list A) : StronglySorted (before compare) (sort compare l).
Proof.
  apply Sorted_StronglySorted; [|apply sort_Sorted].
  intros a b c. apply before_trans.
Qed.

(** The stable sort leaves a sorted array as it is. *)
Lemma sort_sorted_id (l : list A) : Sorted (before compare) l → sort compare l = l.
Proof.
  induction l as [|x l IH]; simpl; intros Hl; [done|].
  apply Sorted_inv in Hl as [Hl Hhd]. rewrite (IH Hl).
  destruct Hhd as [|y l' Hxy]; simpl; [done|].
  by rewrite decide_True.
Qed.

Lemma sort_idemp (l : list A) : sort compare (sort compare l) = sort compare l.
Proof. apply sort_sorted_id, sort_Sorted. Qed.

Lemma sort_app (l1 l2 : list A) :
  sort compare (l1 ++ l2) = foldr (insert_sorted compare) (sort compare l2) l1.
Proof. unfold sort. by rewrite foldr_app. Qed.

(** Sorting the tail of an array first does not change the sorted array. *)
Lemma sort_app_sorted_r (l1 l2 : list A) :
  sort compare (l1 ++ sort compare l2) = sort compare (l1 ++ l2).
Proof. by rewrite !sort_app, sort_idemp. Qed.

Lemma filter_insert_sorted (P : A → Prop) `{∀ x, Decision (P x)} (x : A) (l : list A) :
  StronglySorted (before compare) l →
  filter P (insert_sorted compare x l)
  = if decide (P x) then insert_sorted compare x (filter P l) else filter P l.
Proof.
  induction l as [|y l IH]; simpl; intros Hl.
  - rewrite filter_cons, filter_nil. by destruct (decide (P x)).
  - apply StronglySorted_inv in Hl as [Hl Hall].
    destruct (decide (compare x y ≤ 0)%Z) as [Hxy|Hxy].
    + rewrite (filter_cons _ x). destruct (decide (P x)) as [Hx|Hx]; [|done].
      f_equal. rewrite filter_cons.
      destruct (decide (P y)) as [Hy|Hy]; simpl; [by rewrite decide_True|].
      clear IH. induction l as [|z l IHl]; [done|].
      apply StronglySorted_inv in Hl as [Hl Hz].
      apply Forall_cons in Hall as [Hyz Hall].
      rewrite filter_cons. destruct (decide (P z)); simpl.
      * rewrite decide_True; [done|]. by apply (before_trans x y z).
      * by apply IHl.
    + rewrite filter_cons, (filter_cons _ y), (IH Hl).
      destruct (decide (P y)) as [Hy|Hy]; [|done].
      destruct (decide (P x)) as [Hx|Hx]; [|done].
      simpl. by rewrite decide_False.
Qed.

(** Filtering commutes with the stable sort. *)
Lemma filter_sort (P : A → Prop) `{∀ x, Decision (P x)} (l : list A) :
  filter P (sort compare l) = sort compare (filter P l).
Proof.
  induction l as [|x l IH]; simpl; [done|].
  rewrite filter_insert_sorted by apply sort_StronglySorted.
  rewrite filter_cons, IH. by destruct (decide (P x)).
Qed.

End SortFacts.

Lemma filter_ext_elem {A} (P Q : A → Prop)
    `{∀ x, Decision (P x)} `{∀ x, Decision (Q x)} (l : list A) :
  (∀ x, x ∈ l → (P x ↔ Q x)) → filter P l = filter Q l.
Proof.
  induction l as [|a l IH]; intros HPQ; [done|].
  rewrite !filter_cons.
  rewrite IH by (intros x Hx; apply HPQ; by right).
  destruct (HPQ a) as [H1 H2]; [by left|].
  destruct (decide (P a)), (decide (Q a)); tauto.
Qed.

Lemma filter_all {A} (P : A → Prop) `{∀ x, Decision (P x)} (l : list A) :
  (∀ x, x ∈ l → P x) → filter P l = l.
Proof.
  induction l as [|a l IH]; intros HP; [done|].
  rewrite filter_cons, decide_True by (apply HP; by left).
  f_equal. apply IH. intros x Hx. apply HP. by right.
Qed.

(** ** One pass over the array, one item per key *)

Section Dedupe.
Context {A : Type} (key : A → string).

Lemma elem_of_keys (k : string) (l : list A) :
  k ∈ keys key l ↔ ∃ x, x ∈ l ∧ key x = k.
Proof.
  unfold keys. rewrite elem_of_list_to_set, list_elem_of_fmap.
  split; intros (x & H1 & H2); exists x; by split.
Qed.

Lemma uniqBy_dedupe (arr : list A) : Validator.uniqBy arr key = dedupe key ∅ arr.
Proof.
  unfold Validator.uniqBy.
  enough (∀ seen out,
    (foldl (λ (st : gset string * list A) x,
              if decide (key x ∈ st.1) then st
              else ({[key x]} ∪ st.1, st.2 ++ [x])) (seen, out) arr).2
    = out ++ dedupe key seen arr) as Hloop by apply (Hloop ∅ []).
  induction arr as [|x arr IH]; intros seen out; simpl.
  - by rewrite app_nil_r.
  - destruct (decide (key x ∈ seen)); simpl; rewrite IH; [done|].
    by rewrite <- app_assoc.
Qed.

Lemma dedupe_elem (seen : gset string) (l : list A) (x : A) :
  x ∈ dedupe key seen l → x ∈ l ∧ key x ∉ seen.
Proof.
  revert seen. induction l as [|y l IH]; intros seen; simpl.
  - intros Hx. by apply elem_of_nil in Hx.
  - destruct (decide (key y ∈ seen)) as [Hy|Hy].
    + intros Hx. destruct (IH _ Hx). split; [by right | done].
    + intros Hx. apply elem_of_cons in Hx as [->|Hx]; [split; [by left | done]|].
      destruct (IH _ Hx) as [Hin Hk]. split; [by right | set_solver].
Qed.

Lemma dedupe_NoDup (seen : gset string) (l : list A) :
  NoDup (key <$> dedupe key seen l).
Proof.
  revert seen. induction l as [|y l IH]; intros seen; simpl; [constructor|].
  destruct (decide (key y ∈ seen)); [apply IH|].
  simpl. constructor; [|apply IH].
  intros Hin. apply list_elem_of_fmap in Hin as (x & Hk & Hx).
  apply dedupe_elem in Hx as [_ Hx]. set_solver.
Qed.

(** Every item whose key is new leaves a representative with that key. *)
Lemma dedupe_represents (seen : gset string) (l : list A) (x : A) :
  x ∈ l → key x ∉ seen → ∃ y, y ∈ dedupe key seen l ∧ key y = key x.
Proof.
  revert seen. induction l as [|z l IH]; intros seen Hx Hk; simpl.
  - by apply elem_of_nil in Hx.
  - destruct (decide (key z ∈ seen)) as [Hz|Hz].
    + apply elem_of_cons in Hx as [->|Hx]; [done|]. by apply IH.
    + destruct (decide (key x = key z)) as [Heq|Hne].
      * exists z. split; [by left | done].
      * apply elem_of_cons in Hx as [->|Hx]; [done|].
        destruct (IH ({[key z]} ∪ seen) Hx) as (y & Hy & Hyk); [set_solver|].
        exists y. split; [by right | done].
Qed.

Lemma dedupe_app (seen : gset string) (l1 l2 : list A) :
  dedupe key seen (l1 ++ l2) = dedupe key seen l1 ++ dedupe key (keys key l1 ∪ seen) l2.
Proof.
  revert seen. induction l1 as [|x l1 IH]; intros seen; simpl.
  - unfold keys. simpl. by rewrite (left_id_L ∅ (∪)).
  - assert (keys key (x :: l1) = {[key x]} ∪ keys key l1) as Hkeys by done.
    destruct (decide (key x ∈ seen)) as [Hx|Hx]; rewrite IH, Hkeys.
    + do 2 f_equal. set_solver.
    + simpl. do 3 f_equal. set_solver.
Qed.

(** On an array without two items of one key the pass is a plain filter. *)
Lemma dedupe_filter (seen : gset string) (l : list A) :
  NoDup (key <$> l) → dedupe key seen l = filter (λ x, key x ∉ seen) l.
Proof.
  revert seen. induction l as [|x l IH]; intros seen Hnodup; simpl; [done|].
  apply NoDup_cons in Hnodup as [Hx Hnodup]. rewrite filter_cons.
  destruct (decide (key x ∈ seen)) as [Hin|Hin].
  - rewrite decide_False by tauto. by apply IH.
  - rewrite decide_True by done. f_equal. rewrite (IH _ Hnodup).
    apply filter_ext_elem. intros y Hy.
    assert (key y ≠ key x).
    { intros Heq. apply Hx. rewrite <- Heq. apply list_elem_of_fmap. by exists y. }
    set_solver.
Qed.

Lemma dedupe_id (l : list A) : NoDup (key <$> l) → dedupe key ∅ l = l.
Proof.
  intros Hnodup. rewrite dedupe_filter by done.
  apply filter_all. set_solver.
Qed.

(** Two items in a row are merged exactly when their keys key are equal. *)
Lemma dedupe_pair (x y : A) : dedupe key ∅ [x; y] = [x] ↔ key x = key y.
Proof.
  simpl. rewrite decide_False by set_solver.
  destruct (decide (key y ∈ {[key x]} ∪ ∅)) as [Hy|Hy].
  - split; [set_solver | done].
  - split; [discriminate | set_solver].
Qed.

End Dedupe.

Lemma merge_filter_dedupe (seen : gset string) (arr : list item) :
  Builder.merge_filter seen arr = dedupe Builder.key seen arr.
Proof.
  revert seen. induction arr as [|x arr IH]; intros seen; simpl; [done|].
  by rewrite !IH.
Qed.

(** * The comparators are total preorders *)

Section Collation.
Context `{JsStringLaws}.
Local Open Scope Z_scope.

Lemma localeCompare_signs (a b : string) :
  (localeCompare a b < 0 ↔ 0 < localeCompare b a)
  ∧ (localeCompare a b = 0 ↔ localeCompare b a = 0)
  ∧ (0 < localeCompare a b ↔ localeCompare b a < 0).
Proof.
  pose proof (localeCompare_flip a b) as Hflip.
  destruct (Z.sgn_spec (localeCompare a b)) as [[? Ha]|[[? Ha]|[? Ha]]];
    destruct (Z.sgn_spec (localeCompare b a)) as [[? Hb]|[[? Hb]|[? Hb]]];
    rewrite Ha, Hb in Hflip; lia.
Qed.

Lemma localeCompare_total (a b : string) :
  ¬ localeCompare a b ≤ 0 → localeCompare b a ≤ 0.
Proof. pose proof (localeCompare_signs a b). lia. Qed.

Lemma localeCompare_lt_le (a b c : string) :
  localeCompare a b < 0 → localeCompare b c ≤ 0 → localeCompare a c < 0.
Proof.
  intros Hab Hbc.
  assert (localeCompare a b ≤ 0) as Hab' by lia.
  pose proof (localeCompare_trans a b c Hab' Hbc) as Hac.
  destruct (decide (localeCompare a c = 0)) as [Hz|]; [|lia].
  pose proof (localeCompare_signs a c) as Hs.
  assert (localeCompare c a ≤ 0) as Hca by lia.
  pose proof (localeCompare_trans b c a Hbc Hca).
  pose proof (localeCompare_signs a b). lia.
Qed.

Lemma localeCompare_le_lt (a b c : string) :
  localeCompare a b ≤ 0 → localeCompare b c < 0 → localeCompare a c < 0.
Proof.
  intros Hab Hbc.
  assert (localeCompare b c ≤ 0) as Hbc' by lia.
  pose proof (localeCompare_trans a b c Hab Hbc') as Hac.
  destruct (decide (localeCompare a c = 0)) as [Hz|]; [|lia].
  pose proof (localeCompare_signs a c) as Hs.
  assert (localeCompare c a ≤ 0) as Hca by lia.
  pose proof (localeCompare_trans c a b Hca Hab).
  pose proof (localeCompare_signs b c). lia.
Qed.

Lemma localeCompare_eq_trans (a b c : string) :
  localeCompare a b = 0 → localeCompare b c = 0 → localeCompare a c = 0.
Proof.
  intros Hab Hbc.
  pose proof (localeCompare_signs a b). pose proof (localeCompare_signs b c).
  assert (localeCompare a b ≤ 0) as Le1 by lia.
  assert (localeCompare b c ≤ 0) as Le2 by lia.
  assert (localeCompare c b ≤ 0) as Le3 by lia.
  assert (localeCompare b a ≤ 0) as Le4 by lia.
  pose proof (localeCompare_trans a b c Le1 Le2).
  pose proof (localeCompare_trans c b a Le3 Le4).
  pose proof (localeCompare_signs a c). lia.
Qed.

Lemma or_number_zero (n : Z) : or_number n 0 = n.
Proof. unfold or_number. by destruct (decide (n = 0)). Qed.

Lemma validator_before (a b : item) :
  before Validator.compare a b ↔
  localeCompare (category a) (category b) < 0
  ∨ (localeCompare (category a) (category b) = 0
     ∧ localeCompare (title a) (title b) ≤ 0).
Proof.
  unfold before, Validator.compare, or_number.
  destruct (decide (localeCompare (category a) (category b) = 0)); lia.
Qed.

Lemma validator_before_total (a b : item) :
  ¬ before Validator.compare a b → before Validator.compare b a.
Proof.
  rewrite !validator_before.
  pose proof (localeCompare_signs (category a) (category b)).
  pose proof (localeCompare_signs (title a) (title b)). lia.
Qed.

Lemma validator_before_trans (a b c : item) :
  before Validator.compare a b → before Validator.compare b c →
  before Validator.compare a c.
Proof.
  rewrite !validator_before. intros [Hab|[Hab Hab']] [Hbc|[Hbc Hbc']].
  - left. apply (localeCompare_lt_le _ (category b)); lia.
  - left. apply (localeCompare_lt_le _ (category b)); lia.
  - left. apply (localeCompare_le_lt _ (category b)); lia.
  - right. split; [by apply (localeCompare_eq_trans _ (category b))|].
    by apply (localeCompare_trans _ (title b)).
Qed.

Lemma builder_before (a b : item) :
  before Builder.compare a b ↔
  rating b < rating a
  ∨ (rating b = rating a ∧ localeCompare (title a) (title b) ≤ 0).
Proof.
  unfold before, Builder.compare. rewrite !or_number_zero. unfold or_number.
  destruct (decide (rating b - rating a = 0)); lia.
Qed.

Lemma builder_before_total (a b : item) :
  ¬ before Builder.compare a b → before Builder.compare b a.
Proof.
  rewrite !builder_before.
  pose proof (localeCompare_signs (title a) (title b)). lia.
Qed.

Lemma builder_before_trans (a b c : item) :
  before Builder.compare a b → before Builder.compare b c →
  before Builder.compare a c.
Proof.
  rewrite !builder_before. intros [Hab|[Hab Hab']] [Hbc|[Hbc Hbc']]; try lia.
  right. split; [lia|]. by apply (localeCompare_trans _ (title b)).
Qed.

End Collation.

(** * The ASCII primitives obey the laws *)

Lemma trim_end_idemp (s : string) : trim_end (trim_end s) = trim_end s.
Proof.
  induction s as [|c s IH]; simpl; [done|].
  destruct (trim_end s) as [|d kept] eqn:Hs.
  - destruct (is_space c) eqn:Hc; simpl; [done|]. by rewrite Hc.
  - simpl in *. by rewrite IH.
Qed.

Lemma trim_start_head (s : string) :
  match trim_start s with
  | EmptyString => True
  | String c _ => is_space c = false
  end.
Proof.
  induction s as [|c s IH]; simpl; [done|].
  destruct (is_space c) eqn:Hc; [done|]. simpl. done.
Qed.

Lemma trim_start_trim_end (s : string) :
  match s with EmptyString => True | String c _ => is_space c = false end →
  trim_start (trim_end s) = trim_end s.
Proof.
  destruct s as [|c s]; simpl; [done|]. intros Hc.
  destruct (trim_end s); rewrite ?Hc; simpl; by rewrite Hc.
Qed.

Lemma ascii_trim_idemp (s : string) : ascii_trim (ascii_trim s) = ascii_trim s.
Proof.
  unfold ascii_trim.
  rewrite trim_start_trim_end by apply trim_start_head.
  apply trim_end_idemp.
Qed.

Lemma code_unit_compare_flip (a b : string) :
  Z.sgn (code_unit_compare b a) = (- Z.sgn (code_unit_compare a b))%Z.
Proof.
  revert b. induction a as [|x a IH]; intros [|y b]; simpl; try done.
  destruct (nat_of_ascii x <? nat_of_ascii y)%nat eqn:Hxy,
           (nat_of_ascii y <? nat_of_ascii x)%nat eqn:Hyx; simpl; try done.
  apply Nat.ltb_lt in Hxy, Hyx. lia.
Qed.

Lemma code_unit_compare_trans (a b c : string) :
  (code_unit_compare a b ≤ 0)%Z → (code_unit_compare b c ≤ 0)%Z →
  (code_unit_compare a c ≤ 0)%Z.
Proof.
  revert b c. induction a as [|x a IH]; intros [|y b] [|z c]; simpl; try done.
  destruct (nat_of_ascii x <? nat_of_ascii y)%nat eqn:Hxy;
  destruct (nat_of_ascii y <? nat_of_ascii x)%nat eqn:Hyx;
  destruct (nat_of_ascii y <? nat_of_ascii z)%nat eqn:Hyz;
  destruct (nat_of_ascii z <? nat_of_ascii y)%nat eqn:Hzy;
  destruct (nat_of_ascii x <? nat_of_ascii z)%nat eqn:Hxz;
  destruct (nat_of_ascii z <? nat_of_ascii x)%nat eqn:Hzx;
  try done; try lia;
  rewrite ?Nat.ltb_lt, ?Nat.ltb_ge in *; try lia.
  apply IH.
Qed.

#[global] Instance ascii_strings_laws : JsStringLaws.
Proof.
  split.
  - reflexivity.
  - apply ascii_trim_idemp.
  - apply code_unit_compare_flip.
  - apply code_unit_compare_trans.
Qed.

(** * Properties of the catalog builder *)

(** ** Merging an array with its own sorted merge *)
Section MergeFacts.
Context {A : Type} (key : A → string) (compare : A → A → Z).
Hypothesis before_total : ∀ a b, ¬ before compare a b → before compare b a.
Hypothesis before_trans : ∀ a b c, before compare a b → before compare b c → before compare a c.
Variable own : list A.

Lemma merge_own_first (prev : list A) :
  dedupe key ∅ (own ++ prev)
  = dedupe key ∅ own ++ dedupe key (keys key own) prev.
Proof. by rewrite dedupe_app, (right_id_L ∅ (∪)). Qed.

(** What the merge keeps of the items of its own output that are not
    its own: all of them, in sorted order. *)
Lemma merge_rest_of_output (prev : list A) :
  dedupe key (keys key own) (sort compare (dedupe key ∅ (own ++ prev)))
  = sort compare (dedupe key (keys key own) prev).
Proof.
  rewrite merge_own_first.
  set (first := dedupe key ∅ own).
  set (rest := dedupe key (keys key own) prev).
  assert (NoDup (key <$> first ++ rest)) as Hnodup.
  { unfold first, rest. rewrite <- merge_own_first. apply dedupe_NoDup. }
  rewrite dedupe_filter by (by rewrite (sort_perm compare (first ++ rest))).
  rewrite (filter_sort compare before_total before_trans).
  f_equal. rewrite filter_app.
  rewrite (proj2 (filter_none_iff _ first)), app_nil_l.
  - apply filter_all. intros x Hx. by apply dedupe_elem in Hx as [_ Hx].
  - intros x Hx Hk. apply Hk. apply dedupe_elem in Hx as [Hx _].
    apply elem_of_keys. by exists x.
Qed.

Lemma merge_sort_fixed_point (prev : list A) :
  sort compare (dedupe key ∅ (own ++ sort compare (dedupe key ∅ (own ++ prev))))
  = sort compare (dedupe key ∅ (own ++ prev)).
Proof.
  rewrite (merge_own_first (sort compare _)), merge_rest_of_output.
  rewrite (sort_app_sorted_r compare before_total).
  by rewrite <- merge_own_first.
Qed.

End MergeFacts.

(** A function that respects keys and order goes through the merge and
    the sort. *)
Section MapFacts.
Context {A B : Type} (f : A → B).

Lemma dedupe_fmap (key : A → string) (key' : B → string)
    (seen : gset string) (l : list A) :
  (∀ x, key' (f x) = key x) →
  dedupe key' seen (f <$> l) = f <$> dedupe key seen l.
Proof.
  intros Hkey. revert seen. induction l as [|x l IH]; intros seen; [done|].
  simpl. rewrite Hkey. destruct (decide (key x ∈ seen)); simpl; by rewrite IH.
Qed.

Lemma insert_sorted_fmap (compare : A → A → Z) (compare' : B → B → Z)
    (P : A → Prop) (x : A) (l : list A) :
  (∀ a b, P a → P b → compare' (f a) (f b) = compare a b) →
  P x → Forall P l →
  insert_sorted compare' (f x) (f <$> l) = f <$> insert_sorted compare x l.
Proof.
  intros Hcompare Hx. induction l as [|y l IH]; intros Hl; [done|].
  apply Forall_cons in Hl as [Hy Hl]. simpl. rewrite Hcompare by done.
  destruct (decide (compare x y ≤ 0)%Z); simpl; [done|].
  f_equal. by apply IH.
Qed.

Lemma sort_fmap (compare : A → A → Z) (compare' : B → B → Z)
    (P : A → Prop) (l : list A) :
  (∀ a b, P a → P b → compare' (f a) (f b) = compare a b) →
  Forall P l →
  sort compare' (f <$> l) = f <$> sort compare l.
Proof.
  intros Hcompare. induction l as [|x l IH]; intros Hl; [done|].
  apply Forall_cons in Hl as [Hx Hl].
  change (sort compare' (f <$> x :: l))
    with (insert_sorted compare' (f x) (sort compare' (f <$> l))).
  change (sort compare (x :: l)) with (insert_sorted compare x (sort compare l)).
  rewrite (IH Hl). apply (insert_sorted_fmap compare compare' P); [done..|].
  by rewrite sort_perm.
Qed.

End MapFacts.

(** ** The builder from file to file *)

Lemma library_merge_filter_dedupe `{JsString}
    (seen : gset string) (arr : list Library.entry) :
  Library.merge_filter seen arr = dedupe Library.key seen arr.
Proof.
  revert seen. induction arr as [|x arr IH]; intros seen; simpl; [done|].
  by rewrite !IH.
Qed.

Lemma or_0_not_NaN (r : option Library.double) : Library.or_0 r ≠ Library.NaN.
Proof. by destruct r as [[[| |]| | |]|]. Qed.

Section LibraryFacts.
Context `{JsStringLaws}.

(** The comparator, by the ratings with null and zero taken alike. *)
Lemma library_order_spec (a b : Library.entry) :
  library_order a b
  = match Library.or_0 (Library.rating b), Library.or_0 (Library.rating a) with
    | Library.Finite m, Library.Finite n =>
        or_number (m - n) (localeCompare (Library.title a) (Library.title b))
    | Library.Infinity, Library.Infinity
    | Library.NegInfinity, Library.NegInfinity
    | Library.NaN, _ | _, Library.NaN =>
        localeCompare (Library.title a) (Library.title b)
    | Library.Infinity, _ | _, Library.NegInfinity => 1
    | Library.NegInfinity, _ | _, Library.Infinity => -1
    end%Z.
Proof.
  unfold library_order, Library.compare, or_number.
  destruct (Library.or_0 (Library.rating b)) as [m| | |],
           (Library.or_0 (Library.rating a)) as [n| | |]; try done.
  simpl. destruct (decide (m - n = 0)%Z) as [->|Hne]; [done|].
  by destruct (m - n)%Z.
Qed.

Lemma library_before_total (a b : Library.entry) :
  ¬ before library_order a b → before library_order b a.
Proof.
  unfold before. rewrite !library_order_spec. unfold or_number.
  pose proof (localeCompare_signs (Library.title a) (Library.title b)).
  destruct (Library.or_0 (Library.rating b)) as [m| | |],
           (Library.or_0 (Library.rating a)) as [n| | |];
    repeat case_decide; lia.
Qed.

Lemma library_before_trans (a b c : Library.entry) :
  before library_order a b → before library_order b c → before library_order a c.
Proof.
  unfold before. rewrite !library_order_spec. unfold or_number.
  pose proof (localeCompare_trans (Library.title a) (Library.title b)
                (Library.title c)).
  destruct (Library.or_0 (Library.rating a)) as [n| | |] eqn:Ha,
           (Library.or_0 (Library.rating b)) as [m| | |] eqn:Hb,
           (Library.or_0 (Library.rating c)) as [k| | |] eqn:Hc;
    try (by apply or_0_not_NaN in Ha); try (by apply or_0_not_NaN in Hb);
    try (by apply or_0_not_NaN in Hc);
    repeat case_decide; try lia; auto.
Qed.

End LibraryFacts.

Lemma or_0_JSON_number (r : option Library.double) :
  r ≠ Some Library.Infinity → r ≠ Some Library.NegInfinity →
  Library.or_0 (Library.JSON_number r) = Library.or_0 r.
Proof. by destruct r as [[| | |]|]. Qed.

Lemma reread_idemp (it : Library.entry) :
  Library.reread (Library.reread it) = Library.reread it.
Proof. destruct it as [? ? ? ? [[| | |]|] [[| | |]|] ? ?]; done. Qed.

Lemma reread_of_item (x : item) :
  Library.reread (Library.of_item x) = Library.of_item x.
Proof. by destruct x. Qed.

Lemma reread_rating_written (it : Library.entry) :
  rating_written (Library.reread it).
Proof. destruct it as [? ? ? ? [[| | |]|] ? ? ?]; by split. Qed.

Lemma reread_order `{JsString} (a b : Library.entry) :
  rating_written a → rating_written b →
  library_order (Library.reread a) (Library.reread b) = library_order a b.
Proof.
  intros [Ha Ha'] [Hb Hb']. unfold library_order, Library.compare. simpl.
  by rewrite !or_0_JSON_number.
Qed.

Section LibraryRuns.
Context `{JsStringLaws}.
Variables seeded generated : list item.

Lemma library_main_dedupe (prev : list Library.entry) :
  Library.main seeded generated prev
  = sort library_order
      (dedupe Library.key ∅
         ((Library.of_item <$> seeded ++ generated) ++ prev)).
Proof.
  unfold Library.main. rewrite library_merge_filter_dedupe.
  by rewrite fmap_app, <- app_assoc.
Qed.

(** Where no rating is infinite, writing the output and reading it back
    gives what the run makes of the snapshot written and read back. *)
Lemma library_main_written (prev : list Library.entry) :
  Forall rating_written prev →
  Library.written (Library.main seeded generated prev)
  = Library.main seeded generated (Library.written prev).
Proof.
  intros Hprev. rewrite !library_main_dedupe. unfold Library.written.
  set (own := Library.of_item <$> seeded ++ generated).
  assert (Forall rating_written own) as Hown.
  { apply Forall_fmap, Forall_forall. intros [] _. by split. }
  assert (Library.reread <$> own = own) as Hsame.
  { unfold own. rewrite <- list_fmap_compose. apply list_fmap_ext.
    intros i x _. apply reread_of_item. }
  rewrite <- (sort_fmap Library.reread library_order library_order rating_written).
  - f_equal.
    rewrite <- (dedupe_fmap Library.reread Library.key Library.key) by done.
    by rewrite fmap_app, Hsame.
  - intros a b. apply reread_order.
  - apply Forall_forall. intros x [Hx _]%dedupe_elem.
    apply elem_of_app in Hx as [Hx|Hx].
    + by apply (proj1 (Forall_forall _ _) Hown).
    + by apply (proj1 (Forall_forall _ _) Hprev).
Qed.

End LibraryRuns.

(** In memory the builder reproduces its own array. *)
Lemma library_main_fixed_point `{JsStringLaws}
    (seeded generated : list item) (prev : list Library.entry) :
  Library.main seeded generated (Library.main seeded generated prev)
  = Library.main seeded generated prev.
Proof.
  rewrite (library_main_dedupe seeded generated (Library.main _ _ _)).
  rewrite (library_main_dedupe seeded generated prev).
  apply merge_sort_fixed_point;
    [apply library_before_total | apply library_before_trans].
Qed.

(** On items with finite ratings the run from file to file is the merge
    and sort of [Builder.main]. *)
Lemma library_main_of_items `{JsStringLaws}
    (seeded generated prev : list item) :
  Library.main seeded generated (Library.of_item <$> prev)
  = Library.of_item <$> Builder.main seeded generated prev.
Proof.
  rewrite library_main_dedupe. unfold Builder.main.
  rewrite merge_filter_dedupe, <- fmap_app, app_assoc.
  rewrite <- (sort_fmap Library.of_item Builder.compare library_order (λ _, True)).
  - f_equal. apply dedupe_fmap. by intros [].
  - intros a b _ _. rewrite library_order_spec.
    unfold Builder.compare. rewrite !or_number_zero.
    destruct a as [? ? ? ? ra ? ? ?], b as [? ? ? ? rb ? ? ?]. simpl.
    by destruct ra as [|?|?], rb as [|?|?].
  - by apply Forall_forall.
Qed.

(** C5 does not hold of every prior snapshot.  A rating that stands as
    [1e400] in it is read as [Infinity]: the first run writes the item
    first, with the rating [null]; the second run reads that as 0 and
    writes the item last. *)
Lemma builder_moves_infinite_rating :
  Library.written (Library.main [starter_sop] [] [overrated_item])
  = [Library.reread overrated_item; Library.of_item starter_sop]
  ∧ Library.written
      (Library.main [starter_sop] []
         (Library.written (Library.main [starter_sop] [] [overrated_item])))
    = [Library.of_item starter_sop; Library.reread overrated_item]
  ∧ Library.written
      (Library.main [starter_sop] []
         (Library.written (Library.main [starter_sop] [] [overrated_item])))
    ≠ Library.written (Library.main [starter_sop] [] [overrated_item]).
Proof. vm_compute. split; [reflexivity|]. split; [reflexivity|]. discriminate. Qed.

(** C5, amended.  Where no rating of the prior snapshot is infinite, a
    second run of the builder, with the same seeded and generated items
    and the file of the first run as its prior snapshot, writes the file
    of the first run again: the two texts are read back as the same
    array, so they are the same text. *)
Theorem builder_file_fixed_point `{JsStringLaws}
    (seeded generated : list item) (prev : list Library.entry) :
  (∀ it, it ∈ prev → rating_written it) →
  Library.written
    (Library.main seeded generated
       (Library.written (Library.main seeded generated prev)))
  = Library.written (Library.main seeded generated prev).
Proof.
  intros Hprev%Forall_forall.
  rewrite (library_main_written seeded generated prev Hprev).
  rewrite library_main_fixed_point.
  rewrite library_main_written.
  - f_equal. unfold Library.written. rewrite <- list_fmap_compose.
    apply list_fmap_ext. intros i it _. apply reread_idemp.
  - apply Forall_fmap, Forall_forall. intros it _. apply reread_rating_written.
Qed.

Lemma builder_file_fixed_point_witness :
  Library.written
    (Library.main [starter_nudge; starter_sop] []
       (Library.written
          (Library.main [starter_nudge; starter_sop] []
             [unrated_item; Library.of_item starter_sop; Library.of_item old_item])))
  = Library.written
      (Library.main [starter_nudge; starter_sop] []
         [unrated_item; Library.of_item starter_sop; Library.of_item old_item]).
Proof.
  apply (builder_file_fixed_point [starter_nudge; starter_sop] []
           [unrated_item; Library.of_item starter_sop; Library.of_item old_item]).
  intros it Hit.
  repeat (apply elem_of_cons in Hit as [->|Hit]; [by split|]).
  by apply elem_of_nil in Hit.
Defined.

Example builder_file_run :
  Library.written
    (Library.main [starter_nudge; starter_sop] []
       [unrated_item; Library.of_item starter_sop; Library.of_item old_item])
  = [Library.of_item starter_nudge; Library.of_item starter_sop;
     Library.of_item old_item; Library.reread unrated_item].
Proof. vm_compute. reflexivity. Qed.

Example builder_run :
  Builder.main [starter_nudge; starter_sop] [] [old_item; starter_sop; old_item]
  = [starter_nudge; starter_sop; old_item].
Proof. vm_compute. reflexivity. Qed.

(** * Deduplication in the two scripts *)

(** The builder keeps two items whose titles and bodies differ only in
    letter case. *)
Lemma builder_merge_is_case_sensitive :
  toLowerCase (title old_item) = toLowerCase (title old_item_capitals)
  ∧ toLowerCase (prompt old_item) = toLowerCase (prompt old_item_capitals)
  ∧ Builder.merge_filter ∅ [old_item; old_item_capitals]
    = [old_item; old_item_capitals]
  ∧ Validator.uniqBy [old_item; old_item_capitals] Validator.key = [old_item].
Proof. vm_compute. repeat split; reflexivity. Qed.

(** C7, amended.  The validator takes two items for duplicates exactly
    when the lower-cased texts [title + "::" + prompt] are equal; the
    merge of the builder exactly when the texts [title + "::" + prompt]
    are equal as they stand, letter case included.  Either pass leaves no
    two items of one key, and one item for every key of its input. *)
Theorem dedup_identity `{JsString} :
  (∀ x y : item,
     Validator.uniqBy [x; y] Validator.key = [x] ↔ Validator.key x = Validator.key y)
  ∧ (∀ x y : item,
       Builder.merge_filter ∅ [x; y] = [x] ↔ Builder.key x = Builder.key y)
  ∧ (∀ x : item, Builder.key x = title x +:+ "::" +:+ prompt x)
  ∧ (∀ arr : list item,
       NoDup (Validator.key <$> Validator.uniqBy arr Validator.key)
       ∧ ∀ x, x ∈ arr →
           ∃ y, y ∈ Validator.uniqBy arr Validator.key
                ∧ Validator.key y = Validator.key x)
  ∧ (∀ arr : list item,
       NoDup (Builder.key <$> Builder.merge_filter ∅ arr)
       ∧ ∀ x, x ∈ arr →
           ∃ y, y ∈ Builder.merge_filter ∅ arr ∧ Builder.key y = Builder.key x).
Proof.
  split; [|split; [|split; [|split]]].
  - intros x y. rewrite uniqBy_dedupe. apply dedupe_pair.
  - intros x y. rewrite merge_filter_dedupe. apply dedupe_pair.
  - intros x. unfold Builder.key, or_empty, truthy_string.
    destruct (String.eqb_spec (title x) "") as [->|_],
             (String.eqb_spec (prompt x) "") as [->|_]; reflexivity.
  - intros arr. rewrite uniqBy_dedupe. split; [apply dedupe_NoDup|].
    intros x Hx. by apply dedupe_represents.
  - intros arr. rewrite merge_filter_dedupe. split; [apply dedupe_NoDup|].
    intros x Hx. by apply dedupe_represents.
Qed.

(** The separator can be part of a title: two records with different
    titles and bodies and one validator key. *)
Example validator_key_collision :
  Validator.uniqBy
    [ {| id := "id-0"; category := "General"; title := "a::b"; tags := [];
         rating := 5; price := 99; buyUrl := ""; prompt := "c" |};
      {| id := "id-1"; category := "General"; title := "a"; tags := [];
         rating := 5; price := 99; buyUrl := ""; prompt := "b::c" |} ]
    Validator.key
  = [ {| id := "id-0"; category := "General"; title := "a::b"; tags := [];
         rating := 5; price := 99; buyUrl := ""; prompt := "c" |} ].
Proof. vm_compute. reflexivity. Qed.

(** * Properties of the catalog validator *)

Section ValidatorFacts.
Context `{JsStringLaws}.

Lemma clean_from_lookup (i : nat) (data : list value) (cleaned : list item) :
  Validator.clean_from i data = Some cleaned →
  ∀ j, (∀ x, cleaned !! j = Some x →
          ∃ it, data !! j = Some it ∧ Validator.clean (i + j) it = Some x)
       ∧ (∀ it, data !! j = Some it →
          ∃ x, cleaned !! j = Some x ∧ Validator.clean (i + j) it = Some x).
Proof.
  revert i cleaned. induction data as [|it data IH]; intros i cleaned; simpl.
  - intros [= <-] j. split; intros ? Hj; by rewrite lookup_nil in Hj.
  - destruct (Validator.clean i it) as [x|] eqn:Hx; simpl; [|done].
    destruct (Validator.clean_from (S i) data) as [xs|] eqn:Hxs; simpl; [|done].
    intros [= <-] [|j]; simpl.
    + rewrite Nat.add_0_r. split.
      * intros ? [= <-]. by exists it.
      * intros ? [= <-]. by exists x.
    + replace (i + S j) with (S i + j) by lia. by apply IH.
Qed.

(** What a record that is cleaned without a throw is cleaned to. *)
Lemma clean_Some (i : nat) (it : value) (x : item) :
  Validator.clean i it = Some x →
  String_value (or_value (get it "id") (VString ("id-" +:+ pretty i))) = Some (id x)
  ∧ String_value (or_value (get it "category") (VString "General")) = Some (category x)
  ∧ String_value (or_value (get it "title") (VString "Untitled")) = Some (title x)
  ∧ (∃ text, String_value (or_value (get it "buyUrl") (VString "")) = Some text
             ∧ buyUrl x = trim text)
  ∧ (∃ text, String_value (or_value (get it "prompt") (VString "")) = Some text
             ∧ prompt x = trim text).
Proof.
  unfold Validator.clean. intros Hx.
  assert (∃ a b c d u t,
    String_value (or_value (get it "id") (VString ("id-" +:+ pretty i))) = Some a
    ∧ String_value (or_value (get it "category") (VString "General")) = Some b
    ∧ String_value (or_value (get it "title") (VString "Untitled")) = Some c
    ∧ String_value (or_value (get it "buyUrl") (VString "")) = Some u
    ∧ String_value (or_value (get it "prompt") (VString "")) = Some t
    ∧ x = {| id := a; category := b; title := c; tags := d;
             rating := match get it "rating" with VNumber n => n | _ => 5%Z end;
             price := match get it "price" with VNumber n => n | _ => 99%Z end;
             buyUrl := trim u; prompt := trim t |})
    as (a & b & c & d & u & t & Ha & Hb & Hc & Hu & Ht & ->).
  { destruct (String_value (or_value (get it "id") _)) as [a|];
      [|by destruct it].
    destruct (String_value (or_value (get it "category") _)) as [b|];
      [|by destruct it].
    destruct (String_value (or_value (get it "title") _)) as [c|];
      [|by destruct it].
    destruct (match get it "tags" with
              | VArray l => mapM String_value l
              | _ => Some []
              end) as [d|]; [|by destruct it].
    destruct (String_value (or_value (get it "buyUrl") _)) as [u|];
      [|by destruct it].
    destruct (String_value (or_value (get it "prompt") _)) as [t|];
      [|by destruct it].
    exists a, b, c, d, u, t. destruct it; try done; simpl in Hx;
      by injection Hx as <-. }
  simpl. do 3 (split; [done|]). split; [by exists u | by exists t].
Qed.

(** An empty or missing body is cleaned to the empty string. *)
Lemma clean_no_prompt (i : nat) (it : value) (x : item) :
  Validator.clean i it = Some x →
  truthy (get it "prompt") = false → prompt x = "".
Proof.
  intros (_ & _ & _ & _ & text & Htext & ->)%clean_Some Hp.
  unfold or_value in Htext. rewrite Hp in Htext.
  injection Htext as <-. apply trim_empty.
Qed.

(** An empty or missing title is cleaned to [Untitled]. *)
Lemma clean_no_title (i : nat) (it : value) (x : item) :
  Validator.clean i it = Some x →
  truthy (get it "title") = false → title x = "Untitled".
Proof.
  intros (_ & _ & Htitle & _)%clean_Some Hp.
  unfold or_value in Htitle. rewrite Hp in Htitle. by injection Htitle as <-.
Qed.

Lemma clean_trimmed (i : nat) (it : value) (x : item) :
  Validator.clean i it = Some x →
  trim (buyUrl x) = buyUrl x ∧ trim (prompt x) = prompt x.
Proof.
  intros (_ & _ & _ & (u & _ & ->) & (t & _ & ->))%clean_Some.
  by rewrite !trim_idemp.
Qed.

Lemma truthy_string_true (s : string) : truthy_string s = true ↔ s ≠ "".
Proof.
  unfold truthy_string. rewrite negb_true_iff. apply String.eqb_neq.
Qed.

Lemma nonEmpty_spec (x : item) :
  Validator.nonEmpty x = true ↔ title x ≠ "" ∧ prompt x ≠ "".
Proof.
  unfold Validator.nonEmpty. by rewrite andb_true_iff, !truthy_string_true.
Qed.

(** The array written by the pipeline, read off its definition. *)
Lemma pipeline_output (data : list value) (out : list item) :
  Validator.pipeline data = Some out →
  ∃ cleaned,
    Validator.clean_from 0 data = Some cleaned
    ∧ out = sort Validator.compare
              (dedupe Validator.key ∅
                 (filter (λ x, Validator.nonEmpty x = true) cleaned)).
Proof.
  unfold Validator.pipeline.
  destruct (Validator.clean_from 0 data) as [cleaned|]; simpl; [|done].
  intros [= <-]. exists cleaned. by rewrite uniqBy_dedupe.
Qed.

Lemma pipeline_elem (data : list value) (out : list item) (x : item) :
  Validator.pipeline data = Some out → x ∈ out →
  Validator.nonEmpty x = true
  ∧ ∃ i it, data !! i = Some it ∧ Validator.clean i it = Some x.
Proof.
  intros (cleaned & Hclean & ->)%pipeline_output Hx.
  rewrite sort_perm in Hx. apply dedupe_elem in Hx as [Hx _].
  apply list_elem_of_filter in Hx as [Hne Hx]. split; [done|].
  apply list_elem_of_lookup in Hx as [j Hj].
  destruct (proj1 (clean_from_lookup 0 data cleaned Hclean j) x Hj) as (it & ? & ?).
  by exists j, it.
Qed.

Lemma pipeline_NoDup (data : list value) (out : list item) :
  Validator.pipeline data = Some out → NoDup (Validator.key <$> out).
Proof.
  intros (cleaned & _ & ->)%pipeline_output.
  rewrite sort_perm. apply dedupe_NoDup.
Qed.

Lemma pipeline_sorted (data : list value) (out : list item) :
  Validator.pipeline data = Some out →
  StronglySorted (before Validator.compare) out.
Proof.
  intros (cleaned & _ & ->)%pipeline_output.
  apply sort_StronglySorted;
    [apply validator_before_total | apply validator_before_trans].
Qed.

Lemma pipeline_represents (data : list value) (out : list item) i it x :
  Validator.pipeline data = Some out →
  data !! i = Some it → Validator.clean i it = Some x →
  Validator.nonEmpty x = true →
  ∃ y, y ∈ out ∧ Validator.key y = Validator.key x.
Proof.
  intros (cleaned & Hclean & ->)%pipeline_output Hit Hx Hne.
  destruct (proj2 (clean_from_lookup 0 data cleaned Hclean i) it Hit)
    as (x' & Hx' & Hcl).
  simpl in Hcl. rewrite Hx in Hcl. injection Hcl as <-.
  destruct (dedupe_represents Validator.key ∅
              (filter (λ x, Validator.nonEmpty x = true) cleaned) x)
    as (y & Hy & Hk); [|set_solver|].
  - apply list_elem_of_filter. split; [done|]. by eapply list_elem_of_lookup_2.
  - exists y. split; [|done]. by rewrite sort_perm.
Qed.

End ValidatorFacts.

(** A record without a title is not dropped: it is written under the
    title [Untitled]. *)
Lemma validator_keeps_untitled_record :
  get (VObject [("prompt", VString "write a poem")]) "title" = VUndefined
  ∧ Validator.main (VArray [VObject [("prompt", VString "write a poem")]])
    = Some [ {| id := "id-0"; category := "General"; title := "Untitled";
                tags := []; rating := 5; price := 99; buyUrl := "";
                prompt := "write a poem" |} ].
Proof. vm_compute. split; reflexivity. Qed.

(** C6, amended.  Of the records the validator reads, those that survive
    have a title and a body that are not empty after coercion; a record
    whose body is missing or empty is dropped; a record whose title is
    missing or empty is not dropped for that: it is cleaned to the title
    [Untitled] and, if it has a body, it or an earlier record with the
    same lower-cased [title + "::" + body] survives.  Records with the
    same lower-cased [title + "::" + body] are collapsed into one, and the
    survivors are written in (category, title) order. *)
Theorem validator_output `{JsStringLaws} (d : value) (data : list value) (out : list item) :
  Validator.items_of d = Some data →
  Validator.main d = Some out →
  (∀ x, x ∈ out →
     title x ≠ "" ∧ prompt x ≠ ""
     ∧ ∃ i it, data !! i = Some it ∧ Validator.clean i it = Some x)
  ∧ (∀ i it x, data !! i = Some it → Validator.clean i it = Some x →
       truthy (get it "prompt") = false → prompt x = "" ∧ x ∉ out)
  ∧ (∀ i it x, data !! i = Some it → Validator.clean i it = Some x →
       truthy (get it "title") = false →
       title x = "Untitled"
       ∧ (prompt x ≠ "" → ∃ y, y ∈ out ∧ Validator.key y = Validator.key x))
  ∧ (∀ i it x, data !! i = Some it → Validator.clean i it = Some x →
       title x ≠ "" → prompt x ≠ "" →
       ∃ y, y ∈ out ∧ Validator.key y = Validator.key x)
  ∧ NoDup (Validator.key <$> out)
  ∧ StronglySorted (before Validator.compare) out.
Proof.
  intros Hitems Hmain. unfold Validator.main in Hmain.
  rewrite Hitems in Hmain. simpl in Hmain.
  assert (∀ x, x ∈ out → title x ≠ "" ∧ prompt x ≠ "") as Hfull.
  { intros x Hx. apply nonEmpty_spec. by eapply pipeline_elem. }
  split; [|split; [|split; [|split; [|split]]]].
  - intros x Hx. destruct (Hfull x Hx). repeat split; try done.
    by eapply pipeline_elem.
  - intros i it x Hit Hx Hp.
    pose proof (clean_no_prompt i it x Hx Hp) as Hempty.
    split; [done|]. intros Hin. by destruct (Hfull x Hin).
  - intros i it x Hit Hx Ht.
    pose proof (clean_no_title i it x Hx Ht) as Htitle.
    split; [done|]. intros Hp. eapply pipeline_represents; try done.
    apply nonEmpty_spec. by rewrite Htitle.
  - intros i it x Hit Hx Ht Hp. eapply pipeline_represents; try done.
    by apply nonEmpty_spec.
  - by eapply pipeline_NoDup.
  - by eapply pipeline_sorted.
Qed.

Lemma validator_output_witness :
  NoDup (Validator.key <$>
           [ {| id := "id-0"; category := "General"; title := "Untitled";
                tags := []; rating := 5; price := 99; buyUrl := "";
                prompt := "write a poem" |} ])
  ∧ StronglySorted (before Validator.compare)
      [ {| id := "id-0"; category := "General"; title := "Untitled";
           tags := []; rating := 5; price := 99; buyUrl := "";
           prompt := "write a poem" |} ].
Proof.
  exact (proj2 (proj2 (proj2 (proj2
    (validator_output
       (VArray [VObject [("prompt", VString "write a poem")];
                VObject [("title", VString "No body")]])
       [VObject [("prompt", VString "write a poem")];
        VObject [("title", VString "No body")]]
       _ eq_refl eq_refl))))).
Defined.

Example validator_run :
  Validator.main
    (VArray [ VObject [("prompt", VString "  write a poem ")];
              VObject [("title", VString "Hello"); ("prompt", VString "WRITE a poem")];
              VObject [("title", VString "hello"); ("prompt", VString "write a poem");
                       ("category", VString "Copy")];
              VObject [("title", VString "No body")] ])
  = Some [ {| id := "id-1"; category := "General"; title := "Hello";
              tags := []; rating := 5; price := 99; buyUrl := "";
              prompt := "WRITE a poem" |};
           {| id := "id-0"; category := "General"; title := "Untitled";
              tags := []; rating := 5; price := 99; buyUrl := "";
              prompt := "write a poem" |} ].
Proof. vm_compute. reflexivity. Qed.

(** ** Running the validator on its own output *)

Section Idempotence.
Context `{JsStringLaws}.

(** A cleaned item is read back as itself once its identifier, category
    and title are not empty and its link and body are trimmed. *)
Lemma clean_item_to_value (i : nat) (x : item) :
  id x ≠ "" → category x ≠ "" → title x ≠ "" →
  trim (buyUrl x) = buyUrl x → trim (prompt x) = prompt x →
  Validator.clean i (item_to_value x) = Some x.
Proof.
  intros Hid Hcat Htitle Hurl Hprompt. destruct x as [xi xc xt xg xr xp xu xb].
  simpl in *. unfold Validator.clean, item_to_value.
  apply truthy_string_true in Hid, Hcat, Htitle.
  cbn [get field]. repeat (rewrite decide_False by done || rewrite decide_True by done).
  cbn [get field]. unfold or_value. cbn [truthy String_value].
  rewrite Hid, Hcat, Htitle. cbn [mbind option_bind].
  assert (mapM String_value (VString <$> xg) = Some xg) as ->.
  { by apply mapM_fmap_Some. }
  assert (∀ s, String_value (if truthy_string s then VString s else VString "")
               = Some s) as Htext.
  { intros s. destruct (truthy_string s) eqn:Hts; [done|].
    unfold truthy_string in Hts. apply negb_false_iff, String.eqb_eq in Hts.
    by subst s. }
  rewrite !Htext. cbn [mbind option_bind]. by rewrite Hurl, Hprompt.
Qed.

Lemma clean_from_items (i : nat) (out : list item) :
  (∀ x, x ∈ out →
     id x ≠ "" ∧ category x ≠ "" ∧ title x ≠ ""
     ∧ trim (buyUrl x) = buyUrl x ∧ trim (prompt x) = prompt x) →
  Validator.clean_from i (item_to_value <$> out) = Some out.
Proof.
  revert i. induction out as [|x out IH]; intros i Hout; [done|].
  cbn [fmap list_fmap Validator.clean_from].
  destruct (Hout x) as (? & ? & ? & ? & ?); [by left|].
  rewrite clean_item_to_value by done. simpl.
  rewrite IH; [done|]. intros y Hy. apply Hout. by right.
Qed.

End Idempotence.

(** An identifier given as the empty array is written as the empty
    string, and the next run replaces it by [id-0]. *)
Lemma validator_rewrites_empty_id :
  Validator.main
    (VArray [VObject [("id", VArray []); ("title", VString "hello");
                      ("prompt", VString "write a poem")]])
  = Some [ {| id := ""; category := "General"; title := "hello";
              tags := []; rating := 5; price := 99; buyUrl := "";
              prompt := "write a poem" |} ]
  ∧ Validator.main
      (VArray (item_to_value <$>
                 [ {| id := ""; category := "General"; title := "hello";
                      tags := []; rating := 5; price := 99; buyUrl := "";
                      prompt := "write a poem" |} ]))
    = Some [ {| id := "id-0"; category := "General"; title := "hello";
                tags := []; rating := 5; price := 99; buyUrl := "";
                prompt := "write a poem" |} ].
Proof. vm_compute. split; reflexivity. Qed.

(** C10, amended.  When the validator has written an array in which no
    record has an empty identifier or an empty category, running its
    pipeline on that array writes the same array again. *)
Theorem validator_idempotent `{JsStringLaws} (d : value) (out : list item) :
  Validator.main d = Some out →
  (∀ x, x ∈ out → id x ≠ "" ∧ category x ≠ "") →
  Validator.main (VArray (item_to_value <$> out)) = Some out.
Proof.
  intros Hmain Hids. unfold Validator.main in *.
  destruct (Validator.items_of d) as [data|]; simpl in *; [|done].
  unfold Validator.pipeline.
  rewrite clean_from_items; simpl.
  - f_equal. rewrite uniqBy_dedupe.
    rewrite filter_all by (intros x Hx; by eapply pipeline_elem).
    rewrite dedupe_id by (by eapply pipeline_NoDup).
    apply sort_sorted_id. eapply StronglySorted_Sorted, pipeline_sorted. done.
  - intros x Hx. destruct (Hids x Hx) as [Hid Hcat].
    destruct (pipeline_elem data out x Hmain Hx) as (Hne & i & it & _ & Hclean).
    apply nonEmpty_spec in Hne as [Htitle _].
    destruct (clean_trimmed i it x Hclean). done.
Qed.

Lemma validator_idempotent_witness :
  Validator.main
    (VArray (item_to_value <$>
               [ {| id := "id-1"; category := "General"; title := "Hello";
                    tags := []; rating := 5; price := 99; buyUrl := "";
                    prompt := "WRITE a poem" |};
                 {| id := "id-0"; category := "General"; title := "Untitled";
                    tags := []; rating := 5; price := 99; buyUrl := "";
                    prompt := "write a poem" |} ]))
  = Some [ {| id := "id-1"; category := "General"; title := "Hello";
              tags := []; rating := 5; price := 99; buyUrl := "";
              prompt := "WRITE a poem" |};
           {| id := "id-0"; category := "General"; title := "Untitled";
              tags := []; rating := 5; price := 99; buyUrl := "";
              prompt := "write a poem" |} ].
Proof.
  refine (validator_idempotent
    (VArray [ VObject [("prompt", VString "  write a poem ")];
              VObject [("title", VString "Hello"); ("prompt", VString "WRITE a poem")];
              VObject [("title", VString "hello"); ("prompt", VString "write a poem");
                       ("category", VString "Copy")];
              VObject [("title", VString "No body")] ])
    _ eq_refl _).
  intros x Hx.
  apply elem_of_cons in Hx as [->|Hx]; [split; discriminate|].
  apply list_elem_of_singleton in Hx as ->. split; discriminate.
Defined.

(** ** Where an empty identifier or category comes from *)

Lemma pretty_N_go_length (x : N) (s : string) :
  (String.length s ≤ String.length (pretty_N_go x s))%nat.
Proof.
  revert s. induction (N.lt_wf_0 x) as [x _ IH]; intros s.
  destruct (decide (x = 0)%N) as [->|Hx]; [by rewrite pretty_N_go_0|].
  rewrite pretty_N_go_step by lia.
  etrans; [|apply IH, N.div_lt; lia]. simpl. lia.
Qed.

Lemma pretty_N_nonempty (x : N) : pretty x ≠ "".
Proof.
  unfold pretty, pretty_N. destruct (decide (x = 0)%N) as [->|Hx]; [done|].
  rewrite pretty_N_go_step by lia. intros Hempty.
  pose proof (pretty_N_go_length (x `div` 10)
                (String (pretty_N_char (x `mod` 10)) "")) as Hlen.
  rewrite Hempty in Hlen. simpl in Hlen. lia.
Qed.

Lemma pretty_Z_nonempty (n : Z) : pretty n ≠ "".
Proof.
  destruct n as [|p|p]; [done| |done].
  apply (pretty_N_nonempty (Npos p)).
Qed.

(** Among the truthy values only arrays print as the empty string. *)
Lemma String_value_empty (v : value) :
  truthy v = true → String_value v = Some "" → ∃ elements, v = VArray elements.
Proof.
  destruct v as [| |[]|n|s|l|fs]; simpl; try done.
  - intros _ [= Hn]. by destruct (pretty_Z_nonempty n).
  - intros Hs [= ->]. done.
  - intros _ _. by exists l.
  - intros _. by destruct (bool_decide _).
Qed.

Lemma clean_id_category_eq `{JsString} (i : nat) (it : value) (x : item) :
  Validator.clean i it = Some x →
  String_value (or_value (get it "id") (VString ("id-" +:+ pretty i))) = Some (id x)
  ∧ String_value (or_value (get it "category") (VString "General"))
    = Some (category x).
Proof.
  intros (Hid & Hcat & _)%clean_Some. done.
Qed.

(** A record whose identifier and category are no arrays is cleaned to a
    record with an identifier and a category that are not empty. *)
Lemma clean_id_category `{JsString} (i : nat) (it : value) (x : item) :
  Validator.clean i it = Some x →
  (∀ elements, get it "id" ≠ VArray elements) →
  (∀ elements, get it "category" ≠ VArray elements) →
  id x ≠ "" ∧ category x ≠ "".
Proof.
  intros Hx Hid Hcat.
  assert (∀ v s, (∀ elements, v ≠ VArray elements) → s ≠ "" →
            String_value (or_value v (VString s)) ≠ Some "") as Hdefault.
  { intros v s Hv Hs Hempty. unfold or_value in Hempty.
    destruct (truthy v) eqn:Hv'; [|by injection Hempty].
    destruct (String_value_empty v Hv' Hempty) as [l ->]. by destruct (Hv l). }
  destruct (clean_id_category_eq i it x Hx) as [Hi Hc].
  split; intros Hempty; rewrite Hempty in *.
  - by apply (Hdefault (get it "id") ("id-" +:+ pretty i)).
  - by apply (Hdefault (get it "category") "General").
Qed.

(** On ASCII text lower-casing goes through concatenation, so two records
    whose titles and bodies agree up to letter case have one validator key. *)
Lemma ascii_toLowerCase_app (a b : string) :
  ascii_toLowerCase (a +:+ b) = ascii_toLowerCase a +:+ ascii_toLowerCase b.
Proof. induction a as [|c a IH]; simpl; [done|]. by rewrite IH. Qed.

Lemma ascii_validator_key (x y : item) :
  ascii_toLowerCase (title x) = ascii_toLowerCase (title y) →
  ascii_toLowerCase (prompt x) = ascii_toLowerCase (prompt y) →
  Validator.key x = Validator.key y.
Proof.
  intros Ht Hp. unfold Validator.key. simpl.
  by rewrite !ascii_toLowerCase_app, Ht, Hp.
Qed.

(** * Further properties of the license service *)

(** ** The success page: [from-session] *)

(** X1.  The from-session route answers 400 exactly when the session_id
    parameter is missing or empty and 500 exactly when the lookup fails;
    a token it shows is the token of a License whose checkout session is
    the one asked for, with the status of that License; and a session
    that no License carries is answered [{ok: false}] with status 200. *)
Theorem from_session_answers (session_id : qparam) (e : env) (w : world) :
  (reply_status (from_session session_id e w) = 400
   ↔ truthy_qparam session_id = false)
  ∧ (reply_status (from_session session_id e w) = 500
     ↔ truthy_qparam session_id = true
       ∧ ∃ msg, select_license_maybeSingle (store_fault e 0)
                  (λ l, lic_session_id l = String_qparam session_id) w
                = PgError msg)
  ∧ (∀ token status,
       reply_body (from_session session_id e w) = SFound token status →
       reply_status (from_session session_id e w) = 200
       ∧ ∃ r, r ∈ licenses w
              ∧ lic_session_id r = String_qparam session_id
              ∧ lic_token r = token ∧ lic_status r = status)
  ∧ (truthy_qparam session_id = true →
     store_fault e 0 = None →
     (∀ l, l ∈ licenses w → lic_session_id l ≠ String_qparam session_id) →
     from_session session_id e w = {| reply_status := 200; reply_body := SNotOk |}).
Proof.
  unfold from_session.
  destruct (truthy_qparam session_id); simpl.
  2: { split; [by split|]. split; [split; [discriminate | by intros [? _]]|].
       split; [intros ? ? ?; discriminate | discriminate]. }
  destruct (select_license_maybeSingle _ _ w) as [msg|[r|]] eqn:Hsel; simpl.
  - split; [split; discriminate|].
    split; [split; [intros _; split; [done | by exists msg] | done]|].
    split; [intros ? ? ?; discriminate|].
    intros _ Hfault Hnone. unfold select_license_maybeSingle in Hsel.
    rewrite Hfault, (proj2 (filter_none_iff _ _) Hnone) in Hsel. discriminate.
  - split; [split; discriminate|].
    split; [split; [discriminate | by intros [_ [msg ?]]]|].
    unfold select_license_maybeSingle in Hsel.
    destruct (store_fault e 0); [done|].
    destruct (filter _ (licenses w)) as [|r0 [|r' rest]] eqn:Hrows;
      simpl in Hsel; try done.
    injection Hsel as ->.
    apply filter_singleton_elem in Hrows as [Hin Hs]. split.
    + intros token status [= <- <-]. split; [done|]. by exists r.
    + intros _ _ Hnone. by destruct (Hnone r Hin).
  - split; [split; discriminate|].
    split; [split; [discriminate | by intros [_ [msg ?]]]|].
    split; [intros ? ? ?; discriminate | done].
Qed.

Lemma from_session_answers_witness :
  from_session (QString "cs_unknown") demo_env demo_world
  = {| reply_status := 200; reply_body := SNotOk |}.
Proof.
  refine (proj2 (proj2 (proj2 (from_session_answers (QString "cs_unknown")
                                 demo_env demo_world))) eq_refl eq_refl _).
  intros l Hl. apply list_elem_of_singleton in Hl as ->. discriminate.
Defined.

(** ** What a completed checkout leaves behind *)

Lemma set_licenses_id (w : world) : set_licenses (licenses w) w = w.
Proof. by destruct w. Qed.

Lemma update_rows_none (P : license → Prop) `{∀ l, Decision (P l)}
    (f : license → license) (ls : list license) :
  (∀ l, l ∈ ls → ¬ P l) → update_rows P f ls = ls.
Proof.
  intros Hnone. unfold update_rows. rewrite <- (list_fmap_id ls) at 2.
  apply list_fmap_ext. intros i l Hl. simpl.
  rewrite decide_False; [done|]. apply Hnone. by eapply list_elem_of_lookup_2.
Qed.

(** Selecting with [Q] after an update of the rows [P]: when the update
    turns every row it touches into a [Q]-row and no other row is one,
    the selection is the updated rows. *)
Lemma filter_update_rows (Q P : license → Prop)
    `{∀ l, Decision (Q l)} `{∀ l, Decision (P l)}
    (f : license → license) (ls : list license) :
  (∀ l, l ∈ ls → P l → Q (f l)) →
  (∀ l, l ∈ ls → ¬ P l → ¬ Q l) →
  filter Q (update_rows P f ls) = f <$> filter P ls.
Proof.
  induction ls as [|a ls IH]; intros Hin Hout; [done|].
  unfold update_rows in *. cbn [fmap list_fmap]. rewrite (filter_cons P).
  assert (filter Q ((λ l, if decide (P l) then f l else l) <$> ls)
          = f <$> filter P ls) as IH'.
  { apply IH; intros l Hl; [apply Hin | apply Hout]; by right. }
  destruct (decide (P a)) as [Ha|Ha].
  - rewrite filter_cons_True by (apply Hin; [by left | done]).
    by rewrite IH'.
  - rewrite filter_cons_False by (apply Hout; [by left | done]). done.
Qed.

Lemma NoDup_fmap_elem_eq {A B} (g : A → B) (l : list A) (a b : A) :
  NoDup (g <$> l) → a ∈ l → b ∈ l → g a = g b → a = b.
Proof.
  induction l as [|x l IH]; simpl; intros Hnodup Ha Hb Hg.
  - by apply elem_of_nil in Ha.
  - apply NoDup_cons in Hnodup as [Hx Hnodup].
    apply elem_of_cons in Ha as [->|Ha], Hb as [->|Hb]; try done.
    + destruct Hx. rewrite Hg. apply list_elem_of_fmap. by exists b.
    + destruct Hx. rewrite <- Hg. apply list_elem_of_fmap. by exists a.
    + by apply IH.
Qed.

(** [createOrUpdateLicense], in full: a call that throws leaves the world
    as it was; a call that returns [r] has appended [r] for a subscription
    without a row, or renewed the one row of the subscription. *)
Lemma createOrUpdateLicense_effect e cid s st pe sess w :
  let o := (createOrUpdateLicense e cid s st pe sess w).1 in
  let w' := (createOrUpdateLicense e cid s st pe sess w).2 in
  match o with
  | Throw _ => w' = w
  | Return r =>
      customers w' = customers w ∧ outbox w' = outbox w
      ∧ ((filter (λ l, lic_stripe_subscription_id l = s) (licenses w) = []
          ∧ licenses w' = licenses w ++ [r]
          ∧ r = {| lic_id := next_id w; lic_customer_id := cid;
                   lic_token := fresh_token e; lic_status := st;
                   lic_current_period_end := pe;
                   lic_stripe_subscription_id := s;
                   lic_tier := "all-access"; lic_session_id := sess |})
         ∨ ∃ ex,
             filter (λ l, lic_stripe_subscription_id l = s) (licenses w) = [ex]
             ∧ renew st pe sess <$> filter (λ l, lic_id l = lic_id ex) (licenses w) = [r]
             ∧ licenses w' = update_rows (λ l, lic_id l = lic_id ex)
                               (renew st pe sess) (licenses w))
  end.
Proof.
  unfold createOrUpdateLicense, mbind, M_bind, data_or_throw, query,
    select_license_maybeSingle.
  destruct (store_fault e 1) as [msg|]; simpl; [done|].
  destruct (filter _ (licenses w)) as [|ex [|ex' rest]] eqn:Hfind; simpl; [| |done].
  - unfold insert_license_single.
    destruct (store_fault e 2) as [msg|]; simpl; [done|].
    split; [done|]. split; [done|]. left. done.
  - unfold update_license_single.
    destruct (store_fault e 2) as [msg|]; simpl; [done|].
    fold (renew st pe sess).
    destruct (renew st pe sess <$> filter _ (licenses w)) as [|r [|r' rest]] eqn:Hupd;
      simpl; [done| |done].
    split; [done|]. split; [done|]. right. by exists ex.
Qed.

(** A completed subscription checkout that is answered [{received: true}]
    has left one row [r] with the data of the event, appended or renewed
    in place, and has handed the mail for [r] to the provider. *)
Lemma checkout_received_effect cfg constructEvent raw_body sig e w session sub :
  constructEvent raw_body sig (STRIPE_WEBHOOK_SECRET cfg)
    = inr (CheckoutSessionCompleted session) →
  cs_mode session = "subscription" →
  stripe_retrieve e (cs_subscription session) = inr sub →
  (webhook cfg constructEvent raw_body sig e w).1 = json BReceived →
  let w' := (webhook cfg constructEvent raw_body sig e w).2 in
  let pe := (sub_current_period_end sub * 1000)%Z in
  ∃ r,
    lic_stripe_subscription_id r = sub_id sub
    ∧ lic_status r = sub_status sub
    ∧ lic_current_period_end r = pe
    ∧ lic_session_id r = cs_id session
    ∧ ((filter (λ l, lic_stripe_subscription_id l = sub_id sub) (licenses w) = []
        ∧ licenses w' = licenses w ++ [r]
        ∧ lic_token r = fresh_token e
        ∧ lic_tier r = "all-access")
       ∨ ∃ ex,
           filter (λ l, lic_stripe_subscription_id l = sub_id sub) (licenses w) = [ex]
           ∧ renew (sub_status sub) pe (cs_id session)
               <$> filter (λ l, lic_id l = lic_id ex) (licenses w) = [r]
           ∧ licenses w' = update_rows (λ l, lic_id l = lic_id ex)
                             (renew (sub_status sub) pe (cs_id session)) (licenses w))
    ∧ outbox w' = outbox w ++ sent cfg (checkout_mail cfg session sub r).
Proof.
  intros Hev Hmode Hsub. unfold webhook. rewrite Hev.
  unfold handle_event. rewrite Hmode, Hsub. simpl. unfold mbind, M_bind.
  pose proof (upsertCustomer_licenses e
    (or_string (cs_customer_details_email session) (sub_customer_email sub))
    (customer_id_of (cs_customer session)) w) as [Hl1 Ho1].
  destruct (upsertCustomer _ _ _ w) as [[c|msg] w1]; simpl in *; [|done].
  unfold toISOString.
  destruct (decide _) as [Hrange|Hrange]; simpl; [|done].
  pose proof (createOrUpdateLicense_effect e (cust_id c) (sub_id sub)
    (sub_status sub) (sub_current_period_end sub * 1000)%Z (cs_id session) w1)
    as Heff.
  pose proof (createOrUpdateLicense_returned e (cust_id c) (sub_id sub)
    (sub_status sub) (sub_current_period_end sub * 1000)%Z (cs_id session) w1)
    as Hret.
  destruct (createOrUpdateLicense _ _ _ _ _ _ w1) as [[r|msg] w2];
    simpl in *; [|done].
  destruct (Hret r eq_refl) as (_ & Hs & Hst & Hpe & Hsess).
  destruct Heff as (_ & Ho2 & Heff). rewrite Hl1 in Heff.
  fold (checkout_mail cfg session sub r). unfold emailSend, sent.
  destruct (or_string (RESEND_API_KEY cfg) None) as [key|]; simpl.
  - destruct (email_failure e); simpl; [done|]. intros _. exists r.
    repeat (split; [done|]). split.
    + destruct Heff as [(Hnone & Happ & ->)|(ex & ? & ? & ?)]; [left | right].
      * done.
      * by exists ex.
    + by rewrite Ho2, Ho1.
  - intros _. exists r. repeat (split; [done|]). split.
    + destruct Heff as [(Hnone & Happ & ->)|(ex & ? & ? & ?)]; [left | right].
      * done.
      * by exists ex.
    + by rewrite app_nil_r, Ho2, Ho1.
Qed.

(** X2.  After a completed subscription checkout that the webhook has
    answered [{received: true}], the from-session route shows, for the
    session of that checkout, the token of the License of the
    subscription and the status Stripe reported, provided the store
    answers and no License of another subscription carries that session. *)
Theorem checkout_then_from_session
    (cfg : config) (constructEvent : string → option string → option string → string + event)
    (raw_body : string) (sig : option string) (e e' : env) (w : world)
    (session : checkout_session) (sub : subscription) :
  constructEvent raw_body sig (STRIPE_WEBHOOK_SECRET cfg)
    = inr (CheckoutSessionCompleted session) →
  cs_mode session = "subscription" →
  stripe_retrieve e (cs_subscription session) = inr sub →
  (webhook cfg constructEvent raw_body sig e w).1 = json BReceived →
  (∀ l, l ∈ licenses w → lic_session_id l = cs_id session →
        lic_stripe_subscription_id l = sub_id sub) →
  cs_id session ≠ "" →
  store_fault e' 0 = None →
  ∃ r, r ∈ licenses (webhook cfg constructEvent raw_body sig e w).2
       ∧ lic_stripe_subscription_id r = sub_id sub
       ∧ from_session (QString (cs_id session)) e'
           (webhook cfg constructEvent raw_body sig e w).2
         = {| reply_status := 200;
              reply_body := SFound (lic_token r) (sub_status sub) |}.
Proof.
  intros Hev Hmode Hsub Hok Hsess Hid Hfault.
  destruct (checkout_received_effect cfg constructEvent raw_body sig e w
              session sub Hev Hmode Hsub Hok)
    as (r & Hs & Hst & _ & Hrs & Hrows & _).
  set (w' := (webhook cfg constructEvent raw_body sig e w).2) in *.
  assert (filter (λ l, lic_session_id l = cs_id session) (licenses w') = [r])
    as Hsel.
  { destruct Hrows as [(Hnone & -> & _)|(ex & Hex & Hupd & ->)].
    - rewrite filter_app, filter_cons_True, filter_nil by done.
      rewrite (proj2 (filter_none_iff _ (licenses w))); [done|].
      intros l Hl Hls.
      apply (proj1 (filter_none_iff _ _) Hnone l Hl). by apply Hsess.
    - rewrite filter_update_rows; [done|done|].
      intros l Hl Hne Hls. apply Hne.
      assert (l ∈ filter (λ l, lic_stripe_subscription_id l = sub_id sub)
                    (licenses w)) as Hin
        by (apply list_elem_of_filter; split; [by apply Hsess | done]).
      rewrite Hex in Hin. by apply list_elem_of_singleton in Hin as ->. }
  exists r. split; [|split; [done|]].
  - assert (r ∈ filter (λ l, lic_session_id l = cs_id session) (licenses w'))
      as Hin by (rewrite Hsel; by left).
    by apply list_elem_of_filter in Hin as [_ Hin].
  - unfold from_session, select_license_maybeSingle. simpl.
    apply truthy_string_true in Hid. rewrite Hid, Hfault. simpl.
    rewrite Hsel. simpl. by rewrite Hst.
Qed.

Lemma checkout_then_from_session_witness :
  ∃ r, r ∈ licenses (webhook demo_config demo_constructEvent "{}" (Some "good")
                       demo_env empty_world).2
       ∧ lic_stripe_subscription_id r = "sub_1"
       ∧ from_session (QString "cs_1") demo_env
           (webhook demo_config demo_constructEvent "{}" (Some "good")
              demo_env empty_world).2
         = {| reply_status := 200; reply_body := SFound (lic_token r) "active" |}.
Proof.
  refine (checkout_then_from_session demo_config demo_constructEvent "{}"
            (Some "good") demo_env demo_env empty_world demo_session
            demo_subscription eq_refl eq_refl eq_refl eq_refl _ _ eq_refl).
  - intros l Hl. by apply elem_of_nil in Hl.
  - discriminate.
Defined.

(** X3.  After such a checkout the token of the License of the
    subscription verifies: the verify route answers 200 with [ok] set by
    the status Stripe reported and with the period end of the
    subscription, provided the tokens in the store were distinct and not
    empty and the token drawn for the request is new and not empty. *)
Theorem checkout_then_verify
    (cfg : config) (constructEvent : string → option string → option string → string + event)
    (raw_body : string) (sig : option string) (e e' : env) (w : world)
    (session : checkout_session) (sub : subscription) :
  constructEvent raw_body sig (STRIPE_WEBHOOK_SECRET cfg)
    = inr (CheckoutSessionCompleted session) →
  cs_mode session = "subscription" →
  stripe_retrieve e (cs_subscription session) = inr sub →
  (webhook cfg constructEvent raw_body sig e w).1 = json BReceived →
  tokens_distinct w →
  fresh_token e ≠ "" →
  fresh_token e ∉ lic_token <$> licenses w →
  store_fault e' 0 = None →
  ∃ r, r ∈ licenses (webhook cfg constructEvent raw_body sig e w).2
       ∧ lic_stripe_subscription_id r = sub_id sub
       ∧ verify (QString (lic_token r)) e'
           (webhook cfg constructEvent raw_body sig e w).2
         = json (BVerify (entitled (sub_status sub)) (lic_tier r)
                   (sub_current_period_end sub * 1000)).
Proof.
  intros Hev Hmode Hsub Hok [Hnodup Hfull] Hfresh Hnew Hfault.
  destruct (checkout_received_effect cfg constructEvent raw_body sig e w
              session sub Hev Hmode Hsub Hok)
    as (r & Hs & Hst & Hpe & _ & Hrows & _).
  set (w' := (webhook cfg constructEvent raw_body sig e w).2) in *.
  assert (filter (λ l, lic_token l = lic_token r) (licenses w') = [r]
          ∧ lic_token r ≠ "") as [Hsel Htok].
  { destruct Hrows as [(Hnone & -> & Htok & _)|(ex & Hex & Hupd & ->)].
    - split; [|by rewrite Htok].
      rewrite filter_app, filter_cons_True, filter_nil by done.
      rewrite (proj2 (filter_none_iff _ (licenses w))); [done|].
      intros l Hl Hlt. apply Hnew. rewrite <- Htok, <- Hlt.
      apply list_elem_of_fmap. by exists l.
    - apply fmap_cons_inv in Hupd as (old & olds & -> & Hnil & Hold).
      symmetry in Hnil. apply fmap_nil_inv in Hnil as ->.
      apply filter_singleton_elem in Hold as Hin. destruct Hin as [Hin Hid].
      split; [|simpl; by apply Hfull].
      rewrite filter_update_rows; [by rewrite Hold| |].
      + intros l Hl Hlid.
        assert (l ∈ filter (λ l, lic_id l = lic_id ex) (licenses w)) as Hlin
          by (by apply list_elem_of_filter).
        rewrite Hold in Hlin. by apply list_elem_of_singleton in Hlin as ->.
      + intros l Hl Hne Hlt. apply Hne. simpl in Hlt.
        by rewrite (NoDup_fmap_elem_eq lic_token (licenses w) l old Hnodup Hl Hin Hlt). }
  exists r. split; [|split; [done|]].
  - assert (r ∈ filter (λ l, lic_token l = lic_token r) (licenses w'))
      as Hin by (rewrite Hsel; by left).
    by apply list_elem_of_filter in Hin as [_ Hin].
  - unfold verify, select_license_maybeSingle. simpl.
    apply truthy_string_true in Htok. rewrite Htok, Hfault. simpl.
    rewrite Hsel. simpl. by rewrite Hst, Hpe.
Qed.

Lemma checkout_then_verify_witness :
  ∃ r, r ∈ licenses (webhook demo_config demo_constructEvent "{}" (Some "good")
                       demo_env empty_world).2
       ∧ lic_stripe_subscription_id r = "sub_1"
       ∧ verify (QString (lic_token r)) demo_env
           (webhook demo_config demo_constructEvent "{}" (Some "good")
              demo_env empty_world).2
         = json (BVerify (entitled "active") (lic_tier r) (1700000000 * 1000)).
Proof.
  refine (checkout_then_verify demo_config demo_constructEvent "{}"
            (Some "good") demo_env demo_env empty_world demo_session
            demo_subscription eq_refl eq_refl eq_refl eq_refl _ _ _ eq_refl).
  - split; [apply NoDup_nil_2|]. intros l Hl. by apply elem_of_nil in Hl.
  - discriminate.
  - intros Hin. by apply elem_of_nil in Hin.
Defined.

(** X4.  A completed subscription checkout that is answered
    [{received: true}] has handed exactly one mail to the provider when a
    mail key is configured, addressed to the buyer and carrying the token
    of the License row of the subscription, and none when no key is
    configured. *)
Theorem checkout_mail_carries_token
    (cfg : config) (constructEvent : string → option string → option string → string + event)
    (raw_body : string) (sig : option string) (e : env) (w : world)
    (session : checkout_session) (sub : subscription) :
  constructEvent raw_body sig (STRIPE_WEBHOOK_SECRET cfg)
    = inr (CheckoutSessionCompleted session) →
  cs_mode session = "subscription" →
  stripe_retrieve e (cs_subscription session) = inr sub →
  (webhook cfg constructEvent raw_body sig e w).1 = json BReceived →
  ∃ r, r ∈ licenses (webhook cfg constructEvent raw_body sig e w).2
       ∧ lic_stripe_subscription_id r = sub_id sub
       ∧ outbox (webhook cfg constructEvent raw_body sig e w).2
         = outbox w ++
           match or_string (RESEND_API_KEY cfg) None with
           | Some _ =>
               [ {| mail_to := or_string (cs_customer_details_email session)
                                 (sub_customer_email sub);
                    mail_subject := BRAND_NAME cfg +:+ " — Your All-Access license key";
                    mail_license := lic_token r |} ]
           | None => []
           end.
Proof.
  intros Hev Hmode Hsub Hok.
  destruct (checkout_received_effect cfg constructEvent raw_body sig e w
              session sub Hev Hmode Hsub Hok)
    as (r & Hs & _ & _ & _ & Hrows & Hout).
  exists r. split; [|split; [done|]].
  - destruct Hrows as [(_ & -> & _)|(ex & _ & Hupd & ->)].
    + apply elem_of_app. right. by left.
    + apply fmap_cons_inv in Hupd as (old & olds & -> & Hnil & Hold).
      symmetry in Hnil. apply fmap_nil_inv in Hnil as ->.
      apply filter_singleton_elem in Hold as Hin. destruct Hin as [Hin Hid].
      unfold update_rows. apply list_elem_of_fmap. exists old.
      split; [|done]. by rewrite decide_True.
  - exact Hout.
Qed.

Lemma checkout_mail_carries_token_witness :
  ∃ r, r ∈ licenses (webhook demo_config demo_constructEvent "{}" (Some "good")
                       demo_env empty_world).2
       ∧ lic_stripe_subscription_id r = "sub_1"
       ∧ outbox (webhook demo_config demo_constructEvent "{}" (Some "good")
                   demo_env empty_world).2
         = [ {| mail_to := Some "ada@example.com";
                mail_subject := "PromptFoundry — Your All-Access license key";
                mail_license := lic_token r |} ].
Proof.
  exact (checkout_mail_carries_token demo_config demo_constructEvent "{}"
           (Some "good") demo_env empty_world demo_session demo_subscription
           eq_refl eq_refl eq_refl eq_refl).
Defined.

(** ** When the mail or the store fails *)

(** X5.  The mail provider decides nothing about the store: whatever the
    request, customers, licenses and the next identifier end up the same
    as with a provider that answers ok.  When the provider fails, a mail
    key is configured and the event is a completed subscription checkout,
    the request is answered 500 and the outbox is as it was. *)
Theorem mail_failure_keeps_store
    (cfg : config) (constructEvent : string → option string → option string → string + event)
    (raw_body : string) (sig : option string) (e : env) (w : world) :
  let failed := webhook cfg constructEvent raw_body sig e w in
  let mailed := webhook cfg constructEvent raw_body sig (mail_ok e) w in
  customers failed.2 = customers mailed.2
  ∧ licenses failed.2 = licenses mailed.2
  ∧ next_id failed.2 = next_id mailed.2
  ∧ (∀ text key session,
       email_failure e = Some text →
       or_string (RESEND_API_KEY cfg) None = Some key →
       constructEvent raw_body sig (STRIPE_WEBHOOK_SECRET cfg)
         = inr (CheckoutSessionCompleted session) →
       cs_mode session = "subscription" →
       failed.1 = status_send 500 "Webhook failed"
       ∧ outbox failed.2 = outbox w).
Proof.
  cbv zeta. unfold webhook.
  destruct (constructEvent _ _ _) as [msg|ev]; simpl.
  { do 3 (split; [done|]). intros ? ? ? _ _ ?. done. }
  destruct ev as [session|kind sub|inv|type].
  2: { unfold handle_event. simpl.
       destruct (_ ≫= _) as [[[]|?] ?]; do 3 (split; [done|]);
         intros ? ? ? _ _ ?; done. }
  2: { unfold handle_event. simpl.
       destruct (or_string _ _); do 3 (split; [done|]);
         intros ? ? ? _ _ ?; done. }
  2: { do 3 (split; [done|]). intros ? ? ? _ _ ?. done. }
  unfold handle_event. simpl.
  destruct (negb _) eqn:Hmode; simpl.
  { do 3 (split; [done|]). intros ? ? ? _ _ [= <-] Hm.
    rewrite Hm in Hmode. done. }
  unfold mbind, M_bind.
  destruct (stripe_retrieve e (cs_subscription session)) as [msg|sub]; simpl.
  { do 3 (split; [done|]). intros. done. }
  pose proof (upsertCustomer_licenses e
    (or_string (cs_customer_details_email session) (sub_customer_email sub))
    (customer_id_of (cs_customer session)) w) as [_ Ho1].
  change (upsertCustomer (mail_ok e)) with (upsertCustomer e).
  destruct (upsertCustomer _ _ _ w) as [[c|msg] w1]; simpl in *.
  2: { do 3 (split; [done|]). intros. done. }
  pose proof (toISOString_world (sub_current_period_end sub) w1) as Hw.
  destruct (toISOString _ w1) as [[pe|msg] w1']; simpl in *; subst w1'.
  2: { do 3 (split; [done|]). intros. done. }
  change (createOrUpdateLicense (mail_ok e)) with (createOrUpdateLicense e).
  pose proof (createOrUpdateLicense_effect e (cust_id c) (sub_id sub)
    (sub_status sub) pe (cs_id session) w1) as Heff.
  destruct (createOrUpdateLicense _ _ _ _ _ _ w1) as [[r|msg] w2]; simpl in *.
  2: { subst w2. do 3 (split; [done|]). intros. done. }
  destruct Heff as (_ & Ho2 & _).
  unfold emailSend. simpl.
  destruct (or_string (RESEND_API_KEY cfg) None) as [key|]; simpl.
  2: { do 3 (split; [done|]). intros. done. }
  destruct (email_failure e) as [text|]; simpl.
  - do 3 (split; [done|]). intros. split; [done|]. by rewrite Ho2, Ho1.
  - do 3 (split; [done|]). intros. done.
Qed.

Lemma mail_failure_keeps_store_witness :
  (webhook demo_config demo_constructEvent "{}" (Some "good")
     {| store_fault := λ _, None; stripe_retrieve := λ _, inr demo_subscription;
        fresh_token := "0123456789AB-DEADBEEF";
        email_failure := Some "rate limited" |} empty_world).1
  = status_send 500 "Webhook failed"
  ∧ outbox (webhook demo_config demo_constructEvent "{}" (Some "good")
     {| store_fault := λ _, None; stripe_retrieve := λ _, inr demo_subscription;
        fresh_token := "0123456789AB-DEADBEEF";
        email_failure := Some "rate limited" |} empty_world).2
    = outbox empty_world.
Proof.
  exact (proj2 (proj2 (proj2 (mail_failure_keeps_store demo_config
      demo_constructEvent "{}" (Some "good")
      {| store_fault := λ _, None; stripe_retrieve := λ _, inr demo_subscription;
         fresh_token := "0123456789AB-DEADBEEF";
         email_failure := Some "rate limited" |} empty_world)))
    "rate limited" "re_demo" demo_session eq_refl eq_refl eq_refl eq_refl).
Defined.

Example mail_failure_leaves_license :
  licenses (webhook demo_config demo_constructEvent "{}" (Some "good")
     {| store_fault := λ _, None; stripe_retrieve := λ _, inr demo_subscription;
        fresh_token := "0123456789AB-DEADBEEF";
        email_failure := Some "rate limited" |} empty_world).2
  = [demo_license].
Proof. vm_compute. reflexivity. Qed.



(** ** Subscription events and failed payments *)

Lemma filter_unique {A B} `{EqDecision B} (g : A → B) (ls : list A) (l : A) :
  NoDup (g <$> ls) → l ∈ ls → filter (λ x, g x = g l) ls = [l].
Proof.
  induction ls as [|a ls IH]; simpl; intros Hnodup Hl.
  - by apply elem_of_nil in Hl.
  - apply NoDup_cons in Hnodup as [Ha Hnodup]. rewrite filter_cons.
    apply elem_of_cons in Hl as [->|Hl].
    + rewrite decide_True by done. f_equal. apply filter_none_iff.
      intros x Hx Hg. apply Ha. rewrite <- Hg. apply list_elem_of_fmap. by exists x.
    + rewrite decide_False; [by apply IH|].
      intros Hg. apply Ha. rewrite Hg. apply list_elem_of_fmap. by exists l.
Qed.

(** Verifying the token of a row after the rows of its subscription were
    rewritten by [f], which keeps tokens. *)
Lemma verify_after_update (f : license → license) (e : env) (w : world) (l : license) :
  sub_unique w → tokens_distinct w → l ∈ licenses w →
  (∀ x, lic_token (f x) = lic_token x) →
  store_fault e 0 = None →
  verify (QString (lic_token l)) e
    (set_licenses
       (update_rows (λ x, lic_stripe_subscription_id x = lic_stripe_subscription_id l)
          f (licenses w)) w)
  = json (BVerify (entitled (lic_status (f l))) (lic_tier (f l))
            (lic_current_period_end (f l))).
Proof.
  intros Hsubs [Hnodup Hfull] Hl Hf Hfault.
  unfold verify, select_license_maybeSingle. simpl.
  pose proof (Hfull l Hl) as Htok. apply truthy_string_true in Htok.
  rewrite Htok, Hfault. simpl.
  rewrite filter_update_rows.
  - by rewrite (filter_unique lic_stripe_subscription_id (licenses w) l Hsubs Hl).
  - intros x Hx Hs. rewrite Hf.
    by rewrite (NoDup_fmap_elem_eq lic_stripe_subscription_id (licenses w)
                  x l Hsubs Hx Hl Hs).
  - intros x Hx Hne Ht. apply Hne.
    by rewrite (NoDup_fmap_elem_eq lic_token (licenses w) x l Hnodup Hx Hl Ht).
Qed.

(** What a subscription event that is answered [{received: true}] has
    done to the store. *)
Lemma subscription_event_received
    (cfg : config) (constructEvent : string → option string → option string → string + event)
    (raw_body : string) (sig : option string) (e : env) (w : world)
    (kind : subscription_event) (sub : subscription) :
  constructEvent raw_body sig (STRIPE_WEBHOOK_SECRET cfg)
    = inr (CustomerSubscription kind sub) →
  (webhook cfg constructEvent raw_body sig e w).1 = json BReceived →
  (webhook cfg constructEvent raw_body sig e w).2
  = set_licenses
      (update_rows (λ l, lic_stripe_subscription_id l = sub_id sub)
         (restate (sub_status sub) (sub_current_period_end sub * 1000)) (licenses w)) w.
Proof.
  intros Hev. unfold webhook. rewrite Hev.
  unfold handle_event, mbind, M_bind, toISOString, data_or_throw, update_licenses.
  fold (restate (sub_status sub) (sub_current_period_end sub * 1000)).
  destruct (decide (- max_time_ms ≤ sub_current_period_end sub * 1000 ≤ max_time_ms)%Z);
    simpl; [|done].
  by destruct (store_fault e 0).
Qed.

(** What a payment-failed event has done to the store when the invoice
    names a subscription and the store has accepted the update. *)
Lemma payment_failed_update
    (cfg : config) (constructEvent : string → option string → option string → string + event)
    (raw_body : string) (sig : option string) (e : env) (w : world)
    (inv : invoice) (s : string) :
  constructEvent raw_body sig (STRIPE_WEBHOOK_SECRET cfg)
    = inr (InvoicePaymentFailed inv) →
  or_string (inv_subscription inv) None = Some s →
  store_fault e 0 = None →
  (webhook cfg constructEvent raw_body sig e w).2
  = set_licenses
      (update_rows (λ l, lic_stripe_subscription_id l = s) mark_past_due (licenses w)) w.
Proof.
  intros Hev Hs Hfault. unfold webhook. rewrite Hev. unfold handle_event.
  rewrite Hs. simpl. unfold update_licenses. fold mark_past_due.
  by rewrite Hfault.
Qed.

(** X7.  A subscription event (updated, deleted, paused or resumed) is
    answered [{received: true}] exactly when its period end is a valid
    date and the store accepts the update; then every License row of the
    subscription carries the status and period end of the event and
    every other row, the customers and the outbox are untouched.
    Otherwise the answer is 500 and nothing has changed.  An event for a
    subscription without a License row changes nothing. *)
Theorem subscription_event_effect
    (cfg : config) (constructEvent : string → option string → option string → string + event)
    (raw_body : string) (sig : option string) (e : env) (w : world)
    (kind : subscription_event) (sub : subscription) :
  constructEvent raw_body sig (STRIPE_WEBHOOK_SECRET cfg)
    = inr (CustomerSubscription kind sub) →
  let answer := webhook cfg constructEvent raw_body sig e w in
  let pe := (sub_current_period_end sub * 1000)%Z in
  let valid := (- max_time_ms ≤ pe ≤ max_time_ms)%Z ∧ store_fault e 0 = None in
  (valid →
   answer.1 = json BReceived
   ∧ answer.2 = set_licenses
                  (update_rows (λ l, lic_stripe_subscription_id l = sub_id sub)
                     (restate (sub_status sub) pe) (licenses w)) w
   ∧ ∀ i l, licenses w !! i = Some l →
       licenses answer.2 !! i
       = Some (if decide (lic_stripe_subscription_id l = sub_id sub)
               then restate (sub_status sub) pe l else l))
  ∧ (¬ valid → answer.1 = status_send 500 "Webhook failed" ∧ answer.2 = w)
  ∧ ((∀ l, l ∈ licenses w → lic_stripe_subscription_id l ≠ sub_id sub) →
     answer.2 = w).
Proof.
  intros Hev. cbv zeta. unfold webhook. rewrite Hev.
  unfold handle_event, mbind, M_bind, toISOString, data_or_throw, update_licenses.
  fold (restate (sub_status sub) (sub_current_period_end sub * 1000)).
  destruct (decide (- max_time_ms ≤ sub_current_period_end sub * 1000 ≤ max_time_ms)%Z)
    as [Hrange|Hrange]; simpl.
  2: { split; [by intros [? _]|]. split; done. }
  destruct (store_fault e 0) as [msg|]; simpl.
  { split; [by intros [_ ?]|]. split; done. }
  split; [|split].
  - intros _. split; [done|]. split; [done|].
    intros i l Hl. unfold update_rows. by rewrite list_lookup_fmap, Hl.
  - intros Hnot. destruct Hnot. done.
  - intros Hnone. rewrite update_rows_none by done. apply set_licenses_id.
Qed.

Lemma subscription_event_effect_witness :
  (webhook demo_config demo_cancel_constructEvent "{}" (Some "t=1,v1=00")
     demo_env demo_world).1 = json BReceived
  ∧ licenses (webhook demo_config demo_cancel_constructEvent "{}" (Some "t=1,v1=00")
                demo_env demo_world).2 !! 0
    = Some (restate "canceled" (1700000000 * 1000) demo_license).
Proof.
  destruct (proj1 (subscription_event_effect demo_config demo_cancel_constructEvent
              "{}" (Some "t=1,v1=00") demo_env demo_world Updated _ eq_refl))
    as (Hok & _ & Hrows).
  - split; [done|reflexivity].
  - split; [exact Hok|]. exact (Hrows 0 demo_license eq_refl).
Defined.

(** X8.  After a subscription event that is answered
    [{received: true}], the verify route answers the token of a License
    of that subscription by the status of the event: a cancelled
    subscription is refused, a resumed one is entitled again. *)
Theorem subscription_event_then_verify
    (cfg : config) (constructEvent : string → option string → option string → string + event)
    (raw_body : string) (sig : option string) (e e' : env) (w : world)
    (kind : subscription_event) (sub : subscription) (l : license) :
  constructEvent raw_body sig (STRIPE_WEBHOOK_SECRET cfg)
    = inr (CustomerSubscription kind sub) →
  (webhook cfg constructEvent raw_body sig e w).1 = json BReceived →
  sub_unique w → tokens_distinct w →
  l ∈ licenses w → lic_stripe_subscription_id l = sub_id sub →
  store_fault e' 0 = None →
  verify (QString (lic_token l)) e' (webhook cfg constructEvent raw_body sig e w).2
  = json (BVerify (entitled (sub_status sub)) (lic_tier l)
            (sub_current_period_end sub * 1000)).
Proof.
  intros Hev Hok Hsubs Htok Hl Hs Hfault.
  rewrite (subscription_event_received cfg constructEvent raw_body sig e w kind sub
             Hev Hok).
  rewrite <- Hs. by rewrite (verify_after_update _ e' w l Hsubs Htok Hl).
Qed.

Lemma subscription_event_then_verify_witness :
  verify (QString "0123456789AB-DEADBEEF") demo_env
    (webhook demo_config demo_cancel_constructEvent "{}" (Some "t=1,v1=00")
       demo_env demo_world).2
  = json (BVerify (entitled "canceled") "all-access" (1700000000 * 1000)).
Proof.
  refine (subscription_event_then_verify demo_config demo_cancel_constructEvent
            "{}" (Some "t=1,v1=00") demo_env demo_env demo_world Updated _
            demo_license eq_refl eq_refl _ _ _ eq_refl eq_refl).
  - apply NoDup_singleton.
  - split; [apply NoDup_singleton|].
    intros x Hx. apply list_elem_of_singleton in Hx as ->. discriminate.
  - by left.
Defined.

(** X9.  A payment-failed event is always answered [{received: true}],
    also when the store refuses the update.  Customers and outbox are
    untouched; when the invoice names a subscription and the store
    accepts the update, the License rows of that subscription, and only
    they, are marked past_due; when the invoice names none or the store
    fails, nothing changes. *)
Theorem payment_failed_effect
    (cfg : config) (constructEvent : string → option string → option string → string + event)
    (raw_body : string) (sig : option string) (e : env) (w : world) (inv : invoice) :
  constructEvent raw_body sig (STRIPE_WEBHOOK_SECRET cfg)
    = inr (InvoicePaymentFailed inv) →
  let answer := webhook cfg constructEvent raw_body sig e w in
  answer.1 = json BReceived
  ∧ customers answer.2 = customers w
  ∧ outbox answer.2 = outbox w
  ∧ (∀ s, or_string (inv_subscription inv) None = Some s →
          store_fault e 0 = None →
          answer.2 = set_licenses
                       (update_rows (λ l, lic_stripe_subscription_id l = s)
                          mark_past_due (licenses w)) w)
  ∧ (or_string (inv_subscription inv) None = None ∨ store_fault e 0 ≠ None →
     answer.2 = w).
Proof.
  intros Hev. cbv zeta. unfold webhook. rewrite Hev. unfold handle_event.
  destruct (or_string (inv_subscription inv) None) as [s|]; simpl.
  - unfold update_licenses. fold mark_past_due.
    destruct (store_fault e 0) as [msg|]; simpl.
    + do 3 (split; [done|]). split; [done|]. done.
    + do 3 (split; [done|]). split.
      * by intros ? [= <-] _.
      * intros [?|?]; done.
  - do 3 (split; [done|]). split; done.
Qed.

Lemma payment_failed_effect_witness :
  (webhook demo_config
     (λ _ _ _, inr (InvoicePaymentFailed {| inv_subscription := Some "sub_1" |}))
     "{}" (Some "t=1,v1=00")
     {| store_fault := λ _, Some "connection reset";
        stripe_retrieve := λ _, inr demo_subscription;
        fresh_token := "0123456789AB-DEADBEEF"; email_failure := None |}
     demo_world)
  = (json BReceived, demo_world).
Proof.
  pose proof (payment_failed_effect demo_config
     (λ _ _ _, inr (InvoicePaymentFailed {| inv_subscription := Some "sub_1" |}))
     "{}" (Some "t=1,v1=00")
     {| store_fault := λ _, Some "connection reset";
        stripe_retrieve := λ _, inr demo_subscription;
        fresh_token := "0123456789AB-DEADBEEF"; email_failure := None |}
     demo_world {| inv_subscription := Some "sub_1" |} eq_refl)
    as (Hok & _ & _ & _ & Hsame).
  apply injective_projections; [exact Hok|].
  apply Hsame. right. discriminate.
Defined.

(** X10.  A failed payment does not lock the subscriber out: once the
    event is processed and the store has accepted the update, the token
    of a License of the invoiced subscription verifies as entitled. *)
Theorem payment_failed_keeps_entitlement
    (cfg : config) (constructEvent : string → option string → option string → string + event)
    (raw_body : string) (sig : option string) (e e' : env) (w : world)
    (inv : invoice) (l : license) :
  constructEvent raw_body sig (STRIPE_WEBHOOK_SECRET cfg)
    = inr (InvoicePaymentFailed inv) →
  inv_subscription inv = Some (lic_stripe_subscription_id l) →
  lic_stripe_subscription_id l ≠ "" →
  store_fault e 0 = None →
  sub_unique w → tokens_distinct w → l ∈ licenses w →
  store_fault e' 0 = None →
  verify (QString (lic_token l)) e' (webhook cfg constructEvent raw_body sig e w).2
  = json (BVerify true (lic_tier l) (lic_current_period_end l)).
Proof.
  intros Hev Hinv Hne Hfault Hsubs Htok Hl Hfault'.
  rewrite (payment_failed_update cfg constructEvent raw_body sig e w inv
             (lic_stripe_subscription_id l) Hev); [| |done].
  - by rewrite (verify_after_update _ e' w l Hsubs Htok Hl).
  - rewrite Hinv. simpl. apply truthy_string_true in Hne. by rewrite Hne.
Qed.

Lemma payment_failed_keeps_entitlement_witness :
  verify (QString "0123456789AB-DEADBEEF") demo_env
    (webhook demo_config
       (λ _ _ _, inr (InvoicePaymentFailed {| inv_subscription := Some "sub_1" |}))
       "{}" (Some "t=1,v1=00") demo_env demo_world).2
  = json (BVerify true "all-access" 1700000000000).
Proof.
  refine (payment_failed_keeps_entitlement demo_config
       (λ _ _ _, inr (InvoicePaymentFailed {| inv_subscription := Some "sub_1" |}))
       "{}" (Some "t=1,v1=00") demo_env demo_env demo_world
       {| inv_subscription := Some "sub_1" |} demo_license
       eq_refl eq_refl _ eq_refl _ _ _ eq_refl).
  - discriminate.
  - apply NoDup_singleton.
  - split; [apply NoDup_singleton|].
    intros x Hx. apply list_elem_of_singleton in Hx as ->. discriminate.
  - by left.
Defined.

(** ** Customers and mail *)

(** The customers table after [upsertCustomer]: as it was, or one row
    longer (for an email no row had), or with the billing reference of the
    rows of that email rewritten; identifiers and emails stay. *)
Lemma upsertCustomer_customers e email cid w :
  customers (upsertCustomer e email cid w).2 = customers w
  ∨ (∃ c, customers (upsertCustomer e email cid w).2 = customers w ++ [c]
          ∧ ∀ x, x ∈ customers w → is_Some (cust_email c) →
                 cust_email x ≠ cust_email c)
  ∨ (λ c, (cust_id c, cust_email c)) <$> customers (upsertCustomer e email cid w).2
    = (λ c, (cust_id c, cust_email c)) <$> customers w.
Proof.
  unfold upsertCustomer, data_or_throw, upsert_customer_single.
  destruct (store_fault e 0) as [msg|]; simpl; [by left|].
  destruct (_ <$> filter _ (customers w)) as [|c [|c' rest]] eqn:Hrows; simpl.
  - right. left. eexists. split; [done|]. simpl.
    apply fmap_nil_inv in Hrows. intros x Hx Hsome Hx'.
    by apply (proj1 (filter_none_iff _ _) Hrows x Hx).
  - right. right.
    rewrite <- list_fmap_compose. apply list_fmap_ext. intros i x _. simpl.
    destruct (decide _) as [[_ Hx]|]; simpl; [by rewrite Hx | done].
  - by left.
Qed.

(** What the three shapes of the customers table have in common. *)
Lemma customers_shape (cs cs' : list customer) :
  cs' = cs
  ∨ (∃ c, cs' = cs ++ [c]
          ∧ ∀ x, x ∈ cs → is_Some (cust_email c) → cust_email x ≠ cust_email c)
  ∨ (λ c, (cust_id c, cust_email c)) <$> cs'
    = (λ c, (cust_id c, cust_email c)) <$> cs →
  (∀ i c, cs !! i = Some c →
     ∃ c', cs' !! i = Some c'
           ∧ cust_id c' = cust_id c ∧ cust_email c' = cust_email c)
  ∧ (length cs' ≤ S (length cs))%nat
  ∧ (NoDup (omap cust_email cs) → NoDup (omap cust_email cs')).
Proof.
  intros [->|[(c & -> & Hnew)|Hframe]].
  - split; [|split; [lia|done]]. intros i c Hc. by exists c.
  - split; [|split; [rewrite length_app; simpl; lia|]].
    + intros i c' Hc. exists c'. split; [|done]. by apply lookup_app_l_Some.
    + intros Hnodup. rewrite omap_app. simpl.
      destruct (cust_email c) as [em|] eqn:Hem; simpl; [|by rewrite app_nil_r].
      apply NoDup_app. split; [done|]. split; [|apply NoDup_singleton].
      intros em' Hin Hin'. apply list_elem_of_singleton in Hin' as ->.
      apply list_elem_of_omap in Hin as (x & Hx & Hxe).
      by apply (Hnew x Hx).
  - split; [|split].
    + intros i c Hc.
      assert (((λ c, (cust_id c, cust_email c)) <$> cs') !! i
              = Some (cust_id c, cust_email c)) as Hi
        by (by rewrite Hframe, list_lookup_fmap, Hc).
      rewrite list_lookup_fmap in Hi.
      destruct (cs' !! i) as [c'|]; [|done]. exists c'. simpl in Hi.
      split; [done|]. split; congruence.
    + apply (f_equal length) in Hframe. rewrite !length_fmap in Hframe. lia.
    + assert (∀ l : list customer,
                omap cust_email l
                = omap snd ((λ c, (cust_id c, cust_email c)) <$> l)) as Hvia.
      { intros l. induction l as [|x l IH]; [done|]. simpl.
        destruct (cust_email x); [f_equal|]; exact IH. }
      by rewrite !Hvia, Hframe.
Qed.

(** What a subscription checkout does to customers: exactly what
    [upsertCustomer] did, whatever happens afterwards. *)
Lemma checkout_customers cfg session e w sub :
  cs_mode session = "subscription" →
  stripe_retrieve e (cs_subscription session) = inr sub →
  customers (handle_event cfg (CheckoutSessionCompleted session) e w).2
  = customers (upsertCustomer e
      (or_string (cs_customer_details_email session) (sub_customer_email sub))
      (customer_id_of (cs_customer session)) w).2.
Proof.
  intros Hmode Hsub. unfold handle_event. rewrite Hmode, Hsub. simpl.
  unfold mbind, M_bind.
  destruct (upsertCustomer _ _ _ w) as [[c|msg] w1]; simpl; [|done].
  pose proof (toISOString_world (sub_current_period_end sub) w1) as Hw.
  destruct (toISOString _ w1) as [[pe|msg] w1']; simpl in *; subst w1'; [|done].
  pose proof (createOrUpdateLicense_spec e (cust_id c) (sub_id sub)
    (sub_status sub) pe (cs_id session) w1) as (Hc & _).
  destruct (createOrUpdateLicense _ _ _ _ _ _ w1) as [[r|msg] w2];
    simpl in *; [|done].
  unfold emailSend. destruct (or_string _ _); simpl; [|done].
  by destruct (email_failure e).
Qed.

Lemma handle_event_other_customers cfg ev e w :
  match ev with
  | CheckoutSessionCompleted session => cs_mode session ≠ "subscription"
  | _ => True
  end →
  customers (handle_event cfg ev e w).2 = customers w
  ∧ outbox (handle_event cfg ev e w).2 = outbox w.
Proof.
  destruct ev as [session|kind sub|inv|type]; unfold handle_event.
  - intros Hmode. apply String.eqb_neq in Hmode. by rewrite Hmode.
  - intros _. unfold mbind, M_bind.
    pose proof (toISOString_world (sub_current_period_end sub) w) as Hw.
    destruct (toISOString _ w) as [[pe|msg] w1]; simpl in *; subst w1; [|done].
    unfold data_or_throw, update_licenses. by destruct (store_fault e 0).
  - intros _. destruct (or_string _ _); simpl; [|done].
    unfold update_licenses. by destruct (store_fault e 0).
  - done.
Qed.

Lemma handle_event_outbox cfg ev e w :
  outbox (handle_event cfg ev e w).2 = outbox w
  ∨ ∃ m, outbox (handle_event cfg ev e w).2 = outbox w ++ [m].
Proof.
  destruct ev as [session|kind sub|inv|type];
    try (left; by apply handle_event_other_customers).
  unfold handle_event. destruct (negb _); simpl; [by left|].
  unfold mbind, M_bind.
  destruct (stripe_retrieve e (cs_subscription session)) as [msg|sub];
    simpl; [by left|].
  pose proof (upsertCustomer_licenses e
    (or_string (cs_customer_details_email session) (sub_customer_email sub))
    (customer_id_of (cs_customer session)) w) as [_ Ho1].
  destruct (upsertCustomer _ _ _ w) as [[c|msg] w1]; simpl in *; [|by left].
  pose proof (toISOString_world (sub_current_period_end sub) w1) as Hw.
  destruct (toISOString _ w1) as [[pe|msg] w1']; simpl in *; subst w1';
    [|by left].
  pose proof (createOrUpdateLicense_spec e (cust_id c) (sub_id sub)
    (sub_status sub) pe (cs_id session) w1) as (_ & Ho2 & _).
  destruct (createOrUpdateLicense _ _ _ _ _ _ w1) as [[r|msg] w2];
    simpl in *; [|left; by rewrite Ho2].
  unfold emailSend. destruct (or_string _ _); simpl; [|left; by rewrite Ho2].
  destruct (email_failure e); simpl; [left; by rewrite Ho2|].
  right. eexists. by rewrite Ho2, Ho1.
Qed.

(** X11.  No webhook request deletes a customer or changes the identifier
    or email of one, and none adds more than one; a request hands at most
    one mail to the provider; a request whose event is not a completed
    checkout in subscription mode leaves customers and outbox as they
    were; and a table with at most one customer per email address stays
    one. *)
Theorem webhook_customers_and_mail
    (cfg : config) (constructEvent : string → option string → option string → string + event)
    (raw_body : string) (sig : option string) (e : env) (w : world) :
  let w' := (webhook cfg constructEvent raw_body sig e w).2 in
  (∀ i c, customers w !! i = Some c →
     ∃ c', customers w' !! i = Some c'
           ∧ cust_id c' = cust_id c ∧ cust_email c' = cust_email c)
  ∧ (length (customers w') ≤ S (length (customers w)))%nat
  ∧ (outbox w' = outbox w ∨ ∃ m, outbox w' = outbox w ++ [m])
  ∧ (∀ ev, constructEvent raw_body sig (STRIPE_WEBHOOK_SECRET cfg) = inr ev →
       match ev with
       | CheckoutSessionCompleted session => cs_mode session ≠ "subscription"
       | _ => True
       end →
       customers w' = customers w ∧ outbox w' = outbox w)
  ∧ (email_unique w → email_unique w').
Proof.
  cbv zeta. unfold webhook.
  destruct (constructEvent _ _ _) as [msg|ev] eqn:Hev; simpl.
  { split; [intros i c Hc; by exists c|]. split; [lia|]. split; [by left|].
    split; done. }
  assert ((handle_event cfg ev e w).2
          = (match handle_event cfg ev e w with
             | (Return _, w') => (json BReceived, w')
             | (Throw _, w') => (status_send 500 "Webhook failed", w')
             end).2) as <-
    by (by destruct (handle_event cfg ev e w) as [[[]|?] ?]).
  assert (customers (handle_event cfg ev e w).2 = customers w
          ∨ (∃ c, customers (handle_event cfg ev e w).2 = customers w ++ [c]
                  ∧ ∀ x, x ∈ customers w → is_Some (cust_email c) →
                         cust_email x ≠ cust_email c)
          ∨ (λ c, (cust_id c, cust_email c)) <$> customers (handle_event cfg ev e w).2
            = (λ c, (cust_id c, cust_email c)) <$> customers w) as Hshape.
  { destruct ev as [session|kind sub|inv|type];
      try (left; by apply handle_event_other_customers).
    destruct (decide (cs_mode session = "subscription")) as [Hmode|Hmode];
      [|left; by apply handle_event_other_customers].
    destruct (stripe_retrieve e (cs_subscription session)) as [msg|sub] eqn:Hsub.
    - left. unfold handle_event. by rewrite Hmode, Hsub.
    - rewrite (checkout_customers cfg session e w sub Hmode Hsub).
      apply upsertCustomer_customers. }
  destruct (customers_shape _ _ Hshape) as (Hkept & Hlen & Huniq).
  split; [done|]. split; [done|]. split; [apply handle_event_outbox|].
  split; [|done].
  intros ev' [= <-]. apply handle_event_other_customers.
Qed.

Lemma webhook_customers_and_mail_witness :
  customers (webhook demo_config demo_cancel_constructEvent "{}" (Some "t=1,v1=00")
               demo_env demo_world).2 = customers demo_world
  ∧ outbox (webhook demo_config demo_cancel_constructEvent "{}" (Some "t=1,v1=00")
              demo_env demo_world).2 = outbox demo_world.
Proof.
  exact (proj1 (proj2 (proj2 (proj2 (webhook_customers_and_mail demo_config
           demo_cancel_constructEvent "{}" (Some "t=1,v1=00") demo_env demo_world))))
         _ eq_refl I).
Defined.

(** ** The two webhook routes *)

Lemma filter_at_most_one {A B} `{EqDecision B} (g : A → B) (ls : list A) (s : B) :
  NoDup (g <$> ls) →
  filter (λ x, g x = s) ls = [] ∨ ∃ l, filter (λ x, g x = s) ls = [l].
Proof.
  intros Hnodup.
  destruct (filter (λ x, g x = s) ls) as [|l rest] eqn:Hrows; [by left|].
  right. exists l.
  assert (l ∈ filter (λ x, g x = s) ls) as Hl by (rewrite Hrows; by left).
  apply list_elem_of_filter in Hl as [Hs Hl].
  rewrite <- Hs, (filter_unique g ls l Hnodup Hl) in Hrows. done.
Qed.

(** The two event handlers end in the same store, with the same
    recipients, subjects and keys in the outbox, both returning or both
    throwing, when no subscription has two License rows. *)
Lemma handle_event_agree cfg ev e w :
  sub_unique w →
  match handle_event' cfg ev e w, handle_event cfg ev e w with
  | (Return _, w1), (Return _, w2) => w1 = w2
  | (Throw _, w1), (Throw _, w2) => w1 = w2
  | _, _ => False
  end.
Proof.
  intros Hsubs. destruct ev as [session|kind sub|inv|type].
  - unfold handle_event', handle_event.
    destruct (negb _); simpl; [done|]. unfold mbind, M_bind.
    destruct (stripe_retrieve e (cs_subscription session)) as [msg|sub];
      simpl; [done|].
    destruct (upsertCustomer _ _ _ w) as [[c|msg] w1]; simpl; [|done].
    destruct (toISOString _ w1) as [[pe|msg] w1']; simpl; [|done].
    destruct (createOrUpdateLicense _ _ _ _ _ _ w1') as [[r|msg] w2];
      simpl; [|done].
    unfold emailSend', emailSend.
    destruct (or_string (RESEND_API_KEY cfg) None); simpl; [|done].
    by destruct (email_failure e).
  - unfold handle_event', handle_event, mbind, M_bind.
    destruct (toISOString _ w) as [[pe|msg] w1] eqn:Hiso; simpl; [|done].
    pose proof (toISOString_world (sub_current_period_end sub) w) as Hw.
    rewrite Hiso in Hw. simpl in Hw. subst w1.
    unfold data_or_throw, update_license_maybeSingle, update_licenses.
    destruct (store_fault e 0) as [msg|]; simpl; [done|].
    destruct (filter_at_most_one lic_stripe_subscription_id (licenses w)
                (sub_id sub) Hsubs) as [Hnone|[l Hone]].
    + rewrite Hnone. simpl.
      rewrite update_rows_none by (apply (proj1 (filter_none_iff _ _) Hnone)).
      by rewrite set_licenses_id.
    + by rewrite Hone.
  - unfold handle_event', handle_event. by destruct (or_string _ _).
  - done.
Qed.

(** X12.  The webhook route of the sibling server refuses a request
    without a signature header, or with no signing secret configured, by
    400 without touching the store.  On every other request, in a store
    where no subscription has two License rows, the two webhook routes
    leave the same customers and licenses, hand mails with the same
    recipients, subjects and license keys to the provider (the markup
    around the key is worded differently in the two files and is not
    compared), and answer with the same status; the answers differ only
    in the text that goes with a 500. *)
Theorem webhook_routes_agree
    (cfg : config) (constructEvent : string → option string → option string → string + event)
    (raw_body : string) (sig : option string) (e : env) (w : world) :
  (or_string sig None = None ∨ or_string (STRIPE_WEBHOOK_SECRET cfg) None = None →
   webhook' cfg constructEvent raw_body sig e w
   = (status_send 400 "Webhook Error: Missing webhook secret", w))
  ∧ (or_string sig None ≠ None →
     or_string (STRIPE_WEBHOOK_SECRET cfg) None ≠ None →
     sub_unique w →
     customers (webhook' cfg constructEvent raw_body sig e w).2
       = customers (webhook cfg constructEvent raw_body sig e w).2
     ∧ licenses (webhook' cfg constructEvent raw_body sig e w).2
       = licenses (webhook cfg constructEvent raw_body sig e w).2
     ∧ next_id (webhook' cfg constructEvent raw_body sig e w).2
       = next_id (webhook cfg constructEvent raw_body sig e w).2
     ∧ (λ m, (mail_to m, mail_subject m, mail_license m))
         <$> outbox (webhook' cfg constructEvent raw_body sig e w).2
       = (λ m, (mail_to m, mail_subject m, mail_license m))
           <$> outbox (webhook cfg constructEvent raw_body sig e w).2
     ∧ res_status (webhook' cfg constructEvent raw_body sig e w).1
       = res_status (webhook cfg constructEvent raw_body sig e w).1
     ∧ (res_status (webhook cfg constructEvent raw_body sig e w).1 ≠ 500 →
        (webhook' cfg constructEvent raw_body sig e w).1
        = (webhook cfg constructEvent raw_body sig e w).1)
     ∧ (res_status (webhook cfg constructEvent raw_body sig e w).1 = 500 →
        (webhook' cfg constructEvent raw_body sig e w).1
          = status_send 500 "Webhook handler failed"
        ∧ (webhook cfg constructEvent raw_body sig e w).1
          = status_send 500 "Webhook failed")).
Proof.
  unfold webhook', webhook. split.
  - intros [Hsig|Hsecret].
    + by rewrite Hsig.
    + rewrite Hsecret. by destruct (or_string sig None).
  - intros Hsig Hsecret Hsubs.
    destruct (or_string sig None); [|done].
    destruct (or_string (STRIPE_WEBHOOK_SECRET cfg) None); [|done].
    destruct (constructEvent _ _ _) as [msg|ev]; simpl.
    { do 5 (split; [done|]). split; [done|]. discriminate. }
    pose proof (handle_event_agree cfg ev e w Hsubs) as Hagree.
    destruct (handle_event' cfg ev e w) as [[[]|msg1] w1],
             (handle_event cfg ev e w) as [[[]|msg2] w2]; simpl in *;
      try done; subst w2;
      (do 5 (split; [done|]); split; [done|]; done).
Qed.

Lemma webhook_routes_agree_witness :
  webhook' demo_config demo_constructEvent "{}" None demo_env demo_world
  = (status_send 400 "Webhook Error: Missing webhook secret", demo_world)
  ∧ licenses (webhook' demo_config demo_constructEvent "{}" (Some "good")
                demo_env demo_world).2
    = licenses (webhook demo_config demo_constructEvent "{}" (Some "good")
                  demo_env demo_world).2.
Proof.
  destruct (webhook_routes_agree demo_config demo_constructEvent "{}" None
              demo_env demo_world) as [Hmissing _].
  destruct (webhook_routes_agree demo_config demo_constructEvent "{}" (Some "good")
              demo_env demo_world) as [_ Hsame].
  split; [apply Hmissing; by left|].
  apply Hsame; [discriminate | discriminate | apply NoDup_singleton].
Defined.

(** * The license token *)

Lemma lower_hex_facts (c : ascii) :
  is_lower_hex c = true →
  Ascii.eqb c "-" = false
  ∧ (nat_of_ascii c <? 128)%nat = true
  ∧ is_upper_hex (upper_ascii c) = true.
Proof.
  destruct c as [[] [] [] [] [] [] [] []]; vm_compute; intros; done.
Qed.

Lemma hex_digit_lower (n : nat) : is_lower_hex (hex_digit n) = true.
Proof. do 16 (destruct n as [|n]; [done|]). done. Qed.

Lemma toString_hex_four (b0 b1 b2 b3 : ascii) :
  ∃ d0 d1 d2 d3 d4 d5 d6 d7,
    toString_hex [b0; b1; b2; b3]
    = String d0 (String d1 (String d2 (String d3
        (String d4 (String d5 (String d6 (String d7 EmptyString)))))))
    ∧ Forall (λ d, is_lower_hex d = true) [d0; d1; d2; d3; d4; d5; d6; d7].
Proof.
  do 8 eexists. split; [reflexivity|].
  repeat (constructor; [apply hex_digit_lower|]). constructor.
Qed.

#[global] Instance ascii_upper_case_laws : JsUpperCaseLaws.
Proof. split. reflexivity. Qed.

(** X13.  From the text of a UUID and four random bytes [licenseToken]
    makes a token of the shape XXXXXXXXXXXX-XXXXXXXX: twelve upper-case
    hexadecimal digits, a dash and eight more.  Such a token is not
    empty, so the verify route never takes it for a missing parameter. *)
Theorem licenseToken_shape `{JsUpperCaseLaws} (uuid : string) (random : list ascii) :
  is_uuid uuid = true →
  length random = 4 →
  is_license_token (licenseToken uuid random) = true
  ∧ truthy_qparam (QString (licenseToken uuid random)) = true.
Proof.
  intros Huuid Hlen.
  assert (∀ t, is_license_token t = true → truthy_qparam (QString t) = true)
    as Htruthy by (by intros [|c t]).
  enough (is_license_token (licenseToken uuid random) = true) by auto.
  clear Htruthy. unfold is_uuid in Huuid.
  do 13 (destruct uuid as [|? uuid]; [done|];
         cbn [uuid_from] in Huuid; apply andb_true_iff in Huuid as [? Huuid]).
  repeat match goal with
         | Hc : (if bool_decide _ then _ else _) = true |- _ =>
             rewrite ?bool_decide_eq_true_2, ?bool_decide_eq_false_2 in Hc
               by (rewrite !elem_of_cons, elem_of_nil; lia)
         end.
  repeat match goal with
         | Hc : Ascii.eqb _ "-" = true |- _ => apply Ascii.eqb_eq in Hc; subst
         | Hc : is_lower_hex _ = true |- _ =>
             apply lower_hex_facts in Hc as (? & ? & ?)
         end.
  destruct random as [|b0 [|b1 [|b2 [|b3 [|]]]]]; try done.
  destruct (toString_hex_four b0 b1 b2 b3)
    as (d0 & d1 & d2 & d3 & d4 & d5 & d6 & d7 & Hhex & Hd).
  unfold licenseToken. rewrite Hhex.
  cbn [remove_dashes slice_to].
  repeat match goal with
         | Hc : Ascii.eqb ?c "-" = false |- _ => rewrite Hc; clear Hc
         end.
  cbn [remove_dashes slice_to Ascii.eqb Bool.eqb].
  repeat match goal with
         | Hd : Forall _ (_ :: _) |- _ => apply Forall_cons in Hd as [?%lower_hex_facts Hd]
         end.
  repeat match goal with
         | Hc : _ ∧ _ |- _ => destruct Hc
         end.
  rewrite !toUpperCase_ascii by (cbn [is_ascii_text]; by repeat (apply andb_true_iff; split)).
  cbn [ascii_toUpperCase String.append is_license_token token_from Nat.eqb].
  by repeat (apply andb_true_iff; split).
Qed.

Lemma licenseToken_shape_witness :
  is_license_token
    (licenseToken "3f2b9c1e-7a4d-4e8b-9c0a-5d6e7f8091a2"
       ["222"%char; "173"%char; "190"%char; "239"%char]) = true
  ∧ truthy_qparam
      (QString (licenseToken "3f2b9c1e-7a4d-4e8b-9c0a-5d6e7f8091a2"
                  ["222"%char; "173"%char; "190"%char; "239"%char])) = true.
Proof.
  exact (licenseToken_shape "3f2b9c1e-7a4d-4e8b-9c0a-5d6e7f8091a2"
           ["222"%char; "173"%char; "190"%char; "239"%char] eq_refl eq_refl).
Defined.

(** * Properties of the client-side gate *)

(** X14.  With the verify route of the service behind [fetch], the gate
    takes a token for valid exactly when the token is present and not
    empty, the request gets through, the lookup returns a License, and
    the status of that License is active, trialing or past_due.  Every
    failure of the request or of the store reads as "not entitled". *)
Theorem gate_verify_end_to_end (e : env) (w : world) (up : bool) (token : option string) :
  Gate.verify (server_fetch e w up) token = true
  ↔ ∃ t r, token = Some t ∧ t ≠ "" ∧ up = true
           ∧ select_license_maybeSingle (store_fault e 0)
               (λ l, lic_token l = t) w = PgData (Some r)
           ∧ entitled (lic_status r) = true.
Proof.
  unfold Gate.verify, server_fetch, verify. split.
  - destruct token as [t|]; simpl; [|done].
    destruct (truthy_string t) eqn:Ht; simpl; [|done].
    destruct up; [|done]. simpl. rewrite Ht. simpl.
    destruct (select_license_maybeSingle _ _ w) as [msg|[r|]] eqn:Hsel;
      simpl; try done.
    intros Hok. exists t, r. apply truthy_string_true in Ht. done.
  - intros (t & r & -> & Ht & -> & Hsel & Hok). simpl.
    apply truthy_string_true in Ht. rewrite Ht. simpl. rewrite Ht. simpl.
    by rewrite Hsel.
Qed.

Lemma card_blank_lookup (items : list card) (i : nat) :
  (i < length items)%nat →
  ((λ _ : card, {| display := ""; body_filter := ""; body_userSelect := "" |})
     <$> items) !! i
  = Some {| display := ""; body_filter := ""; body_userSelect := "" |}.
Proof.
  intros Hi. rewrite list_lookup_fmap.
  destruct (lookup_lt_is_Some_2 items i Hi) as [c ->]. done.
Qed.

(** X15.  [lockUI] hides every card from the fourth on and blurs the
    first three without hiding them; [unlockUI] clears display, blur and
    selection lock of every card; unlocking a locked page gives what
    unlocking the page would have given, and locking twice is locking
    once.  Neither touches local storage, and a page without a grid is
    left as it is. *)
Theorem lock_and_unlock (p : page) :
  (∀ items, grid p = Some items →
     ∃ locked unlocked,
       grid (Gate.lockUI p) = Some locked
       ∧ grid (Gate.unlockUI p) = Some unlocked
       ∧ length locked = length items ∧ length unlocked = length items
       ∧ ∀ i el, items !! i = Some el →
           locked !! i
           = Some (if decide (3 ≤ i)%nat
                   then {| display := "none"; body_filter := body_filter el;
                           body_userSelect := body_userSelect el |}
                   else {| display := display el; body_filter := "blur(5px)";
                           body_userSelect := "none" |})
           ∧ unlocked !! i
             = Some {| display := ""; body_filter := ""; body_userSelect := "" |})
  ∧ (grid p = None → Gate.lockUI p = p ∧ Gate.unlockUI p = p)
  ∧ Gate.unlockUI (Gate.lockUI p) = Gate.unlockUI p
  ∧ Gate.lockUI (Gate.lockUI p) = Gate.lockUI p
  ∧ stored (Gate.lockUI p) = stored p
  ∧ stored (Gate.unlockUI p) = stored p.
Proof.
  unfold Gate.lockUI, Gate.unlockUI, Gate.PREVIEW_LIMIT.
  destruct p as [[items|] pl st msg md]; simpl.
  2: { split; [done|]. repeat split; done. }
  split; [|split; [done|split; [|split; [|done]]]].
  - intros ? [= <-]. do 2 eexists. split; [done|]. split; [done|].
    split; [by rewrite length_imap|]. split; [by rewrite length_fmap|].
    intros i el Hel. split.
    + by rewrite list_lookup_imap, Hel.
    + apply card_blank_lookup. by eapply lookup_lt_Some.
  - f_equal.
    + f_equal. apply list_eq. intros i. rewrite !list_lookup_fmap, list_lookup_imap.
      by destruct (items !! i).
    + by destruct pl.
  - f_equal.
    + f_equal. apply list_eq. intros i. rewrite !list_lookup_imap.
      destruct (items !! i) as [el|]; simpl; [|done].
      by destruct (decide (3 ≤ i)%nat).
    + by destruct pl.
Qed.

(** X16.  [applyKey] writes local storage only when the service has just
    accepted the trimmed text of the key field: then storage holds that
    text, which is not empty, the dialog is closed and every card is
    cleared; otherwise storage and grid are as they were and the dialog
    says that the key is invalid or inactive.  [boot] never writes local
    storage. *)
Theorem applyKey_stores_accepted_keys `{JsString}
    (fetch : string → option response) (input : string) (p : page) :
  (Gate.verify fetch (Some (trim input)) = true →
   stored (Gate.applyKey fetch input p) = Some (trim input)
   ∧ trim input ≠ ""
   ∧ (∃ r, fetch (trim input) = Some r ∧ body_ok (res_body r) = true)
   ∧ Gate.applyKey fetch input p
     = Gate.unlockUI {| grid := grid p; pill := pill p; stored := Some (trim input);
                        keyMsg := "Unlocked!"; modal_display := "none" |})
  ∧ (Gate.verify fetch (Some (trim input)) = false →
     stored (Gate.applyKey fetch input p) = stored p
     ∧ grid (Gate.applyKey fetch input p) = grid p
     ∧ keyMsg (Gate.applyKey fetch input p) = "Invalid or inactive key.")
  ∧ stored (Gate.boot fetch p) = stored p.
Proof.
  unfold Gate.applyKey, Gate.boot. split; [|split].
  - intros Hok. rewrite Hok. split.
    + unfold Gate.unlockUI. simpl. by destruct (grid p).
    + unfold Gate.verify in Hok. simpl in Hok.
      destruct (truthy_string (trim input)) eqn:Ht; [|done].
      split; [by apply truthy_string_true|]. split; [|done].
      destruct (fetch (trim input)) as [r|]; [|done]. by exists r.
  - intros Hbad. by rewrite Hbad.
  - destruct (Gate.verify fetch (stored p)).
    + unfold Gate.unlockUI. by destruct (grid p).
    + unfold Gate.lockUI. by destruct (grid p).
Qed.

Example gate_boot_locks_unknown_key :
  grid (Gate.boot (server_fetch demo_env demo_world true)
          {| grid := Some [ {| display := ""; body_filter := ""; body_userSelect := "" |};
                            {| display := ""; body_filter := ""; body_userSelect := "" |};
                            {| display := ""; body_filter := ""; body_userSelect := "" |};
                            {| display := ""; body_filter := ""; body_userSelect := "" |} ];
             pill := Some ""; stored := Some "ABC123-DEADBEEF";
             keyMsg := ""; modal_display := "none" |})
  = Some [ {| display := ""; body_filter := "blur(5px)"; body_userSelect := "none" |};
           {| display := ""; body_filter := "blur(5px)"; body_userSelect := "none" |};
           {| display := ""; body_filter := "blur(5px)"; body_userSelect := "none" |};
           {| display := "none"; body_filter := ""; body_userSelect := "" |} ].
Proof. vm_compute. reflexivity. Qed.

(** * More on the catalog scripts *)

(** One more element of an array that is joined. *)
Local Ltac join_element text :=
  generalize dependent text; intros [?|] _; simpl;
  [ rewrite bind_None; split;
    [ intros [?|(? & ? & ?)]; [by right | done]
    | intros [|?]; [done | by left] ]
  | split; [by left | done] ].

Lemma String_value_None :
  ∀ v : value, String_value v = None ↔ unprintable v = true.
Proof.
  fix IH 1. intros [| |[]|n|s|l|fs]; simpl; try (split; discriminate).
  - rewrite fmap_None. revert l. fix IHl 1. intros [|x l]; [split; discriminate|].
    specialize (IHl l). specialize (IH x).
    rewrite orb_true_iff, <- IH, <- IHl.
    destruct x as [| |b|n|s|l'|fs];
      try (rewrite fmap_None; split; [by right | by intros [|]]).
    + join_element (String_value (VBool b)).
    + join_element (String_value (VNumber n)).
    + join_element (String_value (VString s)).
    + join_element (String_value (VArray l')).
    + join_element (String_value (VObject fs)).
  - destruct (bool_decide _); split; done.
Qed.

Lemma unprintable_truthy (v : value) : unprintable v = true → truthy v = true.
Proof. by destruct v. Qed.

(** [String(v || text)] throws exactly when [String(v)] does. *)
Lemma String_or_value_None (v : value) (text : string) :
  String_value (or_value v (VString text)) = None ↔ unprintable v = true.
Proof.
  unfold or_value. destruct (truthy v) eqn:Hv.
  - apply String_value_None.
  - split; [done|]. intros Hu%unprintable_truthy. congruence.
Qed.

(** [tags.map(String)] throws exactly when [String] does on an element. *)
Lemma mapM_String_value_None (l : list value) :
  mapM String_value l = None ↔ unprintable (VArray l) = true.
Proof.
  induction l as [|x l IH]; [done|].
  change (unprintable (VArray (x :: l)))
    with (unprintable x || unprintable (VArray l)).
  rewrite orb_true_iff, <- IH, <- String_value_None. simpl.
  destruct (String_value x) as [text|]; simpl; [|by split; [left|]].
  destruct (mapM String_value l); simpl; [|by split; [right|]].
  split; [done | by intros [|]].
Qed.

Lemma clean_None `{JsString} (i : nat) (it : value) :
  Validator.clean i it = None ↔ uncleanable it.
Proof.
  unfold uncleanable.
  assert (it = VNull ∨ it = VUndefined ∨ (it ≠ VNull ∧ it ≠ VUndefined))
    as [->|[->|[Hnull Hundef]]] by (destruct it; naive_solver);
    [by split; [left|] | by split; [right; left|] |].
  assert (Validator.clean i it
    = (id_text ← String_value (or_value (get it "id") (VString ("id-" +:+ pretty i)));
       category_text ← String_value (or_value (get it "category") (VString "General"));
       title_text ← String_value (or_value (get it "title") (VString "Untitled"));
       tag_texts ← match get it "tags" with
                   | VArray l => mapM String_value l
                   | _ => Some []
                   end;
       buyUrl_text ← String_value (or_value (get it "buyUrl") (VString ""));
       prompt_text ← String_value (or_value (get it "prompt") (VString ""));
       Some {| id := id_text; category := category_text; title := title_text;
               tags := tag_texts;
               rating := match get it "rating" with VNumber n => n | _ => 5%Z end;
               price := match get it "price" with VNumber n => n | _ => 99%Z end;
               buyUrl := trim buyUrl_text; prompt := trim prompt_text |})) as ->.
  { by destruct it. }
  pose proof (String_or_value_None (get it "id") ("id-" +:+ pretty i)) as Hid.
  pose proof (String_or_value_None (get it "category") "General") as Hcat.
  pose proof (String_or_value_None (get it "title") "Untitled") as Htitle.
  pose proof (String_or_value_None (get it "buyUrl") "") as Hurl.
  pose proof (String_or_value_None (get it "prompt") "") as Hprompt.
  assert (match get it "tags" with
          | VArray l => mapM String_value l
          | _ => Some []
          end = None
          ↔ ∃ l, get it "tags" = VArray l ∧ unprintable (VArray l) = true) as Htags.
  { destruct (get it "tags") as [| | | | |l|]; try (split; [done|]; by intros (? & ? & ?)).
    rewrite mapM_String_value_None. split; [by exists l|].
    by intros (? & [= <-] & ?). }
  assert (∀ k, k ∈ ["id"; "category"; "title"; "buyUrl"; "prompt"]
               → unprintable (get it k) = true
               → unprintable (get it "id") = true
                 ∨ unprintable (get it "category") = true
                 ∨ unprintable (get it "title") = true
                 ∨ unprintable (get it "buyUrl") = true
                 ∨ unprintable (get it "prompt") = true) as Hkeys.
  { intros k Hk Hu. repeat (apply elem_of_cons in Hk as [->|Hk]; [tauto|]).
    by apply elem_of_nil in Hk. }
  split.
  - intros Hnone. right. right.
    destruct (String_value (or_value (get it "id") _)) as [a|];
      [|left; exists "id"; split; [set_solver | by apply Hid]].
    destruct (String_value (or_value (get it "category") _)) as [b|];
      [|left; exists "category"; split; [set_solver | by apply Hcat]].
    destruct (String_value (or_value (get it "title") _)) as [c|];
      [|left; exists "title"; split; [set_solver | by apply Htitle]].
    destruct (match get it "tags" with
              | VArray l => mapM String_value l
              | _ => Some []
              end) as [g|]; [|right; by apply Htags].
    destruct (String_value (or_value (get it "buyUrl") _)) as [u|];
      [|left; exists "buyUrl"; split; [set_solver | by apply Hurl]].
    destruct (String_value (or_value (get it "prompt") _)) as [t|];
      [|left; exists "prompt"; split; [set_solver | by apply Hprompt]].
    done.
  - intros [?|[?|[(k & Hk & Hu)|Ht]]]; try done.
    + destruct (Hkeys k Hk Hu) as [Hu'|[Hu'|[Hu'|[Hu'|Hu']]]].
      * apply Hid in Hu'. by rewrite Hu'.
      * apply Hcat in Hu'. rewrite Hu'. by destruct (String_value _).
      * apply Htitle in Hu'. rewrite Hu'. by do 2 destruct (String_value _).
      * apply Hurl in Hu'. rewrite Hu'.
        do 3 (destruct (String_value _); [|done]); simpl.
        by destruct (match get it "tags" with VArray _ => _ | _ => _ end).
      * apply Hprompt in Hu'. rewrite Hu'.
        do 3 (destruct (String_value _); [|done]); simpl.
        destruct (match get it "tags" with VArray _ => _ | _ => _ end); [|done].
        simpl. by destruct (String_value _).
    + apply Htags in Ht. rewrite Ht.
      by do 3 (destruct (String_value _); [|done]).
Qed.

Lemma clean_from_None `{JsString} (i : nat) (data : list value) :
  Validator.clean_from i data = None ↔ ∃ it, it ∈ data ∧ uncleanable it.
Proof.
  revert i. induction data as [|it data IH]; intros i; simpl.
  - split; [done|]. intros (it & Hin & _). by apply elem_of_nil in Hin.
  - destruct (Validator.clean i it) as [x|] eqn:Hx; simpl.
    + assert (¬ uncleanable it) as Hit.
      { intros Hit%(clean_None i). congruence. }
      destruct (Validator.clean_from (S i) data) as [xs|] eqn:Hxs; simpl.
      * split; [done|]. intros (it' & Hin & Hthrows).
        apply elem_of_cons in Hin as [->|Hin]; [done|].
        assert (Validator.clean_from (S i) data = None) by (apply IH; by exists it').
        congruence.
      * split; [|done]. intros _.
        destruct (proj1 (IH (S i)) Hxs) as (it' & Hin & Hthrows).
        exists it'. split; [by right | done].
    + split; [|done]. intros _. exists it. split; [by left|].
      by apply (clean_None i).
Qed.

Lemma dedupe_sublist {A} (key : A → string) (seen : gset string) (l : list A) :
  sublist (dedupe key seen l) l.
Proof.
  revert seen. induction l as [|x l IH]; intros seen; simpl; [done|].
  destruct (decide (key x ∈ seen)).
  - by apply sublist_cons.
  - by apply sublist_skip.
Qed.

(** X17.  The validator throws before it writes exactly when the parsed
    file is null, or is (or holds under [items]) an array with an entry
    that is null or that has, in [id], [category], [title], [buyUrl] or
    [prompt] or among its [tags], an object with a property [toString]
    of its own (alone or inside arrays): reading a property of null
    throws, and so does converting such an object to a string.  A file
    that holds neither an array nor an object with an array under
    [items] is overwritten with the empty array. *)
Theorem validator_throws_exactly `{JsString} (d : value) :
  (Validator.main d = None
   ↔ d = VNull ∨ d = VUndefined
     ∨ ∃ data it, Validator.items_of d = Some data ∧ it ∈ data ∧ uncleanable it)
  ∧ ((∀ l, d ≠ VArray l) ∧ d ≠ VNull ∧ d ≠ VUndefined
     ∧ (∀ l, get d "items" ≠ VArray l)
     → Validator.main d = Some []).
Proof.
  split.
  - unfold Validator.main.
    destruct (Validator.items_of d) as [data|] eqn:Hitems; simpl.
    + unfold Validator.pipeline.
      destruct (Validator.clean_from 0 data) as [cleaned|] eqn:Hclean; simpl.
      * split; [done|]. intros [->|[->|(data' & it & [= <-] & Hin & Hit)]]; try done.
        assert (Validator.clean_from 0 data = None)
          by (apply clean_from_None; by exists it).
        congruence.
      * split; [|done]. intros _. right. right.
        destruct (proj1 (clean_from_None 0 data) Hclean) as (it & Hin & Hit).
        by exists data, it.
    + split; [|done]. intros _.
      destruct d; try done; try (by left); try (by right; left);
        simpl in Hitems; try done.
      by destruct (field _ _).
  - intros (Harr & Hnull & Hundef & Hitems). unfold Validator.main.
    assert (Validator.items_of d = Some []) as ->; [|done].
    destruct d; simpl in *; try done.
    + by destruct (Harr elements).
    + destruct (field fields "items"); try done. by destruct (Hitems elements).
Qed.

Example validator_throws_on_toString_key :
  Validator.main
    (VArray [VObject [("id", VObject [("toString", VNumber 0)]);
                      ("title", VString "hello"); ("prompt", VString "write a poem")]])
  = None
  ∧ Validator.main
      (VArray [VObject [("id", VObject [("valueOf", VNumber 0)]);
                        ("title", VString "hello"); ("prompt", VString "write a poem")]])
    = Some [ {| id := "[object Object]"; category := "General"; title := "hello";
                tags := []; rating := 5; price := 99; buyUrl := "";
                prompt := "write a poem" |} ].
Proof. vm_compute. split; reflexivity. Qed.

(** X18.  [uniqBy] keeps, in their order, the items whose key no earlier
    item of the array has: an item appended to the array is appended to
    the result exactly when its key is new.  So the result is the array
    with items left out, no two of its items share a key, every item of
    the array has its key in the result, and a second pass changes
    nothing. *)
Theorem uniqBy_keeps_first_of_each_key {A} (keyFn : A → string) (arr : list A) :
  (∀ x, Validator.uniqBy (arr ++ [x]) keyFn
        = Validator.uniqBy arr keyFn
          ++ (if decide (keyFn x ∈ keys keyFn arr) then [] else [x]))
  ∧ sublist (Validator.uniqBy arr keyFn) arr
  ∧ NoDup (keyFn <$> Validator.uniqBy arr keyFn)
  ∧ (∀ x, x ∈ arr → ∃ y, y ∈ Validator.uniqBy arr keyFn ∧ keyFn y = keyFn x)
  ∧ Validator.uniqBy (Validator.uniqBy arr keyFn) keyFn = Validator.uniqBy arr keyFn.
Proof.
  split; [|split; [|split; [|split]]].
  - intros x. rewrite !uniqBy_dedupe, dedupe_app. f_equal. simpl.
    rewrite (right_id_L ∅ (∪)). by destruct (decide (keyFn x ∈ keys keyFn arr)).
  - rewrite uniqBy_dedupe. apply dedupe_sublist.
  - rewrite uniqBy_dedupe. apply dedupe_NoDup.
  - intros x Hx. rewrite uniqBy_dedupe. apply dedupe_represents; [done|set_solver].
  - rewrite !uniqBy_dedupe. apply dedupe_id, dedupe_NoDup.
Qed.

(** X19.  The validator never adds a record, and every record it writes
    has a [buyUrl] and a body without white space at either end. *)
Theorem validator_output_is_tidy `{JsStringLaws}
    (d : value) (data : list value) (out : list item) :
  Validator.items_of d = Some data →
  Validator.main d = Some out →
  (length out ≤ length data)%nat
  ∧ ∀ x, x ∈ out → trim (buyUrl x) = buyUrl x ∧ trim (prompt x) = prompt x.
Proof.
  intros Hitems Hmain. unfold Validator.main in Hmain.
  rewrite Hitems in Hmain. simpl in Hmain. split.
  - apply pipeline_output in Hmain as (cleaned & Hclean & ->).
    rewrite sort_perm.
    etrans; [apply sublist_length, dedupe_sublist|].
    etrans; [apply length_filter|].
    apply Nat.eq_le_incl. clear Hitems.
    revert Hclean. generalize 0%nat. revert cleaned.
    induction data as [|it data IH]; intros cleaned i; simpl.
    + by intros [= <-].
    + destruct (Validator.clean i it); simpl; [|done].
      destruct (Validator.clean_from (S i) data) as [xs|] eqn:Hxs; simpl; [|done].
      intros [= <-]. simpl. f_equal. by eapply IH.
  - intros x Hx. destruct (pipeline_elem data out x Hmain Hx) as (_ & i & it & _ & Hcl).
    by eapply clean_trimmed.
Qed.

Lemma validator_output_is_tidy_witness :
  (length [ {| id := "id-0"; category := "General"; title := "Untitled";
               tags := []; rating := 5; price := 99; buyUrl := "";
               prompt := "write a poem" |} ] ≤ length [VObject [("prompt", VString "  write a poem ")]; VNumber 7])%nat
  ∧ ∀ x, x ∈ [ {| id := "id-0"; category := "General"; title := "Untitled";
                  tags := []; rating := 5; price := 99; buyUrl := "";
                  prompt := "write a poem" |} ] →
         trim (buyUrl x) = buyUrl x ∧ trim (prompt x) = prompt x.
Proof.
  apply (validator_output_is_tidy
           (VObject [("items", VArray [VObject [("prompt", VString "  write a poem ")]; VNumber 7])])
           [VObject [("prompt", VString "  write a poem ")]; VNumber 7]).
  - reflexivity.
  - vm_compute. reflexivity.
Defined.

(** X20.  The merge of the builder never deletes a key: every item of
    the seeded, generated and prior arrays has an item of the same
    [title::prompt] in the output; the output has no other items, no key
    twice, and no more items than the three arrays together.  Where a
    prior item and a seeded or generated item share a key, the seeded or
    generated one is written; the key of a prior item that is not seeded
    or generated stays in the file under a prior item, also when the
    templates that made it are gone. *)
Theorem builder_merge_is_complete `{JsString} (seeded generated prev : list item) :
  NoDup (Builder.key <$> Builder.main seeded generated prev)
  ∧ (∀ x, x ∈ Builder.main seeded generated prev → x ∈ seeded ++ generated ++ prev)
  ∧ (∀ x, x ∈ seeded ++ generated ++ prev →
       ∃ y, y ∈ Builder.main seeded generated prev ∧ Builder.key y = Builder.key x)
  ∧ (∀ x, x ∈ Builder.main seeded generated prev →
       Builder.key x ∈ keys Builder.key (seeded ++ generated) →
       x ∈ seeded ++ generated)
  ∧ (∀ x, x ∈ prev → Builder.key x ∉ keys Builder.key (seeded ++ generated) →
       ∃ y, y ∈ Builder.main seeded generated prev ∧ y ∈ prev
            ∧ Builder.key y = Builder.key x)
  ∧ (length (Builder.main seeded generated prev)
     ≤ length seeded + length generated + length prev)%nat.
Proof.
  assert (∀ x, x ∈ Builder.main seeded generated prev
               ↔ x ∈ dedupe Builder.key ∅ (seeded ++ generated)
                 ∨ x ∈ dedupe Builder.key (keys Builder.key (seeded ++ generated)) prev)
    as Hout.
  { intros x. unfold Builder.main. rewrite sort_perm, merge_filter_dedupe.
    rewrite app_assoc, dedupe_app, (right_id_L ∅ (∪)). apply elem_of_app. }
  split; [|split; [|split; [|split; [|split]]]].
  - unfold Builder.main. rewrite sort_perm, merge_filter_dedupe. apply dedupe_NoDup.
  - intros x [Hx|Hx]%Hout; apply dedupe_elem in Hx as [Hx _].
    + rewrite app_assoc. apply elem_of_app. by left.
    + rewrite app_assoc. apply elem_of_app. by right.
  - intros x Hx. unfold Builder.main.
    destruct (dedupe_represents Builder.key ∅ (seeded ++ generated ++ prev) x)
      as (y & Hy & Hk); [done|set_solver|].
    exists y. split; [|done]. by rewrite sort_perm, merge_filter_dedupe.
  - intros x [Hx|Hx]%Hout Hk; apply dedupe_elem in Hx as [Hx Hnew]; done.
  - intros x Hx Hk.
    destruct (dedupe_represents Builder.key
                (keys Builder.key (seeded ++ generated)) prev x)
      as (y & Hy & Hyk); [done|done|].
    exists y. split; [apply Hout; by right|].
    split; [|done]. by apply dedupe_elem in Hy as [Hy _].
  - unfold Builder.main. rewrite sort_perm, merge_filter_dedupe.
    etrans; [apply sublist_length, dedupe_sublist|].
    rewrite !length_app. lia.
Qed.

(** X21.  The builder writes its items by falling rating and, among
    items of one rating, by title in the order of [localeCompare]: of
    two items of the output, the earlier has the higher rating, or the
    same rating and a title that does not collate after the other's. *)
Theorem builder_output_order `{JsStringLaws} (seeded generated prev : list item) :
  StronglySorted
    (λ a b, (rating b < rating a)%Z
            ∨ (rating b = rating a ∧ (localeCompare (title a) (title b) ≤ 0)%Z))
    (Builder.main seeded generated prev).
Proof.
  unfold Builder.main.
  pose proof (sort_StronglySorted Builder.compare builder_before_total
                builder_before_trans
                (Builder.merge_filter ∅ (seeded ++ generated ++ prev))) as Hs.
  induction Hs as [|a l Hs IH Ha]; constructor; [done|].
  eapply Forall_impl; [exact Ha|]. intros b Hb. by apply builder_before.
Qed.

Lemma builder_output_order_witness :
  StronglySorted
    (λ a b, (rating b < rating a)%Z
            ∨ (rating b = rating a ∧ (localeCompare (title a) (title b) ≤ 0)%Z))
    (Builder.main [starter_nudge; starter_sop] [] [old_item; starter_sop; old_item]).
Proof.
  exact (builder_output_order [starter_nudge; starter_sop] []
           [old_item; starter_sop; old_item]).
Defined.

(** * Template substitution *)

#[local] Arguments String.append !_ _ / : simpl nomatch.

Lemma string_app_assoc (a b c : string) : (a +:+ b) +:+ c = a +:+ (b +:+ c).
Proof. induction a as [|x a IH]; simpl; [done|]. by rewrite IH. Qed.

Lemma replace_placeholders_cons (repl : string → string) (c : ascii) (rest : string) :
  replace_placeholders repl 0 (String c rest)
  = match opens (String c rest) ≫= close with
    | Some k => repl k +:+ replace_placeholders repl (String.length k + 3) rest
    | None => String c (replace_placeholders repl 0 rest)
    end.
Proof. done. Qed.

Lemma replace_placeholders_skip (repl : string → string) (a s : string) :
  replace_placeholders repl (String.length a) (a +:+ s)
  = replace_placeholders repl 0 s.
Proof. induction a as [|c a IH]; simpl; done. Qed.

Lemma opens_other (c : ascii) (s : string) :
  Ascii.eqb c "{" = false → opens (String c s) = None.
Proof.
  intros Hc. unfold opens. destruct (Ascii.eqb_spec c "{"); [done|].
  destruct c as [[] [] [] [] [] [] [] []]; done.
Qed.

Lemma closes_other (c : ascii) (s : string) :
  Ascii.eqb c "}" = false → closes (String c s) = false.
Proof.
  intros Hc. unfold closes. destruct (Ascii.eqb_spec c "}"); [done|].
  destruct c as [[] [] [] [] [] [] [] []]; done.
Qed.

Lemma replace_placeholders_plain (repl : string → string) (pre s : string) :
  free_of "{" pre = true →
  replace_placeholders repl 0 (pre +:+ s) = pre +:+ replace_placeholders repl 0 s.
Proof.
  induction pre as [|c pre IH]; [done|].
  intros [Hc Hpre]%andb_true_iff. apply negb_true_iff in Hc.
  change (String c pre +:+ s) with (String c (pre +:+ s)).
  rewrite replace_placeholders_cons, opens_other by done.
  simpl. by rewrite IH.
Qed.

Lemma line_terminator_app (k s : string) :
  k ≠ "" → line_terminator (k +:+ String "}" s) = line_terminator k.
Proof.
  destruct k as [|c [|d [|e k]]]; try done; simpl; intros _.
  - destruct s; simpl; by rewrite ?andb_false_r.
  - by destruct (Ascii.eqb c "226"), (Ascii.eqb d "128").
Qed.

Lemma close_placeholder (k post : string) :
  free_of "}" k = true → one_line k = true →
  close (k +:+ "}}" +:+ post) = Some k.
Proof.
  induction k as [|c k IH]; [done|].
  intros [Hc Hfree]%andb_true_iff [Hl Hline]%andb_true_iff.
  apply negb_true_iff in Hc, Hl.
  change (String c k +:+ "}}" +:+ post) with (String c (k +:+ "}}" +:+ post)).
  cbn [close]. rewrite closes_other by done.
  change (String c (k +:+ "}}" +:+ post))
    with (String c k +:+ String "}" (String "}" post)).
  rewrite line_terminator_app, Hl by done.
  change (k +:+ String "}" (String "}" post)) with (k +:+ "}}" +:+ post).
  by rewrite IH.
Qed.

Lemma close_none (t : string) (nl : ascii) (post : string) :
  has_close t = false → Ascii.eqb nl "}" = false →
  line_terminator (String nl "") = true →
  close (t +:+ String nl post) = None.
Proof.
  intros Ht Hnl Hterm. induction t as [|c t IH].
  - change ("" +:+ String nl post) with (String nl post).
    cbn [close]. rewrite closes_other by done.
    assert (line_terminator (String nl post) = true) as ->; [|done].
    simpl in *. rewrite andb_false_r, orb_false_r in Hterm.
    by rewrite Hterm.
  - simpl in Ht. apply orb_false_iff in Ht as [Hc Ht].
    change (String c t +:+ String nl post) with (String c (t +:+ String nl post)).
    cbn [close].
    assert (closes (String c (t +:+ String nl post)) = false) as ->.
    { destruct t as [|d t]; [|exact Hc]. simpl.
      destruct (Ascii.eqb_spec nl "}"); [done|].
      destruct c as [[] [] [] [] [] [] [] []]; try done;
        destruct nl as [[] [] [] [] [] [] [] []]; done. }
    rewrite (IH Ht). by destruct (line_terminator (String c _)).
Qed.

Lemma has_close_drop (c : ascii) (t : string) :
  has_close (String c t) = false → has_close t = false.
Proof. simpl. by intros [_ ?]%orb_false_iff. Qed.

Lemma replace_placeholders_unclosed (repl : string → string)
    (t : string) (nl : ascii) (post : string) :
  has_close t = false → Ascii.eqb nl "}" = false → Ascii.eqb nl "{" = false →
  line_terminator (String nl "") = true →
  replace_placeholders repl 0 (t +:+ String nl post)
  = t +:+ String nl (replace_placeholders repl 0 post).
Proof.
  intros Ht Hnl Hnl' Hterm. induction t as [|c t IH].
  - change ("" +:+ String nl post) with (String nl post).
    by rewrite replace_placeholders_cons, opens_other.
  - change (String c t +:+ String nl post) with (String c (t +:+ String nl post)).
    rewrite replace_placeholders_cons.
    assert (opens (String c (t +:+ String nl post)) ≫= close = None) as ->.
    { destruct (opens (String c (t +:+ String nl post))) as [rest|] eqn:Hopen; [|done].
      simpl. destruct c as [[] [] [] [] [] [] [] []]; try done.
      destruct t as [|d t]; simpl in Hopen.
      - destruct nl as [[] [] [] [] [] [] [] []]; done.
      - destruct d as [[] [] [] [] [] [] [] []]; try done.
        injection Hopen as <-. by apply close_none. }
    rewrite IH by by eapply has_close_drop. done.
Qed.

Lemma replace_placeholders_no_open (repl : string → string) (s : string) :
  has_open s = false → replace_placeholders repl 0 s = s.
Proof.
  induction s as [|c s IH]; [done|]. intros Hs.
  cbn [has_open] in Hs. apply orb_false_iff in Hs as [Hc Hs].
  rewrite replace_placeholders_cons.
  destruct (opens (String c s)) as [rest|] eqn:Hopen.
  - apply bool_decide_eq_false in Hc. by destruct Hc.
  - simpl. by rewrite IH.
Qed.

Lemma close_no_close (s : string) : has_close s = false → close s = None.
Proof.
  induction s as [|c s IH]; [done|]. intros Hs.
  cbn [has_close] in Hs. apply orb_false_iff in Hs as [Hc Hs].
  cbn [close]. rewrite Hc, IH by done. by destruct (line_terminator _).
Qed.

Lemma replace_placeholders_no_close (repl : string → string) (s : string) :
  has_close s = false → replace_placeholders repl 0 s = s.
Proof.
  induction s as [|c s IH]; [done|]. intros Hs.
  rewrite replace_placeholders_cons.
  assert (opens (String c s) ≫= close = None) as ->.
  { destruct (opens (String c s)) as [rest|] eqn:Hopen; [|done]. simpl.
    destruct c as [[] [] [] [] [] [] [] []]; try done.
    destruct s as [|d s]; [done|].
    destruct d as [[] [] [] [] [] [] [] []]; try done.
    simpl in Hopen. injection Hopen as <-. by apply close_no_close. }
  rewrite IH by by eapply has_close_drop. done.
Qed.

(** X22.  [apply] returns a template without [{{], or without [}}], as
    it is, whatever the variables. *)
Theorem apply_keeps_plain_text `{JsString}
    (tpl : string) (vars : string → option string) :
  has_open tpl = false ∨ has_close tpl = false →
  Template.apply tpl vars = tpl.
Proof.
  unfold Template.apply. intros [Hopen|Hclose].
  - by apply replace_placeholders_no_open.
  - by apply replace_placeholders_no_close.
Qed.

Lemma apply_keeps_plain_text_witness :
  Template.apply "Ask for {missing} inputs } before drafting."
    (λ k, if decide (k = "missing") then Some "all" else None)
  = "Ask for {missing} inputs } before drafting.".
Proof.
  apply (apply_keeps_plain_text "Ask for {missing} inputs } before drafting.").
  left. reflexivity.
Defined.

(** X23.  The first placeholder of a template: where [pre] has no [{],
    and [k] has no [}] and no line terminator, [apply] turns
    [pre {{k}} post] into [pre], then the value of the variable named
    by [k] without the white space around it, or [{{k}}] with that white
    space removed if there is no such variable, then what [apply] makes
    of [post].  The value put in is not searched for placeholders. *)
Theorem apply_substitutes `{JsString}
    (pre k post : string) (vars : string → option string) :
  free_of "{" pre = true → free_of "}" k = true → one_line k = true →
  Template.apply (pre +:+ "{{" +:+ k +:+ "}}" +:+ post) vars
  = pre
    +:+ match vars (trim k) with
        | Some text => text
        | None => "{{" +:+ trim k +:+ "}}"
        end
    +:+ Template.apply post vars.
Proof.
  intros Hpre Hk Hline. unfold Template.apply.
  rewrite replace_placeholders_plain by done. f_equal.
  change ("{{" +:+ k +:+ "}}" +:+ post)
    with (String "{" (String "{" (k +:+ "}}" +:+ post))).
  rewrite replace_placeholders_cons.
  cbn [opens mbind option_bind]. rewrite close_placeholder by done.
  f_equal.
  change (String "{" (k +:+ "}}" +:+ post)) with (String "{" k +:+ "}}" +:+ post).
  rewrite <- (string_app_assoc (String "{" k) "}}" post).
  replace (String.length k + 3)%nat with (String.length (String "{" k +:+ "}}")).
  - apply replace_placeholders_skip.
  - clear. simpl. f_equal. induction k as [|c k IH]; simpl; [done|]. by rewrite IH.
Qed.

Lemma apply_substitutes_witness :
  Template.apply ("Write a " +:+ "{{" +:+ " channel " +:+ "}}" +:+ " for {{industry}}.")
    (λ k, if decide (k = "channel") then Some "{{email}}" else None)
  = "Write a "
    +:+ match (if decide (trim " channel " = "channel") then Some "{{email}}" else None) with
        | Some text => text
        | None => "{{" +:+ trim " channel " +:+ "}}"
        end
    +:+ Template.apply " for {{industry}}."
          (λ k, if decide (k = "channel") then Some "{{email}}" else None).
Proof.
  apply (apply_substitutes "Write a " " channel " " for {{industry}}."
           (λ k, if decide (k = "channel") then Some "{{email}}" else None));
    reflexivity.
Defined.

(** X24.  A placeholder does not run over a line: where [pre] has no
    [{] and [k] has no [}}], the text [pre {{k] before a line feed or a
    carriage return is left as it is, and [apply] goes on after the line
    end. *)
Theorem apply_stops_at_line_end `{JsString}
    (pre k : string) (nl : ascii) (post : string) (vars : string → option string) :
  free_of "{" pre = true → has_close k = false →
  nl = "010"%char ∨ nl = "013"%char →
  Template.apply (pre +:+ "{{" +:+ k +:+ String nl post) vars
  = pre +:+ "{{" +:+ k +:+ String nl (Template.apply post vars).
Proof.
  intros Hpre Hk Hnl. unfold Template.apply.
  rewrite replace_placeholders_plain by done. f_equal.
  rewrite <- !(string_app_assoc "{{" k).
  apply replace_placeholders_unclosed; try done; by destruct Hnl as [->| ->].
Qed.

Lemma apply_stops_at_line_end_witness :
  Template.apply ("Dear " +:+ "{{" +:+ "name" +:+ String "010" "}} and {{role}}")
    (λ k, if decide (k = "role") then Some "Owner" else None)
  = "Dear " +:+ "{{" +:+ "name"
    +:+ String "010" (Template.apply "}} and {{role}}"
                        (λ k, if decide (k = "role") then Some "Owner" else None)).
Proof.
  apply (apply_stops_at_line_end "Dear " "name" "010" "}} and {{role}}"
           (λ k, if decide (k = "role") then Some "Owner" else None));
    [reflexivity | reflexivity | by left].
Defined.

Example apply_run :
  Template.apply "Write a {{channel}} outreach for a {{ industry }} {{role}} in {{city}}."
    (λ k, if decide (k = "channel") then Some "email"
          else if decide (k = "industry") then Some "B2B SaaS"
          else if decide (k = "city") then Some "{{city}}" else None)
  = "Write a email outreach for a B2B SaaS {{role}} in {{city}}.".
Proof. vm_compute. reflexivity. Qed.

(** * [esc] *)

Lemma replaceAll_app (c : ascii) (r a b : string) :
  replaceAll c r (a +:+ b) = replaceAll c r a +:+ replaceAll c r b.
Proof.
  induction a as [|x a IH]; [done|].
  change (String x a +:+ b) with (String x (a +:+ b)).
  cbn [replaceAll]. by rewrite IH, string_app_assoc.
Qed.

(** What [esc] writes for one character. *)
Lemma esc_cons (c : ascii) (s : string) :
  esc (String c s)
  = (if Ascii.eqb c "&" then "&amp;"
     else if Ascii.eqb c "<" then "&lt;" else String c "")
    +:+ esc s.
Proof.
  unfold esc. cbn [replaceAll]. rewrite replaceAll_app. f_equal.
  destruct (Ascii.eqb c "&") eqn:Hamp; [done|].
  cbn [replaceAll]. by destruct (Ascii.eqb c "<").
Qed.

Lemma esc_app (a b : string) : esc (a +:+ b) = esc a +:+ esc b.
Proof. unfold esc. by rewrite !replaceAll_app. Qed.

Lemma esc_inj (a b : string) : esc a = esc b → a = b.
Proof.
  revert b. induction a as [|x a IH]; intros [|y b].
  - done.
  - rewrite esc_cons. change (esc "") with "".
    by destruct (Ascii.eqb y "&"), (Ascii.eqb y "<").
  - rewrite esc_cons. change (esc "") with "".
    by destruct (Ascii.eqb x "&"), (Ascii.eqb x "<").
  - rewrite !esc_cons.
    destruct (Ascii.eqb_spec x "&") as [->|Hx], (Ascii.eqb_spec y "&") as [->|Hy].
    + simpl. intros [= Heq]. by rewrite (IH b Heq).
    + destruct (Ascii.eqb_spec y "<") as [->|Hy']; simpl; [done|].
      intros [= Heq _]. by destruct Hy.
    + destruct (Ascii.eqb_spec x "<") as [->|Hx']; simpl; [done|].
      intros [= Heq _]. by destruct Hx.
    + destruct (Ascii.eqb_spec x "<") as [->|Hx'], (Ascii.eqb_spec y "<") as [->|Hy'];
        simpl.
      * intros [= Heq]. by rewrite (IH b Heq).
      * intros [= Heq _]. by destruct Hy.
      * intros [= Heq _]. by destruct Hx.
      * intros [= -> Heq]. by rewrite (IH b Heq).
Qed.

(** X25.  [esc] leaves no [<] in its result, returns a text without [&]
    and [<] as it is ([>] and quotes are not escaped), goes through a
    concatenation part by part, and gives different results for
    different texts, so the text can be read back from its result. *)
Theorem esc_is_a_faithful_encoding (a b : string) :
  free_of "<" (esc a) = true
  ∧ (free_of "&" a = true ∧ free_of "<" a = true → esc a = a)
  ∧ esc (a +:+ b) = esc a +:+ esc b
  ∧ (esc a = esc b ↔ a = b).
Proof.
  split; [|split; [|split; [apply esc_app|]]].
  - induction a as [|x a IH]; [done|]. rewrite esc_cons.
    destruct (Ascii.eqb x "&"); [exact IH|].
    destruct (Ascii.eqb x "<") eqn:Hx; [exact IH|].
    simpl. by rewrite Hx.
  - induction a as [|x a IH]; [done|]. intros [Hamp Hlt].
    simpl in Hamp, Hlt.
    apply andb_true_iff in Hamp as [Hx Hamp], Hlt as [Hx' Hlt].
    apply negb_true_iff in Hx, Hx'.
    rewrite esc_cons, Hx, Hx', IH by done. done.
  - split; [apply esc_inj | by intros ->].
Qed.

Example esc_run :
  esc "<b>Tom & Jerry</b> &lt;" = "&lt;b>Tom &amp; Jerry&lt;/b> &amp;lt;".
Proof. vm_compute. reflexivity. Qed.
